(** * tracedb write batch (batch.go): shallow embedding and verified properties

    The embedding follows the first batch implementation of batch.go
    (internal-key codec, batch buffer, [uniq], [mput], [Write], [commit],
    [Commit], [Abort]).  Go values are modelled as follows:

    - [uint16], [uint32], [uint64] values are [Z] with the wrap-around of
      each operation written out ([wrap16], [wrap32], [wrap64]);
    - [[]byte] is [list byte]; a write through a sub-slice is a write into
      the enclosing list ([with_slice]);
    - Go maps are [gmap]s, ranged over with [map_fold];
    - a call that can panic or block returns an [outcome];
    - collaborators whose code lives outside batch.go (the memdb bucket
      table, the persistent bucket index, data region and filter) are the
      operations of the classes [MemOps] and [DBOps].

    Part I also embeds the file wrapper of file.go (over the class
    [FileOps]) and the buffer, [append] and [uniq] of the later batch that
    batch.go carries (module [V2], over the class [MsgOps]); Part III
    proves further properties of all of these. *)

From Stdlib Require Import ZArith Lia List Bool.
From coqutil Require Import Byte Word.LittleEndianList.
From stdpp Require Import base option list sorting gmap fin_maps.

Local Open Scope Z_scope.

(* ===================================================================== *)
(** * Part I: definitions                                                 *)
(* ===================================================================== *)

(** ** Machine integers *)

Definition wrap16 (z : Z) : Z := z mod 2 ^ 16.
Definition wrap32 (z : Z) : Z := z mod 2 ^ 32.
Definition wrap64 (z : Z) : Z := z mod 2 ^ 64.

(** [int64] addition as the counters of [commit] use it. *)
Definition wrap_int64 (z : Z) : Z := (z + 2 ^ 63) mod 2 ^ 64 - 2 ^ 63.

(** ** Errors

    The error values batch.go names, plus [errOther] for the errors that
    collaborators (file and data layers) hand back. *)

Inductive error : Type :=
| errKeyEmpty
| errKeyTooLarge
| errValueTooLarge
| errKeyExpired
| errBatchSeqComplete
| errFull
| errOther (code : nat).

#[global] Instance error_eq_dec : EqDecision error.
Proof. solve_decision. Defined.

(** [err != nil] *)
Definition is_err (e : option error) : bool :=
  match e with Some _ => true | None => false end.

(** A Go call either returns, panics, or blocks on a channel. *)
Inductive outcome (A : Type) : Type :=
| Returns (a : A)
| Panics
| Blocks.
Arguments Returns {A} a.
Arguments Panics {A}.
Arguments Blocks {A}.

#[global] Instance outcome_ret : MRet outcome := fun A a => Returns a.
#[global] Instance outcome_bind : MBind outcome := fun A B f m =>
  match m with
  | Returns a => f a
  | Panics => Panics
  | Blocks => Blocks
  end.

(** ** Byte slices *)

#[global] Instance byte_eq_dec : EqDecision byte.
Proof.
  intros x y. destruct (Byte.eqb x y) eqn:E.
  - left. apply Byte.byte_dec_bl, E.
  - right. intros ->. rewrite Byte.byte_dec_lb in E by reflexivity.
    discriminate.
Defined.

#[global] Instance byte_inhabited : Inhabited byte := populate Byte.x00.

(** [bytes.Equal] *)
Definition bytes_Equal (a b : list byte) : bool := bool_decide (a = b).

(** [copy(dst, src)]: overwrites the first [min(len dst, len src)] bytes of
    [dst]; the result is the new contents of [dst]. *)
Definition copy (dst src : list byte) : list byte :=
  take (length dst) src ++ drop (length src) dst.

(** A write [f] made through the sub-slice [dst[lo:hi]]. *)
Definition with_slice (lo hi : nat) (f : list byte -> list byte)
    (dst : list byte) : list byte :=
  take lo dst ++ f (take (hi - lo) (drop lo dst)) ++ drop hi dst.

(** [binary.LittleEndian]: the four accessors batch.go calls. *)
Definition PutUint64 (v : Z) (b : list byte) : list byte :=
  le_split 8 v ++ drop 8 b.
Definition PutUint32 (v : Z) (b : list byte) : list byte :=
  le_split 4 v ++ drop 4 b.
Definition Uint64 (b : list byte) : Z := le_combine (take 8 b).
Definition Uint32 (b : list byte) : Z := le_combine (take 4 b).

(** ** Internal key codec *)

Module Codec.

(** [keyMaxSeq = (uint64(1) << 56) - 1] *)
Definition keyMaxSeq : Z := wrap64 (Z.shiftl 1 56) - 1.
(** [keyMaxNum = (keyMaxSeq << 8) | 0] *)
Definition keyMaxNum : Z := Z.lor (wrap64 (Z.shiftl keyMaxSeq 8)) 0.

Definition internalKey := list byte.

(** Modelled from the spec: [ensureBuffer] is not in src/.  [makeInternalKey]
    asks it for a buffer of [len ukey + 12] bytes ("appends the 12-byte
    tail"); the model hands back [b[:n]] when [b] is long enough and a fresh
    zeroed buffer otherwise. *)
Definition ensureBuffer (b : list byte) (n : nat) : list byte :=
  if (length b <? n)%nat then replicate n Byte.x00 else take n b.

(** [makeInternalKey]; [None] is the panic on [seq > keyMaxSeq]. *)
Definition makeInternalKey (dst ukey : list byte) (seq : Z) (dFlag : bool)
    (expiresAt : Z) : option internalKey :=
  if keyMaxSeq <? seq then None
  else
    let dBit := if dFlag then 1 else 0 in
    let dst := ensureBuffer dst (length ukey + 12) in
    let dst := copy dst ukey in
    let dst :=
      with_slice (length ukey) (length ukey + 8)
        (PutUint64 (Z.lor (wrap64 (Z.shiftl seq 8)) dBit)) dst in
    let dst :=
      with_slice (length ukey + 8) (length dst) (PutUint32 expiresAt) dst in
    Some dst.

(** [parseInternalKey]: the results are named results; the early [return]
    on a short key hands back their zero values, [err] included, and no
    other statement assigns [err]. *)
Definition parseInternalKey (ik : list byte)
    : list byte * Z * bool * Z * option error :=
  if (length ik <? 12)%nat then ([], 0, false, 0, None)
  else
    let expiresAt := Uint32 (drop (length ik - 4) ik) in
    let num := Uint64 (take 8 (drop (length ik - 12) ik)) in
    let seq := Z.shiftr num 8 in
    let dFlag := negb (Z.land num 255 =? 0) in
    let ukey := take (length ik - 12) ik in
    (ukey, seq, dFlag, expiresAt, None).

End Codec.

(** ** Batch index entries *)

Module Index.

(** [batchIndex] *)
Record batchIndex : Type := mkIndex {
  delFlag : bool;
  hash : Z;        (* uint32 *)
  keySize : Z;     (* uint16 *)
  valueSize : Z;   (* uint32 *)
  expiresAt : Z;   (* uint32 *)
  kvOffset : nat   (* int *)
}.

(** The zero value of [batchIndex]. *)
Definition zero : batchIndex := mkIndex false 0 0 0 0 0.

#[global] Instance batchIndex_inhabited : Inhabited batchIndex := populate zero.

#[global] Instance batchIndex_eq_dec : EqDecision batchIndex.
Proof. solve_decision. Defined.

(** [index.kvSize()]: a [uint32] sum. *)
Definition kvSize (index : batchIndex) : Z :=
  wrap32 (keySize index + valueSize index).

(** A slice expression [data[lo:hi]]; [None] is the run-time panic.  The
    model panics when [hi] exceeds [len(data)] (Go would allow [hi] up to
    the capacity and expose bytes that no append wrote). *)
Definition slice (data : list byte) (lo hi : nat) : option (list byte) :=
  if (lo <=? hi)%nat && (hi <=? length data)%nat
  then Some (take (hi - lo) (drop lo data)) else None.

(** [index.k(data)] *)
Definition k (index : batchIndex) (data : list byte) : option (list byte) :=
  slice data (kvOffset index) (kvOffset index + Z.to_nat (keySize index)).

(** [index.kv(data)] *)
Definition kv (index : batchIndex) (data : list byte)
    : option (list byte * list byte) :=
  keyValue ← slice data (kvOffset index)
                (kvOffset index + Z.to_nat (kvSize index));
  key ← slice keyValue 0 (Z.to_nat (keySize index));
  value ← slice keyValue (Z.to_nat (keySize index)) (length keyValue);
  Some (key, value).

End Index.

(** ** Buckets

    Modelled from the spec: the declarations of [entry] and [bucketHandle]
    are not in src/.  A slot is [{hash, keySize, valueSize, expiresAt,
    kvOffset}], empty when [kvOffset == 0]; a bucket handle has
    [entriesPerBucket] slots, a [next] offset (0 = no overflow) and its own
    [offset]. *)

Module Bucket.

Record entry : Type := mkEntry {
  hash : Z;        (* uint32 *)
  keySize : Z;     (* uint16 *)
  valueSize : Z;   (* uint32 *)
  expiresAt : Z;   (* uint32 *)
  kvOffset : Z     (* int64 *)
}.

Definition zero : entry := mkEntry 0 0 0 0 0.

#[global] Instance entry_inhabited : Inhabited entry := populate zero.

#[global] Instance entry_eq_dec : EqDecision entry.
Proof. solve_decision. Defined.

(** Modelled from the spec: [sl.kvSize()], the size of the payload handed to
    [data.free]; the same [uint32] sum as [batchIndex.kvSize]. *)
Definition kvSize (sl : entry) : Z := wrap32 (keySize sl + valueSize sl).

Record bucketHandle : Type := mkBucket {
  entries : list entry;   (* [entriesPerBucket]entry, read with [!!!] *)
  next : Z;
  offset : Z
}.

(** [bucketHandle{}] *)
Definition empty : bucketHandle := mkBucket [] 0 0.

#[global] Instance bucketHandle_eq_dec : EqDecision bucketHandle.
Proof. solve_decision. Defined.

(** [bh.entries[i]] of the fixed-size array: slots the list does not hold
    read as the zero slot. *)
Definition get (bh : bucketHandle) (i : nat) : entry := entries bh !!! i.

(** [bh.entries[i] = sl] *)
Definition set (bh : bucketHandle) (i : nat) (sl : entry) : bucketHandle :=
  mkBucket (<[i := sl]> (entries bh ++ replicate (S i - length (entries bh)) zero))
           (next bh) (offset bh).

Definition set_next (bh : bucketHandle) (n : Z) : bucketHandle :=
  mkBucket (entries bh) n (offset bh).

End Bucket.

(** Modelled from the spec: [forEachBucket(idx, fn)] is not in src/.  It
    "iterates the chain" of bucket [idx]: [fn] is called on each handle of
    the chain in turn until it returns [stop] or an error, which is handed
    back; a handle that cannot be read ends the walk with the read error.
    [chain] is the list of reads the walk would make. *)
Fixpoint forEachBucket {S : Type} (chain : list (error + Bucket.bucketHandle))
    (cb : Bucket.bucketHandle -> S -> outcome (bool * option error * S))
    (s : S) : outcome (option error * S) :=
  match chain with
  | [] => Returns (None, s)
  | inl e :: _ => Returns (Some e, s)
  | inr bh :: rest =>
      '(stop, err, s') ← cb bh s;
      if stop || is_err err then Returns (err, s')
      else forEachBucket rest cb s'
  end.

(** ** Collaborators

    The package constants and the memdb and DB operations that batch.go
    calls but does not define.  Their code is outside src/; every property
    below holds for whatever they are. *)

Class Consts : Type := {
  entriesPerBucket : nat;
  MaxKeyLength : Z;
  MaxValueLength : Z;
  MaxKeys : Z
}.

(** The memdb behind [b.mem]: [memtable] is its bucket table and data
    region; its [seq] counter is kept apart (see [memdb]). *)
Class MemOps : Type := {
  memtable : Type;
  (** [mem.hash(key)] *)
  mem_hash : memtable -> list byte -> Z;
  (** [mem.put(h, k, value, expiresAt)] *)
  mem_put : Z -> list byte -> list byte -> Z -> memtable ->
            option error * memtable;
  (** [float64(mem.count)/float64(mem.nBuckets*entriesPerBucket) > loadFactor] *)
  mem_overloaded : memtable -> bool;
  (** [mem.split()] *)
  mem_split : memtable -> option error * memtable;
  (** [mem.bucketIndex(hash)] and [mem.nBuckets] *)
  mem_bucketIndex : memtable -> Z -> Z;
  mem_nBuckets : memtable -> Z;
  (** the handles [mem.forEachBucket(idx, _)] reads, in order *)
  mem_chain : memtable -> Z -> list (error + Bucket.bucketHandle);
  (** [mem.data.readKeyValue(slot)] *)
  mem_readKeyValue : memtable -> Bucket.entry ->
                     list byte * list byte * option error
}.

(** The persistent side behind [b.db]: [dbstore] is the bucket index file,
    the data file with its free list, and the filter. *)
Class DBOps : Type := {
  dbstore : Type;
  (** [db.hash(key)] and [db.bucketIndex(hash)] *)
  db_hash : dbstore -> list byte -> Z;
  db_bucketIndex : dbstore -> Z -> Z;
  (** the handles [db.forEachBucket(idx, _)] reads, in order *)
  db_chain : dbstore -> Z -> list (error + Bucket.bucketHandle);
  (** [db.data.readKey(slot)] *)
  db_readKey : dbstore -> Bucket.entry -> list byte * option error;
  (** [bh.del(i)] and [bh.write()] *)
  bh_del : Bucket.bucketHandle -> nat -> Bucket.bucketHandle;
  bh_write : Bucket.bucketHandle -> dbstore -> option error * dbstore;
  (** [db.data.free(size, offset)] and [db.data.writeKeyValue(key, value)] *)
  data_free : Z -> Z -> dbstore -> dbstore;
  data_writeKeyValue : list byte -> list byte -> dbstore ->
                       Z * option error * dbstore;
  (** [db.createOverflowBucket()]; a nil handle is [None] *)
  createOverflowBucket : dbstore ->
                         option Bucket.bucketHandle * option error * dbstore;
  (** [db.filter.Test(h)] and [db.filter.Append(h)] *)
  filter_Test : dbstore -> Z -> bool;
  filter_Append : Z -> dbstore -> dbstore;
  (** [db.sync()] *)
  db_sync : dbstore -> option error * dbstore
}.

(** ** The memdb and DB state that batch.go reads and writes *)

Module Mem.

(** One call [mem.put(h, k, value, expiresAt)] that returned nil. *)
Record stagedPut : Type := mkStaged {
  s_hash : Z;
  s_ikey : list byte;
  s_value : list byte;
  s_expiresAt : Z
}.

(** [memdb]: the [seq] counter (uint64), the reference count, the table
    that [put] and [split] work on, and [staged], the record of the puts
    the memdb accepted, oldest first.  [staged] is the model's account of
    what has been staged; no code reads it. *)
Record memdb `{MemOps} : Type := mkMem {
  seq : Z;
  ref : Z;
  tbl : memtable;
  staged : list stagedPut
}.

(** The sequence number packed in a staged internal key. *)
Definition staged_seq (p : stagedPut) : Z :=
  let '(_, sq, _, _, _) := Codec.parseInternalKey (s_ikey p) in sq.

End Mem.

Module Db.

(** The fields of [DB] that batch.go touches.  [writeLockC] is the number
    of tokens in the channel.  Modelled from the spec: the channel is made
    outside src/; the spec calls it "a 1-slot gate", so a send blocks when
    one token is in it and a receive blocks when none is. *)
Record DB `{DBOps} : Type := mkDB {
  writeLockC : nat;
  mu : bool;            (* [db.mu] is held *)
  count : Z;
  syncWrites : bool;
  Dels : Z;             (* [db.metrics.Dels] *)
  Puts : Z;             (* [db.metrics.Puts] *)
  store : dbstore
}.

Definition writeLockC_cap : nat := 1.

(** [db.writeLockC <- struct{}{}] *)
Definition send_writeLockC `{DBOps} (db : DB) : outcome DB :=
  if (writeLockC db <? writeLockC_cap)%nat
  then Returns (mkDB _ (S (writeLockC db)) (mu db) (count db) (syncWrites db)
                     (Dels db) (Puts db) (store db))
  else Blocks.

(** [<-db.writeLockC] *)
Definition recv_writeLockC `{DBOps} (db : DB) : outcome DB :=
  match writeLockC db with
  | O => Blocks
  | S n => Returns (mkDB _ n (mu db) (count db) (syncWrites db)
                         (Dels db) (Puts db) (store db))
  end.

Definition set_count `{DBOps} (c : Z) (db : DB) : DB :=
  mkDB _ (writeLockC db) (mu db) c (syncWrites db) (Dels db) (Puts db) (store db).

Definition set_store `{DBOps} (st : dbstore) (db : DB) : DB :=
  mkDB _ (writeLockC db) (mu db) (count db) (syncWrites db) (Dels db) (Puts db) st.

(** [db.metrics.Dels.Add(d)] and [db.metrics.Puts.Add(p)].  Modelled from
    the spec: the counters are "additive counters". *)
Definition add_metrics `{DBOps} (d p : Z) (db : DB) : DB :=
  mkDB _ (writeLockC db) (mu db) (count db) (syncWrites db)
       (Dels db + d) (Puts db + p) (store db).

End Db.

(** ** The batch *)

Module Batch.
Import Index.

Section WithCollaborators.
Context `{Consts} `{MemOps} `{DBOps}.

(** [Batch].  [b.db] is passed alongside the batch.  [b.mem] points to the
    memdb shared with the DB; the batch carries the memdb it points to
    ([None] is nil).  [dataCap] is [cap(b.data)]. *)
Record Batch : Type := mkBatch {
  managed : bool;
  batchSeq : Z;                 (* uint64 *)
  data : list byte;
  dataCap : nat;
  index : list batchIndex;
  firstKeyHash : Z;             (* uint32 *)
  mem : option Mem.memdb;
  internalLen : Z               (* uint32 *)
}.

Definition set_batchSeq (v : Z) (b : Batch) : Batch :=
  mkBatch (managed b) v (data b) (dataCap b) (index b) (firstKeyHash b)
          (mem b) (internalLen b).
Definition set_firstKeyHash (v : Z) (b : Batch) : Batch :=
  mkBatch (managed b) (batchSeq b) (data b) (dataCap b) (index b) v
          (mem b) (internalLen b).
Definition set_mem (v : option Mem.memdb) (b : Batch) : Batch :=
  mkBatch (managed b) (batchSeq b) (data b) (dataCap b) (index b)
          (firstKeyHash b) v (internalLen b).

(** A dereference of a pointer: nil panics. *)
Definition deref {A} (p : option A) : outcome A :=
  match p with Some a => Returns a | None => Panics end.

Definition batchGrowRec : nat := 3000.

(** [b.grow(n)]: only the capacity changes. *)
Definition grow (n : nat) (b : Batch) : Batch :=
  let o := length (data b) in
  if (dataCap b - o <? n)%nat then
    let div :=
      if (batchGrowRec <? length (index b))%nat
      then (length (index b) / batchGrowRec)%nat else 1%nat in
    mkBatch (managed b) (batchSeq b) (data b) (o + n + o / div)%nat (index b)
            (firstKeyHash b) (mem b) (internalLen b)
  else b.

(** [b.appendRec(dFlag, expiresAt, key, value)] *)
Definition appendRec (dFlag : bool) (expiresAt : Z) (key value : list byte)
    (b : Batch) : outcome Batch :=
  let n := (1 + length key)%nat in
  let n := if negb dFlag then (n + length value)%nat else n in
  let b := grow n b in
  m ← deref (mem b);
  let h := mem_hash (Mem.tbl m) key in
  let keySize := wrap16 (Z.of_nat (length key)) in
  let o := length (data b) in
  (* [data := b.data[:o+n]]: the [n] bytes past [o] are all written below *)
  let buf := data b ++ replicate n Byte.x00 in
  let buf := <[o := if dFlag then Byte.x01 else Byte.x00]> buf in
  let o := S o in
  let kvOffset := o in
  let buf' := with_slice o (length buf) (fun d => copy d key) buf in
  let o := (o + Nat.min (length buf - o) (length key))%nat in
  let '(valueSize, buf'', o) :=
    if negb dFlag then
      (wrap32 (Z.of_nat (length value)),
       with_slice o (length buf') (fun d => copy d value) buf',
       (o + Nat.min (length buf' - o) (length value))%nat)
    else (0, buf', o) in
  let rec := mkIndex dFlag h keySize valueSize expiresAt kvOffset in
  Returns (mkBatch (managed b) (batchSeq b) (take o buf'') (dataCap b)
             (index b ++ [rec]) (firstKeyHash b) (mem b)
             (wrap32 (internalLen b + wrap32 (wrap32 (keySize + valueSize) + 8)))).

(** [b.Put(key, value)] is [b.PutWithTTL(key, value, 0)].  [deadline] stands
    for [time.Now().Add(ttl).Unix()], read from the clock when [ttl != 0]. *)
Definition PutWithTTL (key value : list byte) (ttl deadline : Z) (b : Batch)
    : outcome Batch :=
  let expiresAt := if negb (ttl =? 0) then wrap32 deadline else 0 in
  appendRec false expiresAt key value b.

Definition Put (key value : list byte) (b : Batch) : outcome Batch :=
  PutWithTTL key value 0 0 b.

(** [b.Delete(key)] *)
Definition Delete (key : list byte) (b : Batch) : outcome Batch :=
  appendRec true 0 key [] b.

(** [b.Len()] *)
Definition Len (b : Batch) : nat := length (index b).

(** [b.Reset()] *)
Definition Reset (b : Batch) : Batch :=
  mkBatch (managed b) (batchSeq b) [] (dataCap b) [] (firstKeyHash b)
          (mem b) 0.

(** [b.uniq()], first loop: [idx] runs from [len(b.index) - 1] down to 0;
    the state is [(unique_set, index_set, i)]. *)
Definition uniq_step (e : batchIndex)
    (st : gmap Z Z * gmap Z batchIndex * Z) : gmap Z Z * gmap Z batchIndex * Z :=
  let '(unique_set, index_set, i) := st in
  match unique_set !! hash e with
  | Some _ => st
  | None => (<[hash e := i]> unique_set, <[hash e := e]> index_set, i + 1)
  end.

Fixpoint uniq_scan (index : list batchIndex) (n : nat)
    (st : gmap Z Z * gmap Z batchIndex * Z) : gmap Z Z * gmap Z batchIndex * Z :=
  match n with
  | O => st
  | S idx => uniq_scan index idx (uniq_step (index !!! idx) st)
  end.

(** [pendingWrites[len(unique_set)-i-1] = index_set[x]]; an index out of
    range panics. *)
Definition uniq_place (n : nat) (index_set : gmap Z batchIndex) (x i : Z)
    (acc : outcome (list batchIndex)) : outcome (list batchIndex) :=
  pendingWrites ← acc;
  let pos := Z.of_nat n - i - 1 in
  if (0 <=? pos) && (pos <? Z.of_nat (length pendingWrites))
  then Returns (<[Z.to_nat pos := index_set !!! x]> pendingWrites)
  else Panics.

(** [b.uniq()]; the second loop ranges over the map [unique_set]. *)
Definition uniq (b : Batch) : outcome (list batchIndex) :=
  let '(unique_set, index_set, _) :=
    uniq_scan (index b) (length (index b)) (∅, ∅, 0) in
  let n := size unique_set in
  map_fold (uniq_place n index_set) (Returns (replicate n zero)) unique_set.

(** [b.mput(dFlag, h, expiresAt, key, value)].  A put that [mem.put]
    accepted is entered in [staged]. *)
Definition mput (dFlag : bool) (h expiresAt : Z) (key value : list byte)
    (b : Batch) : outcome (option error * Batch) :=
  if (length key =? 0)%nat then Returns (Some errKeyEmpty, b)
  else if MaxKeyLength <? Z.of_nat (length key)
  then Returns (Some errKeyTooLarge, b)
  else if MaxValueLength <? Z.of_nat (length value)
  then Returns (Some errValueTooLarge, b)
  else
    m ← deref (mem b);
    k ← deref (Codec.makeInternalKey [] key (wrap64 (Mem.seq m + 1)) dFlag
                 expiresAt);
    let '(err, t) := mem_put h k value expiresAt (Mem.tbl m) in
    if is_err err
    then Returns (err, set_mem (Some (Mem.mkMem _ (Mem.seq m) (Mem.ref m) t
                                        (Mem.staged m))) b)
    else
      let staged := Mem.staged m ++ [Mem.mkStaged h k value expiresAt] in
      let '(err, t) :=
        if mem_overloaded t then mem_split t else (None, t) in
      if is_err err
      then Returns (err, set_mem (Some (Mem.mkMem _ (Mem.seq m) (Mem.ref m) t
                                          staged)) b)
      else
        let b := if firstKeyHash b =? 0 then set_firstKeyHash h b else b in
        Returns (None,
                 set_mem (Some (Mem.mkMem _ (wrap64 (Mem.seq m + 1)) (Mem.ref m)
                                  t staged)) b).

(** The loop of [b.writeInternal(fn)] over [pendingWrites], from entry [i]. *)
Fixpoint writeLoop
    (fn : nat -> bool -> Z -> Z -> list byte -> list byte -> Batch ->
          outcome (option error * Batch))
    (i : nat) (pendingWrites : list batchIndex) (b : Batch)
    : outcome (option error * Batch) :=
  match pendingWrites with
  | [] => Returns (None, b)
  | index :: rest =>
      '(key, val) ← deref (kv index (data b));
      '(err, b') ← fn i (delFlag index) (hash index) (expiresAt index) key val b;
      if is_err err then Returns (err, b')
      else writeLoop fn (S i) rest b'
  end.

(** [b.writeInternal(fn)] *)
Definition writeInternal
    (fn : nat -> bool -> Z -> Z -> list byte -> list byte -> Batch ->
          outcome (option error * Batch))
    (b : Batch) : outcome (option error * Batch) :=
  pendingWrites ← uniq b;
  writeLoop fn 0 pendingWrites b.

(** The function literal that [Write] hands to [writeInternal]. *)
Definition stage (i : nat) (dFlag : bool) (h expiresAt : Z) (k v : list byte)
    (b : Batch) : outcome (option error * Batch) :=
  mput dFlag h expiresAt k v b.

(** [b.Write()] *)
Definition Write (b : Batch) (db : Db.DB)
    : outcome (option error * Batch * Db.DB) :=
  db ← Db.send_writeLockC db;
  m ← deref (mem b);
  let b := set_batchSeq (Mem.seq m) b in
  '(err, b) ← writeInternal stage b;
  Returns (err, b, db).

(** [_assert(condition, msg)] *)
Definition _assert (condition : bool) : outcome unit :=
  if condition then Returns tt else Panics.

(** Modelled from the spec: [decref] is not in src/; "Abort drops" the
    reference count that "init bumps". *)
Definition decref (m : Mem.memdb) : Mem.memdb :=
  Mem.mkMem _ (Mem.seq m) (Mem.ref m - 1) (Mem.tbl m) (Mem.staged m).

(** [b.Abort()].  The memdb that [b.mem] pointed to lives on behind
    [db.mem]; it is handed back next to the batch. *)
Definition Abort (b : Batch) (db : Db.DB)
    : outcome (Batch * Mem.memdb * Db.DB) :=
  _ ← _assert (negb (managed b));
  let b := Reset b in
  m ← deref (mem b);
  let m := decref m in
  let b := set_mem None b in
  db ← Db.recv_writeLockC db;
  Returns (b, m, db).

(** *** The commit walk *)

(** The variables of [commit] that its closures share, with the DB they
    work on. *)
Record walk : Type := mkWalk {
  delCount : Z;                            (* int64 *)
  putCount : Z;                            (* int64 *)
  bh : option Bucket.bucketHandle;         (* *bucketHandle *)
  originalB : option Bucket.bucketHandle;  (* *bucketHandle *)
  entryIdx : nat;
  wdb : Db.DB
}.

Definition wstore (w : walk) : dbstore := Db.store (wdb w).

Definition set_wstore (st : dbstore) (w : walk) : walk :=
  mkWalk (delCount w) (putCount w) (bh w) (originalB w) (entryIdx w)
         (Db.set_store st (wdb w)).
Definition set_wcount (c : Z) (w : walk) : walk :=
  mkWalk (delCount w) (putCount w) (bh w) (originalB w) (entryIdx w)
         (Db.set_count c (wdb w)).
Definition set_delCount (c : Z) (w : walk) : walk :=
  mkWalk c (putCount w) (bh w) (originalB w) (entryIdx w) (wdb w).
Definition set_putCount (c : Z) (w : walk) : walk :=
  mkWalk (delCount w) c (bh w) (originalB w) (entryIdx w) (wdb w).
Definition set_bh (v : option Bucket.bucketHandle) (w : walk) : walk :=
  mkWalk (delCount w) (putCount w) v (originalB w) (entryIdx w) (wdb w).
Definition set_originalB (v : option Bucket.bucketHandle) (w : walk) : walk :=
  mkWalk (delCount w) (putCount w) (bh w) v (entryIdx w) (wdb w).
Definition set_entryIdx (v : nat) (w : walk) : walk :=
  mkWalk (delCount w) (putCount w) (bh w) (originalB w) v (wdb w).

(** How one turn of a [for] loop inside a callback ends: with the next
    turn, or with a [return stop, err]. *)
Inductive flow (S : Type) : Type :=
| Next (s : S)
| Ret (stop : bool) (err : option error) (s : S).
Arguments Next {S} s.
Arguments Ret {S} stop err s.

(** Delete path, the slots of one handle of the persistent chain, from slot
    [i] on ([n] turns are left); the result is what the callback returns
    and the new [delentryIdx]. *)
Fixpoint del_scan_slots (st : dbstore) (hash : Z) (key : list byte)
    (bh : Bucket.bucketHandle) (i n : nat) (delentryIdx : Z)
    : bool * option error * Z :=
  match n with
  | O => (false, None, delentryIdx)
  | S n' =>
      let sl := Bucket.get bh i in
      if Bucket.kvOffset sl =? 0 then (Bucket.next bh =? 0, None, delentryIdx)
      else if (hash =? Bucket.hash sl) &&
              (wrap16 (Z.of_nat (length key)) =? Bucket.keySize sl) then
        let '(slKey, err) := db_readKey st sl in
        if is_err err then (true, err, delentryIdx)
        else if bytes_Equal key slKey then (true, None, Z.of_nat i)
        else del_scan_slots st hash key bh (S i) n' delentryIdx
      else del_scan_slots st hash key bh (S i) n' delentryIdx
  end.

(** The callback of the delete path; its state is the local [bh] and
    [delentryIdx]. *)
Definition del_scan_cb (st : dbstore) (hash : Z) (key : list byte)
    (curb : Bucket.bucketHandle) (s : Bucket.bucketHandle * Z)
    : outcome (bool * option error * (Bucket.bucketHandle * Z)) :=
  let '(stop, err, delentryIdx) :=
    del_scan_slots st hash key curb 0 entriesPerBucket (snd s) in
  Returns (stop, err, (curb, delentryIdx)).

(** The delete path of the walk, for one staged delete. *)
Definition commit_delete (hash : Z) (key : list byte) (w : walk)
    : outcome (flow walk) :=
  if negb (filter_Test (wstore w) hash) then Returns (Ret false None w)
  else
    let w := set_delCount (wrap_int64 (delCount w + 1)) w in
    '(err, (bh, delentryIdx)) ←
      forEachBucket (db_chain (wstore w) (db_bucketIndex (wstore w) hash))
        (del_scan_cb (wstore w) hash key) (Bucket.empty, -1);
    if (delentryIdx =? -1) || is_err err then Returns (Ret false err w)
    else
      let sl := Bucket.get bh (Z.to_nat delentryIdx) in
      let bh := bh_del bh (Z.to_nat delentryIdx) in
      let '(err, st) := bh_write bh (wstore w) in
      let w := set_wstore st w in
      if is_err err then Returns (Ret false err w)
      else
        let w := set_wstore (data_free (Bucket.kvSize sl) (Bucket.kvOffset sl)
                               (wstore w)) w in
        Returns (Next (set_wcount (Db.count (wdb w) - 1) w)).

(** Put path, the slots of one handle of the persistent chain: [Some] is a
    [return] from inside the loop, [None] is the loop running out; the
    second component is the new [entryIdx]. *)
Fixpoint put_scan_slots (st : dbstore) (hash : Z) (key : list byte)
    (bh : Bucket.bucketHandle) (i n : nat) (entryIdx : nat)
    : option (bool * option error) * nat :=
  match n with
  | O => (None, entryIdx)
  | S n' =>
      let sl := Bucket.get bh i in
      let entryIdx := i in
      if Bucket.kvOffset sl =? 0 then (Some (true, None), entryIdx)
      else if (hash =? Bucket.hash sl) &&
              (wrap16 (Z.of_nat (length key)) =? Bucket.keySize sl) then
        let '(slKey, err) := db_readKey st sl in
        if bytes_Equal key slKey || is_err err then (Some (true, err), entryIdx)
        else put_scan_slots st hash key bh (S i) n' entryIdx
      else put_scan_slots st hash key bh (S i) n' entryIdx
  end.

(** The callback of the put path: [bh = &curb], the scan, and the overflow
    bucket when the chain ends without a free or matching slot. *)
Definition put_scan_cb (hash : Z) (key : list byte)
    (curb : Bucket.bucketHandle) (w : walk)
    : outcome (bool * option error * walk) :=
  let w := set_bh (Some curb) w in
  let '(r, entryIdx) :=
    put_scan_slots (wstore w) hash key curb 0 entriesPerBucket (entryIdx w) in
  let w := set_entryIdx entryIdx w in
  match r with
  | Some (stop, err) => Returns (stop, err, w)
  | None =>
      if Bucket.next curb =? 0 then
        let '(nextBucket, err, st) := createOverflowBucket (wstore w) in
        let w := set_wstore st w in
        if is_err err then Returns (false, err, w)
        else
          nextBucket ← deref nextBucket;
          let curb := Bucket.set_next curb (Bucket.offset nextBucket) in
          let w := set_originalB (Some curb) w in
          let w := set_bh (Some nextBucket) w in
          let w := set_entryIdx 0 w in
          Returns (true, None, w)
      else Returns (false, None, w)
  end.

(** The put path of the walk, for one staged put.  [deferred] holds the
    arguments of the [defer db.data.free(...)] calls made so far in this
    run of the memdb callback, latest first. *)
Definition commit_put (hash : Z) (key value : list byte) (expiresAt : Z)
    (s : walk * list (Z * Z)) : outcome (flow (walk * list (Z * Z))) :=
  let '(w, deferred) := s in
  let w := set_putCount (wrap_int64 (putCount w + 1)) w in
  '(err, w) ←
    forEachBucket (db_chain (wstore w) (db_bucketIndex (wstore w) hash))
      (put_scan_cb hash key) w;
  if is_err err then Returns (Ret false err (w, deferred))
  else
    b ← deref (bh w);
    let old := Bucket.get b (entryIdx w) in
    let fresh := Bucket.kvOffset old =? 0 in
    if fresh && (Db.count (wdb w) =? MaxKeys)
    then Returns (Ret false (Some errFull) (w, deferred))
    else
      let w := if fresh then set_wcount (Db.count (wdb w) + 1) w else w in
      let deferred :=
        if fresh then deferred
        else (Bucket.kvSize old, Bucket.kvOffset old) :: deferred in
      let sl := Bucket.mkEntry hash (wrap16 (Z.of_nat (length key)))
                  (wrap32 (Z.of_nat (length value))) expiresAt 0 in
      let '(off, err, st) := data_writeKeyValue key value (wstore w) in
      let sl := Bucket.mkEntry (Bucket.hash sl) (Bucket.keySize sl)
                  (Bucket.valueSize sl) (Bucket.expiresAt sl) off in
      let b := Bucket.set b (entryIdx w) sl in
      let w := set_wstore st (set_bh (Some b) w) in
      if is_err err then Returns (Ret false err (w, deferred))
      else
        let '(err, st) := bh_write b (wstore w) in
        let w := set_wstore st w in
        if is_err err then Returns (Ret false err (w, deferred))
        else
          let '(err, st) :=
            match originalB w with
            | Some ob => bh_write ob (wstore w)
            | None => (None, wstore w)
            end in
          let w := set_wstore st w in
          if is_err err then Returns (Ret false err (w, deferred))
          else
            Returns (Next (set_wstore (filter_Append hash (wstore w)) w,
                           deferred)).

(** One turn of the loop over the slots of a memdb handle: slot [i] of
    [memb]. *)
Definition commit_slot (b : Batch) (m : Mem.memdb) (memb : Bucket.bucketHandle)
    (i : nat) (s : walk * list (Z * Z)) : outcome (flow (walk * list (Z * Z))) :=
  let memsl := Bucket.get memb i in
  if Bucket.kvOffset memsl =? 0
  then Returns (Ret (Bucket.next memb =? 0) None s)
  else
    let '(memslKey, value, err) := mem_readKeyValue (Mem.tbl m) memsl in
    if bool_decide (err = Some errKeyExpired) then Returns (Next s)
    else if is_err err then Returns (Ret true err s)
    else
      let '(key, seq, dFlag, expiresAt, err) :=
        Codec.parseInternalKey memslKey in
      if is_err err then Returns (Ret true err s)
      else if seq <=? batchSeq b then Returns (Next s)
      else if wrap64 (batchSeq b + Z.of_nat (Len b)) <? seq
      then Returns (Ret true (Some errBatchSeqComplete) s)
      else
        let hash := db_hash (wstore (fst s)) key in
        if dFlag then
          r ← commit_delete hash key (fst s);
          match r with
          | Next w => Returns (Next (w, snd s))
          | Ret stop err w => Returns (Ret stop err (w, snd s))
          end
        else commit_put hash key value expiresAt s.

(** The loop over the slots of [memb], from slot [i] ([n] turns left). *)
Fixpoint commit_slots (b : Batch) (m : Mem.memdb) (memb : Bucket.bucketHandle)
    (i n : nat) (s : walk * list (Z * Z))
    : outcome (bool * option error * (walk * list (Z * Z))) :=
  match n with
  | O => Returns (false, None, s)
  | S n' =>
      r ← commit_slot b m memb i s;
      match r with
      | Next s' => commit_slots b m memb (S i) n' s'
      | Ret stop err s' => Returns (stop, err, s')
      end
  end.

(** The deferred [data.free] calls run when the callback returns, latest
    first. *)
Definition run_deferred (deferred : list (Z * Z)) (w : walk) : walk :=
  foldl (fun w a => set_wstore (data_free (fst a) (snd a) (wstore w)) w)
        w deferred.

(** The callback [commit] hands to [mem.forEachBucket]. *)
Definition commit_cb (b : Batch) (m : Mem.memdb) (memb : Bucket.bucketHandle)
    (w : walk) : outcome (bool * option error * walk) :=
  '(stop, err, s) ← commit_slots b m memb 0 entriesPerBucket (w, []);
  Returns (stop, err, run_deferred (snd s) (fst s)).

(** The loop [for bucketIdx < b.mem.nBuckets] with [n] buckets left.  The
    error of the result is the one [commit] returns at once; a [break] on
    [errBatchSeqComplete] and the end of the loop both give nil. *)
Fixpoint commit_buckets (b : Batch) (m : Mem.memdb) (n : nat) (bucketIdx : Z)
    (w : walk) : outcome (option error * walk) :=
  match n with
  | O => Returns (None, w)
  | S n' =>
      '(err, w) ← forEachBucket (mem_chain (Mem.tbl m) bucketIdx)
                    (commit_cb b m) w;
      if bool_decide (err = Some errBatchSeqComplete) then Returns (None, w)
      else if is_err err then Returns (err, w)
      else commit_buckets b m n' (bucketIdx + 1) w
  end.

(** [b.commit()].  [db.mu] is taken on entry and released on return. *)
Definition commit (b : Batch) (db : Db.DB) : outcome (option error * Db.DB) :=
  if Db.mu db then Blocks
  else
    m ← deref (mem b);
    let bucketIdx := mem_bucketIndex (Mem.tbl m) (firstKeyHash b) in
    '(err, w) ← commit_buckets b m
                  (Z.to_nat (mem_nBuckets (Mem.tbl m) - bucketIdx)) bucketIdx
                  (mkWalk 0 0 None None 0 db);
    if is_err err then Returns (err, wdb w)
    else
      let db := Db.add_metrics (delCount w) (putCount w) (wdb w) in
      if Db.syncWrites db then
        let '(err, st) := db_sync (Db.store db) in
        Returns (err, Db.set_store st db)
      else Returns (None, db).

(** Modelled from the spec: [getref] is not in src/; it reads the reference
    count. *)
Definition getref (m : Mem.memdb) : Z := Mem.ref m.

(** [b.Commit()] *)
Definition Commit (b : Batch) (db : Db.DB) : outcome (option error * Db.DB) :=
  _ ← _assert (negb (managed b));
  match mem b with
  | None => Returns (None, db)
  | Some m => if getref m =? 0 then Returns (None, db) else commit b db
  end.

End WithCollaborators.

Arguments Next {S} s.
Arguments Ret {S} stop err s.

(** The state a turn of a loop ends in. *)
Definition flow_state {S : Type} (r : flow S) : S :=
  match r with Next s => s | Ret _ _ s => s end.

End Batch.

(** ** A small instance of the collaborators

    One memdb bucket and one persistent bucket, a data region keyed by
    offset, and a filter that answers "maybe present" for every hash.  It
    is used to run the model on concrete batches. *)

Module Example.

#[global] Instance consts : Consts := {|
  entriesPerBucket := 4;
  MaxKeyLength := 65535;
  MaxValueLength := 2 ^ 30;
  MaxKeys := 2 ^ 32 - 1
|}.

(** Small limits, to run the length checks of [mput] on short inputs. *)
Definition tiny_consts : Consts := {|
  entriesPerBucket := 4;
  MaxKeyLength := 2;
  MaxValueLength := 1;
  MaxKeys := 2 ^ 32 - 1
|}.

(** The hash of a key: its first byte. *)
Definition first_byte (key : list byte) : Z :=
  match key with
  | [] => 0
  | c :: _ => byte.unsigned c
  end.

(** The memdb table: the accepted puts, oldest first; put number [j]
    (from 0) sits in slot [j] of the only bucket, with [kvOffset = j + 1]. *)
Definition table : Type := list Mem.stagedPut.

Definition slot_of (j : nat) (p : Mem.stagedPut) : Bucket.entry :=
  Bucket.mkEntry (Mem.s_hash p) (wrap16 (Z.of_nat (length (Mem.s_ikey p))))
    (wrap32 (Z.of_nat (length (Mem.s_value p)))) (Mem.s_expiresAt p)
    (Z.of_nat j + 1).

#[global] Instance memops : MemOps := {|
  memtable := table;
  mem_hash := fun _ key => first_byte key;
  mem_put := fun h k v e t => (None, t ++ [Mem.mkStaged h k v e]);
  mem_overloaded := fun _ => false;
  mem_split := fun t => (None, t);
  mem_bucketIndex := fun _ _ => 0;
  mem_nBuckets := fun _ => 1;
  mem_chain := fun t idx =>
    if idx =? 0 then [inr (Bucket.mkBucket (imap slot_of t) 0 0)] else [];
  mem_readKeyValue := fun t sl =>
    match t !! Z.to_nat (Bucket.kvOffset sl - 1) with
    | Some p => (Mem.s_ikey p, Mem.s_value p, None)
    | None => ([], [], Some (errOther 0))
    end
|}.

(** The persistent store: the only bucket, the payloads by offset, and the
    next free offset. *)
Record disk : Type := mkDisk {
  bucket : Bucket.bucketHandle;
  payload : list (Z * (list byte * list byte));
  free_at : Z
}.

Definition payload_at (d : disk) (off : Z) : option (list byte * list byte) :=
  p ← list_find (fun p => fst p = off) (payload d); Some (snd (snd p)).

#[global] Instance dbops : DBOps := {|
  dbstore := disk;
  db_hash := fun _ key => first_byte key;
  db_bucketIndex := fun _ _ => 0;
  db_chain := fun d _ => [inr (bucket d)];
  db_readKey := fun d sl =>
    match payload_at d (Bucket.kvOffset sl) with
    | Some kv => (fst kv, None)
    | None => ([], Some (errOther 1))
    end;
  bh_del := fun bh i =>
    Bucket.mkBucket (delete i (Bucket.entries bh) ++ [Bucket.zero])
      (Bucket.next bh) (Bucket.offset bh);
  bh_write := fun bh d => (None, mkDisk bh (payload d) (free_at d));
  data_free := fun _ off d =>
    mkDisk (bucket d) (filter (fun p => fst p <> off) (payload d)) (free_at d);
  data_writeKeyValue := fun k v d =>
    (free_at d, None,
     mkDisk (bucket d) (payload d ++ [(free_at d, (k, v))])
       (free_at d + Z.of_nat (length k) + Z.of_nat (length v)));
  createOverflowBucket := fun d => (None, Some (errOther 2), d);
  filter_Test := fun _ _ => true;
  filter_Append := fun _ d => d;
  db_sync := fun d => (None, d)
|}.

Definition empty_disk : disk := mkDisk Bucket.empty [] 1.

(** A fresh DB: gate open, no keys. *)
Definition db0 : Db.DB := Db.mkDB _ 0 false 0 false 0 0 empty_disk.

(** A fresh memdb with one reference, and a fresh batch bound to it. *)
Definition mem0 : Mem.memdb := Mem.mkMem _ 0 1 [] [].
Definition batch0 : Batch.Batch := Batch.mkBatch false 0 [] 0 [] 0 (Some mem0) 0.

(** Running a list of appends. *)
Definition appends (ops : list (Batch.Batch -> outcome Batch.Batch))
    (b : Batch.Batch) : outcome Batch.Batch :=
  foldl (fun acc op => b ← acc; op b) (Returns b) ops.

Definition key_a : list byte := [Byte.x61].
Definition key_b : list byte := [Byte.x62].
Definition val_1 : list byte := [Byte.x31].
Definition val_2 : list byte := [Byte.x32].
Definition key_empty : list byte := [].
Definition long_key : list byte := [Byte.x61; Byte.x62; Byte.x63].
Definition long_val : list byte := [Byte.x31; Byte.x32].

Definition returned (b : Batch.Batch) (o : outcome Batch.Batch) : Batch.Batch :=
  match o with Returns b' => b' | _ => b end.

(** Put("a","1"); Put("b","2") on the fresh batch. *)
Definition batch_ab : Batch.Batch :=
  Eval vm_compute in
    returned batch0 (appends [Batch.Put key_a val_1; Batch.Put key_b val_2] batch0).


(** Put("a","1") on the fresh batch. *)
Definition batch_a : Batch.Batch :=
  Eval vm_compute in returned batch0 (Batch.Put key_a val_1 batch0).

(** The batch and the DB that a call of [Write] hands back. *)
Definition written (b : Batch.Batch) (db : Db.DB) : Batch.Batch * Db.DB :=
  match Batch.Write b db with
  | Returns (_, b', db') => (b', db')
  | _ => (b, db)
  end.

Definition written_ab : Batch.Batch * Db.DB :=
  Eval vm_compute in written batch_ab db0.

(** Put("a","1"); Delete("a") on the fresh batch, then [Write]. *)
Definition batch_del : Batch.Batch :=
  Eval vm_compute in
    returned batch0 (appends [Batch.Put key_a val_1; Batch.Delete key_a] batch0).
Definition written_del : Batch.Batch * Db.DB :=
  Eval vm_compute in written batch_del db0.

(** The DB that a call of [Commit] hands back. *)
Definition committed (b : Batch.Batch) (db : Db.DB) : Db.DB :=
  match Batch.Commit b db with
  | Returns (_, db') => db'
  | _ => db
  end.

Definition committed_del : Db.DB :=
  Eval vm_compute in committed (fst written_del) (snd written_del).
Definition committed_ab : Db.DB :=
  Eval vm_compute in committed (fst written_ab) (snd written_ab).

(** The memdb of a batch (the fresh one when the batch has none). *)
Definition mem_of (b : Batch.Batch) : Mem.memdb :=
  match Batch.mem b with Some m => m | None => mem0 end.

(** The only handle of the only memdb bucket. *)
Definition handle_of (m : Mem.memdb) : Bucket.bucketHandle :=
  Bucket.mkBucket (imap slot_of (Mem.tbl m)) 0 0.

Definition mem_del : Mem.memdb := Eval vm_compute in mem_of (fst written_del).
Definition handle_del : Bucket.bucketHandle :=
  Eval vm_compute in handle_of mem_del.

(** A first batch stages Put("a","1") and is done; a second batch on the
    same memdb stages Put("b","2"), and is then [Reset] before it is
    committed, so that its [Len()] is 0. *)
Definition written_a : Batch.Batch * Db.DB :=
  Eval vm_compute in written batch_a db0.
Definition batch_b_after_a : Batch.Batch :=
  Eval vm_compute in
    returned batch0
      (Batch.Put key_b val_2
         (Batch.mkBatch false 0 [] 0 [] 0 (Some (mem_of (fst written_a))) 0)).
Definition written_b_after_a : Batch.Batch * Db.DB :=
  Eval vm_compute in written batch_b_after_a db0.
Definition batch_b_reset : Batch.Batch :=
  Eval vm_compute in Batch.Reset (fst written_b_after_a).
Definition mem_b_reset : Mem.memdb := Eval vm_compute in mem_of batch_b_reset.
Definition handle_b_reset : Bucket.bucketHandle :=
  Eval vm_compute in handle_of mem_b_reset.

(** The variables of [commit] when the walk over [written_del] starts. *)
Definition walk0_del : Batch.walk :=
  Batch.mkWalk 0 0 None None 0 (snd written_del).

(** The batch after [mput] has staged key "a" with hash 97. *)
Definition staged_a : Batch.Batch :=
  Eval vm_compute in
    match Batch.mput false 97 0 key_a val_1 batch0 with
    | Returns (_, b) => b
    | _ => batch0
    end.

(** A memdb whose sequence number has reached [keyMaxSeq], and a batch
    bound to it. *)
Definition mem_full : Mem.memdb := Mem.mkMem _ Codec.keyMaxSeq 1 [] [].
Definition batch_full : Batch.Batch :=
  Batch.mkBatch false 0 [] 0 [] 0 (Some mem_full) 0.

(** What [Abort] hands back after Put("a","1"); Write. *)
Definition aborted_a : Batch.Batch * Mem.memdb * Db.DB :=
  Eval vm_compute in
    match Batch.Abort (fst written_a) (snd written_a) with
    | Returns r => r
    | _ => (batch0, mem0, db0)
    end.

(** A batch with a first key hash left over from an earlier use, after
    Reset; Put("b","2"). *)
Definition batch_reused : Batch.Batch :=
  Eval vm_compute in
    returned batch0
      (Batch.Put key_b val_2 (Batch.Reset (Batch.set_firstKeyHash 97 batch0))).
Definition written_reused : Batch.Batch * Db.DB :=
  Eval vm_compute in written batch_reused db0.

(** Delete("a"); Put("b","2") on the fresh batch, then [Write] and
    [Commit] on the fresh DB, whose index does not hold "a". *)
Definition batch_del_put : Batch.Batch :=
  Eval vm_compute in
    returned batch0 (appends [Batch.Delete key_a; Batch.Put key_b val_2] batch0).
Definition written_del_put : Batch.Batch * Db.DB :=
  Eval vm_compute in written batch_del_put db0.
Definition mem_del_put : Mem.memdb :=
  Eval vm_compute in mem_of (fst written_del_put).
Definition handle_del_put : Bucket.bucketHandle :=
  Eval vm_compute in handle_of mem_del_put.
Definition walk0_del_put : Batch.walk :=
  Batch.mkWalk 0 0 None None 0 (snd written_del_put).
Definition committed_del_put : Db.DB :=
  Eval vm_compute in committed (fst written_del_put) (snd written_del_put).

(** The DB after Put("a","1"); Write, with its key count at [MaxKeys]. *)
Definition db_full : Db.DB :=
  Eval vm_compute in Db.set_count MaxKeys (snd written_a).
Definition commit_full : option error * Db.DB :=
  Eval vm_compute in
    match Batch.commit (fst written_a) db_full with
    | Returns r => r
    | _ => (None, db_full)
    end.

(** A key of exactly [2^16] bytes. *)
Definition key_64k : list byte := replicate (Z.to_nat 65536) Byte.x00.

End Example.

(** ** A memdb with two buckets *)

Module Example2.

(** The memdb table: the data region (the accepted puts, oldest first; put
    number [j] sits at offset [j + 1]) and the offsets held by bucket 0
    (even hashes) and by bucket 1 (odd hashes). *)
Record table : Type := mkTable {
  t_data : list Mem.stagedPut;
  t_b0 : list Z;
  t_b1 : list Z
}.

Definition slot_at (t : table) (off : Z) : Bucket.entry :=
  match t_data t !! Z.to_nat (off - 1) with
  | Some p =>
      Bucket.mkEntry (Mem.s_hash p) (wrap16 (Z.of_nat (length (Mem.s_ikey p))))
        (wrap32 (Z.of_nat (length (Mem.s_value p)))) (Mem.s_expiresAt p) off
  | None => Bucket.zero
  end.

#[local] Instance memops : MemOps := {|
  memtable := table;
  mem_hash := fun _ key => Example.first_byte key;
  mem_put := fun h k v e t =>
    let off := Z.of_nat (length (t_data t)) + 1 in
    let d := t_data t ++ [Mem.mkStaged h k v e] in
    (None, if Z.even h then mkTable d (t_b0 t ++ [off]) (t_b1 t)
           else mkTable d (t_b0 t) (t_b1 t ++ [off]));
  mem_overloaded := fun _ => false;
  mem_split := fun t => (None, t);
  mem_bucketIndex := fun _ h => h mod 2;
  mem_nBuckets := fun _ => 2;
  mem_chain := fun t idx =>
    if idx =? 0 then [inr (Bucket.mkBucket (slot_at t <$> t_b0 t) 0 0)]
    else if idx =? 1 then [inr (Bucket.mkBucket (slot_at t <$> t_b1 t) 0 0)]
    else [];
  mem_readKeyValue := fun t sl =>
    match t_data t !! Z.to_nat (Bucket.kvOffset sl - 1) with
    | Some p => (Mem.s_ikey p, Mem.s_value p, None)
    | None => ([], [], Some (errOther 0))
    end
|}.

Definition mem0 : Mem.memdb := Mem.mkMem _ 0 1 (mkTable [] [] []) [].
Definition batch0 : Batch.Batch := Batch.mkBatch false 0 [] 0 [] 0 (Some mem0) 0.

(** Put("a","1"); Put("b","2") on the fresh batch: "a" (hash 97) goes to
    bucket 1 and "b" (hash 98) to bucket 0. *)
Definition batch_ab : Batch.Batch :=
  Eval vm_compute in
    match (b ← Batch.Put Example.key_a Example.val_1 batch0;
           Batch.Put Example.key_b Example.val_2 b) with
    | Returns b => b
    | _ => batch0
    end.
Definition written_ab : Batch.Batch * Db.DB :=
  Eval vm_compute in
    match Batch.Write batch_ab Example.db0 with
    | Returns (_, b', db') => (b', db')
    | _ => (batch_ab, Example.db0)
    end.
Definition mem_ab : Mem.memdb :=
  Eval vm_compute in
    match Batch.mem (fst written_ab) with Some m => m | None => mem0 end.

(** The same memdb with bucket 0 emptied. *)
Definition mem_ab_high : Mem.memdb :=
  Eval vm_compute in
    Mem.mkMem _ (Mem.seq mem_ab) (Mem.ref mem_ab)
      (mkTable (t_data (Mem.tbl mem_ab)) [] (t_b1 (Mem.tbl mem_ab)))
      (Mem.staged mem_ab).

Definition commit_ab : option error * Db.DB :=
  Eval vm_compute in
    match Batch.commit (fst written_ab) (snd written_ab) with
    | Returns r => r
    | _ => (None, snd written_ab)
    end.

End Example2.

(** ** What it means for batch entries to be staged *)

Module Staging.
Import Index.

(** The memdb entry [p] is the staged form of the batch entry [x] of a
    batch with buffer [data], under the sequence number [sq]: it carries the
    hash, the value and the expiry of [x], and its internal key decodes to
    the key of [x], [sq], and the delete flag of [x]. *)
Definition stages (data : list byte) (x : batchIndex) (sq : Z)
    (p : Mem.stagedPut) : Prop :=
  exists key val,
    kv x data = Some (key, val) /\
    Mem.s_hash p = hash x /\ Mem.s_value p = val /\
    Mem.s_expiresAt p = expiresAt x /\
    Codec.parseInternalKey (Mem.s_ikey p) =
      (key, sq, delFlag x, wrap32 (expiresAt x), None).

(** The entries [new] are the staged forms of the first [length new]
    entries of [pending], in order, under [first], [first + 1], ... *)
Definition stages_from (data : list byte) (first : Z)
    (pending : list batchIndex) (new : list Mem.stagedPut) : Prop :=
  forall j p, new !! j = Some p ->
    exists x, pending !! j = Some x /\ stages data x (first + Z.of_nat j) p.

End Staging.

(** ** What the commit walk reads in a memdb slot *)

Module Walk.
Import Batch.

Section WithCollaborators.
Context `{MemOps} `{DBOps}.

(** The occupied slot [sl] of the memdb [m] reads back without error as the
    internal key of [key] with sequence number [sq] and delete flag [dFlag],
    and the value [value]. *)
Definition reads (m : Mem.memdb) (sl : Bucket.entry) (key value : list byte)
    (sq : Z) (dFlag : bool) (expiresAt : Z) : Prop :=
  Bucket.kvOffset sl <> 0 /\
  exists ik,
    mem_readKeyValue (Mem.tbl m) sl = (ik, value, None) /\
    Codec.parseInternalKey ik = (key, sq, dFlag, expiresAt, None).

(** A slot staged before this batch's [Write]: [seq <= batchSeq]. *)
Definition skipped (b : Batch) (m : Mem.memdb) (sl : Bucket.entry) : Prop :=
  exists key value sq dFlag expiresAt,
    reads m sl key value sq dFlag expiresAt /\ sq <= batchSeq b.

(** A slot staged after this batch's entries: [seq > batchSeq + Len()]. *)
Definition beyond (b : Batch) (m : Mem.memdb) (sl : Bucket.entry) : Prop :=
  exists key value sq dFlag expiresAt,
    reads m sl key value sq dFlag expiresAt /\
    batchSeq b + Z.of_nat (Len b) < sq.

(** A staged delete of [key] inside the window of this batch. *)
Definition staged_delete (b : Batch) (m : Mem.memdb) (sl : Bucket.entry)
    (key : list byte) : Prop :=
  exists value sq expiresAt,
    reads m sl key value sq true expiresAt /\
    batchSeq b < sq <= batchSeq b + Z.of_nat (Len b).

(** The fields of the DB that only [Write], [Abort] and the end of
    [commit] write. *)
Definition same_frame (d1 d2 : Db.DB) : Prop :=
  Db.writeLockC d1 = Db.writeLockC d2 /\ Db.mu d1 = Db.mu d2 /\
  Db.syncWrites d1 = Db.syncWrites d2 /\
  Db.Dels d1 = Db.Dels d2 /\ Db.Puts d1 = Db.Puts d2.

End WithCollaborators.
End Walk.

(** ** Deduplication as the spec words it

    "Within a batch, for each unique key hash, exactly one entry survives
    deduplication -- the last appended", emitted "in the original append
    order".  [keep_last] follows these words; it is compared with [uniq]
    in Part II. *)

Module DedupSpec.
Import Index.

(** Keep an entry exactly when no later entry has its hash. *)
Fixpoint keep_last (l : list batchIndex) : list batchIndex :=
  match l with
  | [] => []
  | e :: l' =>
      if bool_decide (hash e ∈ hash <$> l') then keep_last l'
      else e :: keep_last l'
  end.

(** [p] is the position of the latest occurrence of the hash of [e]. *)
Definition latest_at (l : list batchIndex) (p : nat) (e : batchIndex) : Prop :=
  l !! p = Some e /\
  forall q e', (p < q)%nat -> l !! q = Some e' -> hash e' <> hash e.

(** The positions [keep_last] keeps. *)
Fixpoint keep_last_pos (l : list batchIndex) : list nat :=
  match l with
  | [] => []
  | e :: l' =>
      if bool_decide (hash e ∈ hash <$> l') then S <$> keep_last_pos l'
      else O :: (S <$> keep_last_pos l')
  end.

(** Entries in order of first occurrence of their hash: what the backward
    scan of [uniq] numbers 0, 1, 2, ... *)
Definition firsts (p : list batchIndex) : list batchIndex :=
  foldl (fun acc e => if bool_decide (hash e ∈ hash <$> acc) then acc
                      else acc ++ [e]) [] p.

(** The scan state describes the list [acc] of first occurrences. *)
Definition scan_inv (acc : list batchIndex)
    (st : gmap Z Z * gmap Z batchIndex * Z) : Prop :=
  let '(U, Ix, i) := st in
  i = Z.of_nat (length acc) /\
  size U = length acc /\
  NoDup (hash <$> acc) /\
  (forall h k, U !! h = Some k <->
     0 <= k /\ exists e, acc !! Z.to_nat k = Some e /\ hash e = h) /\
  (forall j e, acc !! j = Some e -> Ix !! hash e = Some e).

End DedupSpec.

(** ** Batches as callers build them *)

Module Ops.
Import Index Batch.

(** One call of the append API. *)
Inductive op : Type :=
| OpPut (key value : list byte)
| OpPutWithTTL (key value : list byte) (ttl deadline : Z)
| OpDelete (key : list byte).

Definition op_key (o : op) : list byte :=
  match o with
  | OpPut key _ => key
  | OpPutWithTTL key _ _ _ => key
  | OpDelete key => key
  end.

(** The value the call hands to [appendRec] ([nil] for a delete). *)
Definition op_value (o : op) : list byte :=
  match o with
  | OpPut _ value => value
  | OpPutWithTTL _ value _ _ => value
  | OpDelete _ => []
  end.

Definition op_delete (o : op) : bool :=
  match o with OpDelete _ => true | _ => false end.

(** The lengths for which the sizes kept in a [batchIndex] are exact. *)
Definition in_bounds (o : op) : Prop :=
  Z.of_nat (length (op_key o)) < 2 ^ 16 /\
  Z.of_nat (length (op_value o)) < 2 ^ 32 - 2 ^ 16.

Section WithCollaborators.
Context `{MemOps}.

Definition apply_op (o : op) (b : Batch) : outcome Batch :=
  match o with
  | OpPut key value => Put key value b
  | OpPutWithTTL key value ttl deadline => PutWithTTL key value ttl deadline b
  | OpDelete key => Delete key b
  end.

Fixpoint apply_ops (ops : list op) (b : Batch) : outcome Batch :=
  match ops with
  | [] => Returns b
  | o :: rest => b' ← apply_op o b; apply_ops rest b'
  end.

(** Every entry of the index can be read out of the buffer. *)
Definition readable (b : Batch) : Prop :=
  Forall (fun e => is_Some (kv e (data b))) (index b).

End WithCollaborators.

(** The bytes one record takes in the buffer: the flag byte, the key, and
    the value of a put. *)
Definition record_of (dFlag : bool) (key value : list byte) : list byte :=
  (if dFlag then Byte.x01 else Byte.x00) :: key ++ (if dFlag then [] else value).

(** The sum [internalLen] is meant to hold: per entry, key size plus value
    size plus 8, in [uint32] arithmetic. *)
Definition internal_total (index : list batchIndex) : Z :=
  foldl (fun acc e => wrap32 (acc + wrap32 (wrap32 (keySize e + valueSize e) + 8)))
        0 index.

End Ops.

(** ** The file wrapper (file.go)

    [fs.FileManager] and [fs.FileSystem] are interfaces whose code lives
    outside src/: their methods are the operations of the class [FileOps],
    over the state [fm] of the open file.  A nil interface value is
    [None]; a method call on it panics. *)

Class FileOps : Type := {
  filesystem : Type;
  fm : Type;
  (** [fs.OpenFile(name, flag, perm)]; the flags and the mode are constants *)
  fs_OpenFile : filesystem -> list byte -> option fm * option error;
  (** [fi.Stat()]: the [Size()] of the [FileInfo] (nil is [None]) *)
  fm_Stat : fm -> option Z * option error;
  (** [f.Truncate(size)] *)
  fm_Truncate : Z -> fm -> option error * fm;
  (** [f.WriteAt(data, off)] *)
  fm_WriteAt : list byte -> Z -> fm -> Z * option error * fm;
  (** [f.ReadAt(buf, off)]: the new contents of [buf] *)
  fm_ReadAt : list byte -> Z -> fm -> list byte * Z * option error
}.

Module File.

Section WithFileManager.
Context `{FileOps}.

(** [file]; [size] is an [int64]. *)
Record file : Type := mkFile {
  FileManager : option fm;
  size : Z
}.

(** [file{}] *)
Definition zero : file := mkFile None 0.

(** [newFile(fs, name)] *)
Definition newFile (fs : filesystem) (name : list byte)
    : outcome (file * option error) :=
  let '(fi, err) := fs_OpenFile fs name in
  let f := zero in
  if is_err err then Returns (f, err)
  else
    let f := mkFile fi (size f) in
    m ← Batch.deref fi;
    let '(stat, err) := fm_Stat m in
    if is_err err then Returns (f, err)
    else
      sz ← Batch.deref stat;
      Returns (mkFile (FileManager f) sz, err).

(** [f.truncate(size)] *)
Definition truncate (sz : Z) (f : file) : outcome (option error * file) :=
  m ← Batch.deref (FileManager f);
  let '(err, m) := fm_Truncate sz m in
  let f := mkFile (Some m) (size f) in
  if is_err err then Returns (err, f)
  else Returns (None, mkFile (FileManager f) sz).

(** [f.extend(size)]; [sz] is a [uint32]. *)
Definition extend (sz : Z) (f : file) : outcome (Z * option error * file) :=
  let off := size f in
  m ← Batch.deref (FileManager f);
  let '(err, m) := fm_Truncate (wrap_int64 (off + sz)) m in
  let f := mkFile (Some m) (size f) in
  if is_err err then Returns (0, err, f)
  else Returns (off, None, mkFile (FileManager f) (wrap_int64 (size f + sz))).

(** [f.write(data)] *)
Definition write (data : list byte) (f : file)
    : outcome (Z * option error * file) :=
  let off := size f in
  m ← Batch.deref (FileManager f);
  let '(_, err, m) := fm_WriteAt data off m in
  let f := mkFile (Some m) (size f) in
  if is_err err then Returns (0, err, f)
  else Returns (Z.of_nat (length data), None,
                mkFile (FileManager f)
                  (wrap_int64 (size f + Z.of_nat (length data)))).

(** [f.writeMarshalableAt(m, off)]; [marshal] is what [m.MarshalBinary()]
    returns. *)
Definition writeMarshalableAt (marshal : list byte * option error) (off : Z)
    (f : file) : outcome (option error * file) :=
  let '(buf, err) := marshal in
  if is_err err then Returns (err, f)
  else
    m ← Batch.deref (FileManager f);
    let '(_, err, m) := fm_WriteAt buf off m in
    Returns (err, mkFile (Some m) (size f)).

(** [f.readUnmarshalableAt(m, size, off)]; [unmarshal] is
    [m.UnmarshalBinary], which hands back its error and the value read. *)
Definition readUnmarshalableAt {M : Type}
    (unmarshal : list byte -> option error * option M) (sz : Z) (off : Z)
    (f : file) : outcome (option error * option M) :=
  let buf := replicate (Z.to_nat sz) Byte.x00 in
  m ← Batch.deref (FileManager f);
  let '(buf, _, err) := fm_ReadAt buf off m in
  if is_err err then Returns (err, None)
  else Returns (unmarshal buf).

(** [f.currSize()] *)
Definition currSize (f : file) : Z := size f.

(** [f.Size()]: the error of [Stat] is dropped. *)
Definition Size (f : file) : outcome Z :=
  m ← Batch.deref (FileManager f);
  let '(stat, _) := fm_Stat m in
  Batch.deref stat.

(** One call that moves the end of the file. *)
Inductive fop : Type :=
| FExtend (sz : Z)
| FWrite (data : list byte).

Definition fop_size (o : fop) : Z :=
  match o with
  | FExtend sz => sz
  | FWrite data => Z.of_nat (length data)
  end.

Definition run_fop (o : fop) (f : file) : outcome (Z * option error * file) :=
  match o with
  | FExtend sz => extend sz f
  | FWrite data => write data f
  end.

(** A run of calls; the result lists what each call returned. *)
Fixpoint run_fops (ops : list fop) (f : file)
    : outcome (list (Z * option error) * file) :=
  match ops with
  | [] => Returns ([], f)
  | o :: rest =>
      '(r, err, f) ← run_fop o f;
      '(res, f) ← run_fops rest f;
      Returns ((r, err) :: res, f)
  end.

(** The cached size is the size [Stat] reports. *)
Definition synced (f : file) : Prop :=
  exists m, FileManager f = Some m /\ fm_Stat m = (Some (size f), None).

End WithFileManager.

(** The bytes granted by the calls of a run that returned nil. *)
Fixpoint granted (ops : list fop) (res : list (Z * option error)) : Z :=
  match ops, res with
  | o :: ops', (_, None) :: res' => fop_size o + granted ops' res'
  | _ :: ops', (_, Some _) :: res' => granted ops' res'
  | _, _ => 0
  end.

End File.

(** ** A file held in memory *)

Module FileExample.

(** The file is its contents.  [Truncate] cuts or pads with zeros;
    [WriteAt] pads up to the offset and overwrites; a negative size or
    offset is an error. *)
#[global] Instance fileops : FileOps := {|
  filesystem := unit;
  fm := list byte;
  fs_OpenFile := fun _ _ => (Some [], None);
  fm_Stat := fun m => (Some (Z.of_nat (length m)), None);
  fm_Truncate := fun n m =>
    if n <? 0 then (Some (errOther 3), m)
    else (None, take (Z.to_nat n) m ++
                replicate (Z.to_nat n - length m) Byte.x00);
  fm_WriteAt := fun data off m =>
    if off <? 0 then (0, Some (errOther 4), m)
    else
      let m := m ++ replicate (Z.to_nat off - length m) Byte.x00 in
      (Z.of_nat (length data), None,
       take (Z.to_nat off) m ++ data ++
       drop (Z.to_nat off + length data) m);
  fm_ReadAt := fun buf off m =>
    if (off <? 0) || (Z.of_nat (length m) <? off + Z.of_nat (length buf))
    then (buf, 0, Some (errOther 5))
    else (take (length buf) (drop (Z.to_nat off) m),
          Z.of_nat (length buf), None)
|}.

Definition file0 : File.file := File.mkFile (Some []) 0.

(** extend(4); write("ab"); extend(3) on the empty file. *)
Definition ops0 : list File.fop :=
  [File.FExtend 4; File.FWrite [Byte.x61; Byte.x62]; File.FExtend 3].

Definition ran0 : list (Z * option error) * File.file :=
  Eval vm_compute in
    match File.run_fops ops0 file0 with
    | Returns r => r
    | _ => ([], file0)
    end.

(** The file after extend(4) on the empty file. *)
Definition file_ext : File.file :=
  Eval vm_compute in
    match File.extend 4 file0 with
    | Returns (_, _, f) => f
    | _ => file0
    end.

End FileExample.

(** ** The later batch of batch.go (messages with an id and a topic)

    batch.go carries a second [Batch], whose records are messages: an id of
    [idSize] bytes, a topic and a value.  [idSize] is a constant declared
    outside src/, and the capacity that the built-in [append] gives a grown
    slice is left to the Go runtime: both are operations of [MsgOps]. *)

Class MsgOps : Type := {
  idSize : Z;
  (** the capacity of the slice [append] returns when a slice of capacity
      [c] has to grow to hold [n] elements *)
  append_cap : nat -> nat -> nat
}.

Module V2.

(** [batchIndex] *)
Record batchIndex : Type := mkIndex {
  delFlag : bool;
  seq : Z;         (* uint64 *)
  key : Z;         (* uint32 *)
  topicSize : Z;   (* uint16 *)
  valueSize : Z;   (* uint32 *)
  expiresAt : Z;   (* uint32 *)
  mOffset : Z      (* int64 *)
}.

Definition zero : batchIndex := mkIndex false 0 0 0 0 0 0.

#[global] Instance batchIndex_inhabited : Inhabited batchIndex := populate zero.

Definition set_mOffset (v : Z) (e : batchIndex) : batchIndex :=
  mkIndex (delFlag e) (seq e) (key e) (topicSize e) (valueSize e)
          (expiresAt e) v.

(** A slice expression [data[lo:hi]] with [int64] bounds; [None] is the
    run-time panic. *)
Definition slice64 (data : list byte) (lo hi : Z) : option (list byte) :=
  if (0 <=? lo) && (lo <=? hi) && (hi <=? Z.of_nat (length data))
  then Some (take (Z.to_nat (hi - lo)) (drop (Z.to_nat lo) data))
  else None.

(** [Batch]; [opts], [db] and [commitComplete] are not read or written by
    the functions below.  [dataCap] is [cap(b.data)]. *)
Record Batch : Type := mkBatch {
  managed : bool;
  grouped : bool;
  order : Z;                      (* int8 *)
  startSeq : Z;                   (* uint64 *)
  tinyBatch : bool;
  data : list byte;
  dataCap : nat;
  index : list batchIndex;
  pendingWrites : list batchIndex;
  batchSeqs : list Z
}.

Section WithMsg.
Context `{MsgOps}.

(** [index.id(data)] *)
Definition id (index : batchIndex) (data : list byte) : option (list byte) :=
  slice64 data (mOffset index) (wrap_int64 (mOffset index + idSize)).

(** [index.mSize()]: a [uint32] sum. *)
Definition mSize (index : batchIndex) : Z :=
  wrap32 (wrap32 (idSize + topicSize index) + valueSize index).

(** [index.message(data)]; [idSize+index.topicSize] is a [uint16] sum. *)
Definition message (index : batchIndex) (data : list byte)
    : option (list byte * list byte * list byte) :=
  keyValue ← slice64 data (mOffset index)
                (wrap_int64 (mOffset index + mSize index));
  id ← slice64 keyValue 0 idSize;
  topic ← slice64 keyValue idSize (wrap16 (idSize + topicSize index));
  value ← slice64 keyValue (wrap16 (idSize + topicSize index))
            (Z.of_nat (length keyValue));
  Some (id, topic, value).

(** [b.grow(n)]: only the capacity changes. *)
Definition grow (n : nat) (b : Batch) : Batch :=
  let o := length (data b) in
  if (dataCap b - o <? n)%nat then
    let div :=
      if (Batch.batchGrowRec <? length (index b))%nat
      then (length (index b) / Batch.batchGrowRec)%nat else 1%nat in
    mkBatch (managed b) (grouped b) (order b) (startSeq b) (tinyBatch b)
            (data b) (o + n + o / div)%nat (index b) (pendingWrites b)
            (batchSeqs b)
  else b.

(** [b.appendRec(dFlag, seq, key, id, topic, value, expiresAt)] *)
Definition appendRec (dFlag : bool) (seq key : Z) (id topic value : list byte)
    (expiresAt : Z) (b : Batch) : Batch :=
  let n := (1 + length id)%nat in
  let n := (n + length topic)%nat in
  let n := if negb dFlag then (n + length value)%nat else n in
  let b := grow n b in
  let o := length (data b) in
  let buf := data b ++ replicate n Byte.x00 in
  let buf := <[o := if dFlag then Byte.x01 else Byte.x00]> buf in
  let o := S o in
  let mOffset := Z.of_nat o in
  let topicSize := wrap16 (Z.of_nat (length topic)) in
  let buf1 := with_slice o (length buf) (fun d => copy d id) buf in
  let o := (o + Nat.min (length buf - o) (length id))%nat in
  let buf2 := with_slice o (length buf1) (fun d => copy d topic) buf1 in
  let o := (o + Nat.min (length buf1 - o) (length topic))%nat in
  let '(valueSize, buf3, o) :=
    if negb dFlag then
      (wrap32 (Z.of_nat (length value)),
       with_slice o (length buf2) (fun d => copy d value) buf2,
       (o + Nat.min (length buf2 - o) (length value))%nat)
    else (0, buf2, o) in
  let rec := mkIndex dFlag seq key topicSize valueSize expiresAt mOffset in
  mkBatch (managed b) (grouped b) (order b) (startSeq b) (tinyBatch b)
          (take o buf3) (dataCap b) (index b ++ [rec]) (pendingWrites b)
          (batchSeqs b).

(** [b.Reset()] *)
Definition Reset (b : Batch) : Batch :=
  mkBatch (managed b) (grouped b) (order b) (startSeq b) (tinyBatch b)
          [] (dataCap b) [] (pendingWrites b) (batchSeqs b).

(** [b.uniq()], first loop: [idx] runs from [len(b.index) - 1] down to 0;
    the state is [(uniqueSet, i)], and a value of the map is
    [indices{idx, newidx}]. *)
Definition uniq_step (index : list batchIndex) (idx : nat)
    (st : gmap Z (nat * Z) * Z) : gmap Z (nat * Z) * Z :=
  let '(uniqueSet, i) := st in
  match uniqueSet !! key (index !!! idx) with
  | Some _ => st
  | None => (<[key (index !!! idx) := (idx, i)]> uniqueSet, i + 1)
  end.

Fixpoint uniq_scan (index : list batchIndex) (n : nat)
    (st : gmap Z (nat * Z) * Z) : gmap Z (nat * Z) * Z :=
  match n with
  | O => st
  | S idx => uniq_scan index idx (uniq_step index idx st)
  end.

(** [b.pendingWrites[len(uniqueSet)-i.newidx-1] = b.index[i.idx]]; an index
    out of range panics. *)
Definition uniq_place (n : nat) (index : list batchIndex) (x : Z)
    (i : nat * Z) (acc : outcome (list batchIndex))
    : outcome (list batchIndex) :=
  pendingWrites ← acc;
  let pos := Z.of_nat n - snd i - 1 in
  e ← Batch.deref (index !! fst i);
  if (0 <=? pos) && (pos <? Z.of_nat (length pendingWrites))
  then Returns (<[Z.to_nat pos := e]> pendingWrites)
  else Panics.

(** [b.uniq()]: the batch with its new [pendingWrites], which is also what
    the call returns. *)
Definition uniq (b : Batch) : outcome Batch :=
  let '(uniqueSet, _) := uniq_scan (index b) (length (index b)) (∅, 0) in
  let n := size uniqueSet in
  pendingWrites ← map_fold (uniq_place n (index b))
                    (Returns (replicate n zero)) uniqueSet;
  Returns (mkBatch (managed b) (grouped b) (order b) (startSeq b)
             (tinyBatch b) (data b) (dataCap b) (index b) pendingWrites
             (batchSeqs b)).

(** [b.append(bnew)] *)
Definition append (bnew : Batch) (b : Batch) : Batch :=
  let off := length (data b) in
  let index :=
    foldl (fun acc idx =>
             acc ++ [set_mOffset (wrap_int64 (mOffset idx + Z.of_nat off)) idx])
          (index b) (index bnew) in
  let n := (length (data b) + length (data bnew))%nat in
  mkBatch (managed b) (grouped b) (order b) (startSeq b) (tinyBatch b)
          (data b ++ data bnew)
          (if (n <=? dataCap b)%nat then dataCap b
           else append_cap (dataCap b) n)
          index (pendingWrites b) (batchSeqs b).

(** [b.Seqs()] and [b.Len()] *)
Definition Seqs (b : Batch) : list Z := batchSeqs b.
Definition Len (b : Batch) : nat := length (pendingWrites b).

End WithMsg.

(** Keep an entry exactly when no later entry has its key. *)
Fixpoint keep_last (l : list batchIndex) : list batchIndex :=
  match l with
  | [] => []
  | e :: l' =>
      if bool_decide (key e ∈ key <$> l') then keep_last l'
      else e :: keep_last l'
  end.

(** The entry of the first batch that stands for entry number [p] of this
    one in the deduplication: the key as its hash, [p] as its offset. *)
Definition enc (p : nat) (e : batchIndex) : Index.batchIndex :=
  Index.mkIndex false (key e) 0 0 0 p.

(** The scan state of this [uniq] stands for the scan state of the first
    batch's [uniq] on the entries [enc]. *)
Definition scan_rel (index : list batchIndex) (st2 : gmap Z (nat * Z) * Z)
    (st1 : gmap Z Z * gmap Z Index.batchIndex * Z) : Prop :=
  let '(U2, i2) := st2 in
  let '(U1, Ix1, i1) := st1 in
  i1 = i2 /\ U1 = snd <$> U2 /\
  Ix1 = (fun v => enc (fst v) (index !!! fst v)) <$> U2 /\
  forall k p j, U2 !! k = Some (p, j) -> (p < length index)%nat.

End V2.

(** ** Messages with ids of two bytes *)

Module V2Example.

#[global] Instance msgops : MsgOps := {|
  idSize := 2;
  append_cap := fun c n => (2 * n)%nat
|}.

Definition batch0 : V2.Batch := V2.mkBatch false false 0 0 false [] 0 [] [] [].

Definition id_1 : list byte := [Byte.x00; Byte.x01].
Definition id_2 : list byte := [Byte.x00; Byte.x02].
Definition topic_t : list byte := [Byte.x74].

(** Two messages with key 7 and one with key 9. *)
Definition batch_779 : V2.Batch :=
  Eval vm_compute in
    V2.appendRec false 3 9 id_2 topic_t [Byte.x33] 0
      (V2.appendRec false 2 7 id_2 topic_t [Byte.x32] 0
         (V2.appendRec false 1 7 id_1 topic_t [Byte.x31] 0 batch0)).

Definition batch_1 : V2.Batch :=
  Eval vm_compute in V2.appendRec false 1 7 id_1 topic_t [Byte.x31] 0 batch0.

Definition batch_merged : V2.Batch :=
  Eval vm_compute in V2.append batch_779 batch_1.

End V2Example.

(* ===================================================================== *)
(** * Part II: properties                                                 *)
(* ===================================================================== *)

Module CodecFacts.
Import Codec.

Lemma keyMaxSeq_val : keyMaxSeq = 2 ^ 56 - 1.
Proof. reflexivity. Qed.

(** The packed number [(seq << 8) | dBit]. *)
Lemma packed_num (seq : Z) (d : bool) :
  0 <= seq <= keyMaxSeq ->
  let num := Z.lor (wrap64 (Z.shiftl seq 8)) (if d then 1 else 0) in
  0 <= num < 2 ^ 64 /\ Z.shiftr num 8 = seq /\
  negb (Z.land num 255 =? 0) = d.
Proof.
  rewrite keyMaxSeq_val. intros Hseq num.
  assert (Hsh : wrap64 (Z.shiftl seq 8) = seq * 256).
  { unfold wrap64. rewrite Z.shiftl_mul_pow2 by lia.
    change (2 ^ 8) with 256. apply Z.mod_small. lia. }
  assert (Hd : 0 <= (if d then 1 else 0)) by (destruct d; lia).
  assert (Hshr : Z.shiftr num 8 = seq).
  { unfold num. rewrite Z.shiftr_lor, Hsh.
    replace (Z.shiftr (if d then 1 else 0) 8) with 0 by (destruct d; reflexivity).
    rewrite Z.lor_0_r, Z.shiftr_div_pow2 by lia.
    change (2 ^ 8) with 256. apply Z.div_mul. lia. }
  assert (Hnn : 0 <= num) by (apply Z.lor_nonneg; lia).
  split; [split; [exact Hnn|] | split; [exact Hshr|]].
  - rewrite Z.shiftr_div_pow2 in Hshr by lia. change (2 ^ 8) with 256 in Hshr.
    pose proof (Z.div_mod num 256 ltac:(lia)) as Hdm.
    pose proof (Z.mod_pos_bound num 256 ltac:(lia)). lia.
  - unfold num. rewrite Z.land_lor_distr_l, Hsh.
    change 255 with (Z.ones 8). rewrite !Z.land_ones by lia.
    change (2 ^ 8) with 256. rewrite Z.mod_mul by lia.
    destruct d; reflexivity.
Qed.

(** The key [makeInternalKey] builds, whatever buffer it is handed. *)
Lemma makeInternalKey_layout (dst ukey : list byte) (seq : Z) (d : bool)
    (expiresAt : Z) :
  seq <= keyMaxSeq ->
  makeInternalKey dst ukey seq d expiresAt =
    Some (ukey ++ le_split 8 (Z.lor (wrap64 (Z.shiftl seq 8)) (if d then 1 else 0))
               ++ le_split 4 expiresAt).
Proof.
  intros Hseq. unfold makeInternalKey.
  destruct (Z.ltb_spec keyMaxSeq seq) as [Hlt | _]; [lia |].
  f_equal.
  set (n := length ukey).
  set (num := Z.lor _ _).
  assert (Hbuf : exists tail, length tail = 12%nat /\
            copy (ensureBuffer dst (n + 12)) ukey = ukey ++ tail).
  { unfold copy, ensureBuffer.
    destruct (Nat.ltb_spec (length dst) (n + 12)) as [Hshort | Hlong].
    - rewrite length_replicate, drop_replicate, firstn_all2 by (fold n; lia).
      exists (replicate (n + 12 - n) Byte.x00).
      split; [rewrite length_replicate; lia | reflexivity].
    - rewrite length_take, Nat.min_l, firstn_all2 by (fold n; lia).
      exists (drop n (take (n + 12) dst)).
      split; [rewrite length_drop, length_take; lia | reflexivity]. }
  destruct Hbuf as (tail & Htail & ->).
  assert (Hw1 : with_slice n (n + 8) (PutUint64 num) (ukey ++ tail) =
                ukey ++ le_split 8 num ++ drop 8 tail).
  { unfold with_slice, PutUint64.
    rewrite (take_app_length' ukey tail n), (drop_app_length' ukey tail n)
      by reflexivity.
    replace (n + 8 - n)%nat with 8%nat by lia.
    rewrite (drop_app_add' ukey tail n 8) by reflexivity.
    rewrite (drop_ge (take 8 tail)) by (rewrite length_take; lia).
    rewrite app_nil_r. reflexivity. }
  rewrite Hw1.
  assert (Hlen : length (ukey ++ le_split 8 num ++ drop 8 tail) = (n + 12)%nat).
  { rewrite !length_app, length_le_split, length_drop. fold n. lia. }
  rewrite Hlen. unfold with_slice, PutUint32.
  rewrite (app_assoc ukey).
  assert (Hpre : length (ukey ++ le_split 8 num) = (n + 8)%nat).
  { rewrite length_app, length_le_split. reflexivity. }
  rewrite (take_app_length' _ (drop 8 tail) (n + 8)) by (symmetry; exact Hpre).
  rewrite (drop_app_length' _ (drop 8 tail) (n + 8)) by (symmetry; exact Hpre).
  rewrite (drop_ge _ (n + 12))
    by (rewrite length_app, length_drop, Hpre; lia).
  rewrite (drop_ge (take _ _) 4) by (rewrite length_take, length_drop; lia).
  rewrite !app_nil_r, <- app_assoc. reflexivity.
Qed.

(** What [parseInternalKey] reads back from a user key followed by a
    12-byte tail. *)
Lemma parseInternalKey_layout (ukey num4 num8 : list byte) :
  length num8 = 8%nat -> length num4 = 4%nat ->
  parseInternalKey (ukey ++ num8 ++ num4) =
    (ukey, Z.shiftr (le_combine num8) 8,
     negb (Z.land (le_combine num8) 255 =? 0), le_combine num4, None).
Proof.
  intros H8 H4. unfold parseInternalKey.
  assert (Hlen : length (ukey ++ num8 ++ num4) = (length ukey + 12)%nat)
    by (rewrite !length_app; lia).
  rewrite Hlen.
  destruct (Nat.ltb_spec (length ukey + 12) 12) as [Hlt | Hge].
  - destruct ukey; simpl in Hlt; lia.
  - assert (E4 : drop (length ukey + 12 - 4) (ukey ++ num8 ++ num4) = num4).
    { rewrite (app_assoc ukey num8 num4).
      apply drop_app_length'. rewrite length_app. lia. }
    assert (E12 : drop (length ukey + 12 - 12) (ukey ++ num8 ++ num4) =
                  num8 ++ num4) by (apply drop_app_length'; lia).
    assert (Eu : take (length ukey + 12 - 12) (ukey ++ num8 ++ num4) = ukey)
      by (apply take_app_length'; lia).
    rewrite E4, E12, Eu. unfold Uint32, Uint64.
    rewrite (take_app_length' num8 num4 8) by lia.
    rewrite (firstn_all2 num4), (firstn_all2 num8) by lia.
    reflexivity.
Qed.

(** Decoding what [makeInternalKey] built: the expiry comes back as the
    32 bits that were stored. *)
Lemma parse_makeInternalKey (dst ukey ik : list byte) (seq : Z) (d : bool)
    (expiresAt : Z) :
  0 <= seq ->
  makeInternalKey dst ukey seq d expiresAt = Some ik ->
  seq <= keyMaxSeq /\
  parseInternalKey ik = (ukey, seq, d, wrap32 expiresAt, None).
Proof.
  intros Hnn Hmk.
  assert (Hle : seq <= keyMaxSeq).
  { unfold makeInternalKey in Hmk.
    destruct (Z.ltb_spec keyMaxSeq seq); [discriminate | assumption]. }
  split; [exact Hle |].
  pose proof (makeInternalKey_layout dst ukey seq d expiresAt Hle) as Hlay.
  rewrite Hmk in Hlay.
  assert (Hik : ik = ukey ++ le_split 8 (Z.lor (wrap64 (Z.shiftl seq 8))
                                           (if d then 1 else 0))
                          ++ le_split 4 expiresAt) by congruence.
  rewrite Hik. clear Hlay Hik Hmk.
  destruct (packed_num seq d (conj Hnn Hle)) as (Hrange & Hshr & Hland).
  rewrite parseInternalKey_layout by apply length_le_split.
  rewrite !le_combine_split.
  change (Z.of_nat 8 * 8) with 64. change (Z.of_nat 4 * 8) with 32.
  rewrite (Z.mod_small _ (2 ^ 64)) by exact Hrange.
  rewrite Hshr, Hland. reflexivity.
Qed.

(** C5: encoding a user key with a sequence number of at most [2^56 - 1], a
    delete flag and a 32-bit expiry, then decoding the internal key, gives
    back exactly the user key, the sequence number, the flag and the expiry,
    with no error, whatever buffer [dst] the encoder was handed. *)
Theorem internal_key_roundtrip (dst ukey : list byte) (seq : Z) (dFlag : bool)
    (expiresAt : Z) :
  0 <= seq <= 2 ^ 56 - 1 ->
  0 <= expiresAt < 2 ^ 32 ->
  exists ik,
    makeInternalKey dst ukey seq dFlag expiresAt = Some ik /\
    parseInternalKey ik = (ukey, seq, dFlag, expiresAt, None).
Proof.
  intros Hseq Hexp. rewrite <- keyMaxSeq_val in Hseq.
  eexists. split; [apply makeInternalKey_layout; lia |].
  destruct (packed_num seq dFlag Hseq) as (Hrange & Hshr & Hland).
  rewrite parseInternalKey_layout by apply length_le_split.
  rewrite !le_combine_split.
  change (Z.of_nat 8 * 8) with 64. change (Z.of_nat 4 * 8) with 32.
  rewrite (Z.mod_small _ (2 ^ 64)) by exact Hrange.
  rewrite (Z.mod_small _ (2 ^ 32)) by exact Hexp.
  rewrite Hshr, Hland. reflexivity.
Qed.

(** A concrete instance of C5: user key "k", sequence 7, a delete, expiry 9. *)
Lemma internal_key_roundtrip_witness :
  exists ik,
    makeInternalKey [] [Byte.x6b] 7 true 9 = Some ik /\
    parseInternalKey ik = ([Byte.x6b], 7, true, 9, None).
Proof. apply (internal_key_roundtrip [] [Byte.x6b] 7 true 9); lia. Defined.

(** C6 (as the code behaves): on every byte string shorter than 12 bytes
    [parseInternalKey] returns the zero values of its results and a nil
    error: the short key is logged, not reported. *)
Theorem parseInternalKey_short_no_error (ik : list byte) :
  (length ik < 12)%nat ->
  parseInternalKey ik = ([], 0, false, 0, None).
Proof.
  intros Hlen. unfold parseInternalKey.
  destruct (Nat.ltb_spec (length ik) 12); [reflexivity | lia].
Qed.

(** The empty internal key: no error comes back. *)
Lemma parseInternalKey_short_no_error_witness :
  (length (@nil byte) < 12)%nat /\
  parseInternalKey [] = ([], 0, false, 0, None).
Proof.
  split; [simpl; lia | apply (parseInternalKey_short_no_error []); simpl; lia].
Defined.

End CodecFacts.

(** ** Deduplication *)

Module UniqFacts.
Import Index Batch DedupSpec.

Lemma uniq_scan_foldl (l : list batchIndex) (n : nat) st :
  (n <= length l)%nat ->
  uniq_scan l n st = foldl (fun s e => uniq_step e s) st (reverse (take n l)).
Proof.
  revert st. induction n as [|n IH]; intros st Hn; [reflexivity |].
  destruct (lookup_lt_is_Some_2 l n ltac:(lia)) as [e He].
  rewrite (take_S_r l n e He), reverse_snoc. simpl.
  rewrite (list_lookup_total_correct l n e He).
  apply IH. lia.
Qed.

Lemma hash_elem_of_lookup (acc : list batchIndex) (h : Z) :
  h ∈ hash <$> acc <-> exists j e, acc !! j = Some e /\ hash e = h.
Proof.
  rewrite list_elem_of_fmap. split.
  - intros (e & -> & Hin). apply list_elem_of_lookup in Hin as [j Hj]. eauto.
  - intros (j & e & Hj & <-). exists e. split; [reflexivity |].
    apply list_elem_of_lookup. eauto.
Qed.

Lemma scan_inv_step (acc : list batchIndex) (e : batchIndex) st :
  scan_inv acc st ->
  scan_inv (if bool_decide (hash e ∈ hash <$> acc) then acc else acc ++ [e])
           (uniq_step e st).
Proof.
  destruct st as [[U Ix] i]. intros (Hi & Hsz & Hnd & HU & HI).
  unfold uniq_step. destruct (U !! hash e) as [k|] eqn:HUe.
  - rewrite bool_decide_eq_true_2;
      [exact (conj Hi (conj Hsz (conj Hnd (conj HU HI)))) |].
    apply HU in HUe as (_ & e' & He' & Hh).
    apply hash_elem_of_lookup. eauto.
  - assert (Hfresh : hash e ∉ hash <$> acc).
    { intros Hin. apply hash_elem_of_lookup in Hin as (j & e' & Hj & Hh).
      assert (U !! hash e = Some (Z.of_nat j)) as Hc; [|congruence].
      apply HU. split; [lia |]. exists e'. rewrite Nat2Z.id. auto. }
    rewrite bool_decide_eq_false_2 by exact Hfresh.
    unfold scan_inv. rewrite length_app. simpl.
    split; [lia |]. split; [rewrite map_size_insert_None by exact HUe; lia |].
    split.
    { rewrite fmap_app. apply NoDup_app. split; [exact Hnd |].
      split; [| apply NoDup_singleton].
      intros h Hh ->%list_elem_of_singleton. exact (Hfresh Hh). }
    split.
    + intros h k. destruct (decide (h = hash e)) as [-> | Hne].
      * rewrite lookup_insert_eq. split.
        -- intros [= <-]. split; [lia |]. exists e. split; [| reflexivity].
           rewrite Hi, Nat2Z.id. apply list_lookup_middle. reflexivity.
        -- intros (Hk & e' & He' & Hh). f_equal.
           destruct (decide (Z.to_nat k < length acc)%nat) as [Hlt | Hge].
           ++ rewrite lookup_app_l in He' by exact Hlt.
              exfalso. apply Hfresh, hash_elem_of_lookup. eauto.
           ++ apply lookup_lt_Some in He'. rewrite length_app in He'.
              simpl in He'. lia.
      * rewrite lookup_insert_ne by congruence. rewrite HU. split.
        -- intros (Hk & e' & He' & Hh). split; [exact Hk |]. exists e'.
           split; [| exact Hh]. apply lookup_app_l_Some. exact He'.
        -- intros (Hk & e' & He' & Hh). split; [exact Hk |]. exists e'.
           split; [| exact Hh].
           apply lookup_app_Some in He' as [He' | [Hlen He']]; [exact He' |].
           destruct (Z.to_nat k - length acc)%nat; simpl in He';
             [congruence | discriminate].
    + intros j e' Hj.
      apply lookup_app_Some in Hj as [Hj | [Hlen Hj]].
      * rewrite lookup_insert_ne; [eauto |].
        intros Heq. apply Hfresh, hash_elem_of_lookup. eauto.
      * destruct (j - length acc)%nat; simpl in Hj; [| discriminate].
        injection Hj as <-. apply lookup_insert_eq.
Qed.

Lemma scan_inv_foldl (p : list batchIndex) :
  scan_inv (firsts p) (foldl (fun s e => uniq_step e s) (∅, ∅, 0) p).
Proof.
  unfold firsts. induction p as [|e p IH] using rev_ind.
  - simpl. split; [reflexivity |]. split; [apply map_size_empty |].
    split; [apply NoDup_nil_2 |]. split.
    + intros h k. rewrite lookup_empty. split; [discriminate |].
      intros (_ & e & He & _). discriminate.
    + intros j e He. discriminate.
  - rewrite !foldl_app. simpl. apply scan_inv_step. exact IH.
Qed.

(** The second loop of [uniq] writes every numbered entry at its mirrored
    position, whatever order the map is ranged over. *)
Lemma uniq_place_all (acc : list batchIndex) (U : gmap Z Z)
    (Ix : gmap Z batchIndex) (i : Z) :
  scan_inv acc (U, Ix, i) ->
  map_fold (uniq_place (size U) Ix) (Returns (replicate (size U) zero)) U =
    Returns (reverse acc).
Proof.
  intros (Hi & Hsz & Hnd & HU & HI). rewrite Hsz.
  set (n := length acc).
  assert (Hgoal : (forall h k, U !! h = Some k -> U !! h = Some k) ->
    exists pw, map_fold (uniq_place n Ix) (Returns (replicate n zero)) U =
                 Returns pw /\ length pw = n /\
      forall j e, acc !! j = Some e -> U !! hash e = Some (Z.of_nat j) ->
                  pw !! (n - 1 - j)%nat = Some e).
  { apply (map_fold_weak_ind
      (fun res m => (forall h k, m !! h = Some k -> U !! h = Some k) ->
         exists pw, res = Returns pw /\ length pw = n /\
           forall j e, acc !! j = Some e -> m !! hash e = Some (Z.of_nat j) ->
                       pw !! (n - 1 - j)%nat = Some e)).
    - intros _. exists (replicate n zero).
      split; [reflexivity |]. split; [apply length_replicate |].
      intros j e _ Hm. rewrite lookup_empty in Hm. discriminate.
    - intros h k m res Hmh IH Hsub.
      destruct IH as (pw & -> & Hlen & Hpw).
      { intros h' k' Hm'. apply Hsub. rewrite lookup_insert_ne; [exact Hm' |].
        intros ->. congruence. }
      assert (HUh : U !! h = Some k) by (apply Hsub, lookup_insert_eq).
      apply HU in HUh as (Hk & e & He & Hhe).
      pose proof (lookup_lt_Some _ _ _ He) as Hlt. fold n in Hlt.
      unfold uniq_place. simpl.
      rewrite Hlen.
      destruct (Z.leb_spec 0 (Z.of_nat n - k - 1)); [| lia].
      destruct (Z.ltb_spec (Z.of_nat n - k - 1) (Z.of_nat n)); [| lia].
      simpl. eexists. split; [reflexivity |].
      split; [rewrite length_insert; exact Hlen |].
      replace (Z.to_nat (Z.of_nat n - k - 1)) with (n - 1 - Z.to_nat k)%nat by lia.
      rewrite (lookup_total_correct Ix h e)
        by (rewrite <- Hhe; exact (HI _ _ He)).
      intros j e' Hj Hm'.
      destruct (decide (hash e' = h)) as [Heq | Hne].
      + rewrite Heq, lookup_insert_eq in Hm'. injection Hm' as ->.
        rewrite Nat2Z.id in He. assert (e' = e) as -> by congruence.
        rewrite Nat2Z.id. apply list_lookup_insert_eq. lia.
      + rewrite lookup_insert_ne in Hm' by congruence.
        rewrite list_lookup_insert_ne; [exact (Hpw _ _ Hj Hm') |].
        pose proof (lookup_lt_Some _ _ _ Hj) as Hjlt. fold n in Hjlt.
        intros Hpos. assert (j = Z.to_nat k) as -> by lia. congruence. }
  destruct Hgoal as (pw & -> & Hlen & Hpw); [auto |].
  f_equal. apply list_eq. intros p.
  destruct (decide (p < n)%nat) as [Hp | Hp].
  - rewrite reverse_lookup by exact Hp.
    destruct (lookup_lt_is_Some_2 acc (n - S p) ltac:(unfold n in *; lia))
      as [e He].
    fold n. rewrite He.
    replace p with (n - 1 - (n - S p))%nat at 1 by lia.
    apply (Hpw _ _ He). apply HU. split; [lia |]. exists e.
    rewrite Nat2Z.id. auto.
  - rewrite !lookup_ge_None_2; [reflexivity | |]; rewrite ?length_reverse;
      fold n; lia.
Qed.

Lemma hash_firsts (p : list batchIndex) (h : Z) :
  h ∈ hash <$> firsts p <-> h ∈ hash <$> p.
Proof.
  unfold firsts. induction p as [|e p IH] using rev_ind; [reflexivity |].
  rewrite foldl_app, fmap_app, elem_of_app, <- IH. simpl.
  rewrite list_elem_of_singleton.
  case_bool_decide as Hin.
  - split; [auto |]. intros [Hh | ->]; assumption.
  - rewrite fmap_app, elem_of_app. simpl. rewrite list_elem_of_singleton.
    reflexivity.
Qed.

(** Numbering first occurrences from the end is keeping last occurrences. *)
Lemma firsts_reverse (l : list batchIndex) :
  firsts (reverse l) = reverse (keep_last l).
Proof.
  induction l as [|e l IH]; [reflexivity |].
  rewrite reverse_cons. unfold firsts in *. rewrite foldl_app, IH. simpl.
  assert (Hiff : hash e ∈ hash <$> reverse (keep_last l) <->
                 hash e ∈ hash <$> l).
  { rewrite <- IH. fold (firsts (reverse l)). rewrite hash_firsts.
    rewrite fmap_reverse, elem_of_reverse. reflexivity. }
  destruct (decide (hash e ∈ hash <$> l)) as [Hin | Hnin].
  - rewrite (bool_decide_eq_true_2 _ Hin).
    rewrite bool_decide_eq_true_2 by (apply Hiff; exact Hin). reflexivity.
  - rewrite (bool_decide_eq_false_2 _ Hnin).
    rewrite bool_decide_eq_false_2 by (rewrite Hiff; exact Hnin).
    rewrite reverse_cons. reflexivity.
Qed.

(** [uniq] computes [keep_last] of the index, and never panics. *)
Lemma uniq_keep_last `{MemOps} (b : Batch) :
  uniq b = Returns (keep_last (index b)).
Proof.
  unfold uniq.
  pose proof (scan_inv_foldl (reverse (index b))) as Hinv.
  rewrite uniq_scan_foldl, firstn_all by lia.
  destruct (foldl _ _ _) as [[U Ix] i].
  rewrite (uniq_place_all _ _ _ _ Hinv), firsts_reverse, reverse_involutive.
  reflexivity.
Qed.

Lemma keep_last_hashes (l : list batchIndex) (h : Z) :
  h ∈ hash <$> keep_last l <-> h ∈ hash <$> l.
Proof.
  induction l as [|e l IH]; [reflexivity |]. simpl.
  case_bool_decide as Hin.
  - rewrite IH, elem_of_cons. split; [auto |]. intros [-> | Hh]; assumption.
  - rewrite fmap_cons, !elem_of_cons, IH. reflexivity.
Qed.

Lemma keep_last_NoDup (l : list batchIndex) : NoDup (hash <$> keep_last l).
Proof.
  induction l as [|e l IH]; [apply NoDup_nil_2 |]. simpl.
  case_bool_decide as Hin; [exact IH |].
  rewrite fmap_cons. apply NoDup_cons. split; [| exact IH].
  rewrite keep_last_hashes. exact Hin.
Qed.

Lemma keep_last_pos_sorted (l : list batchIndex) :
  StronglySorted lt (keep_last_pos l).
Proof.
  induction l as [|e l IH]; [constructor |]. simpl.
  assert (Hs : StronglySorted lt (S <$> keep_last_pos l)).
  { clear -IH. induction IH as [|p ps Hps IHps Hall]; [constructor |].
    rewrite fmap_cons. constructor; [exact IHps |].
    apply Forall_fmap. eapply Forall_impl; [exact Hall |].
    intros q Hq. simpl. lia. }
  case_bool_decide; [exact Hs |].
  constructor; [exact Hs |]. apply Forall_fmap, Forall_true. intros q. simpl. lia.
Qed.

Lemma keep_last_latest (l : list batchIndex) :
  Forall2 (latest_at l) (keep_last_pos l) (keep_last l).
Proof.
  induction l as [|e l IH]; [constructor |]. simpl.
  assert (Hs : Forall2 (latest_at (e :: l)) (S <$> keep_last_pos l)
                 (keep_last l)).
  { apply Forall2_fmap_l. eapply Forall2_impl; [exact IH |].
    intros p e' [Hp Hlater]. split; [exact Hp |].
    intros [|q] e'' Hq Hl; [lia |]. apply (Hlater q); [lia | exact Hl]. }
  case_bool_decide as Hin; [exact Hs |].
  constructor; [| exact Hs]. split; [reflexivity |].
  intros [|q] e' Hq Hl Heq; [lia |]. apply Hin. rewrite <- Heq.
  apply list_elem_of_fmap. exists e'. split; [reflexivity |].
  apply list_elem_of_lookup. eauto.
Qed.

(** C1: for every batch, whatever appends built its index, [uniq] returns
    (without panicking) a list [pending] that has exactly one entry for each
    distinct key hash of the index; each entry is the last one appended
    with its hash; and the entries stand in the order of the positions of
    those latest occurrences (the positions [ps] are strictly increasing). *)
Theorem uniq_last_per_hash_in_append_order `{MemOps} (b : Batch) :
  exists (pending : list batchIndex) (ps : list nat),
    uniq b = Returns pending /\
    NoDup (hash <$> pending) /\
    (forall h, h ∈ hash <$> pending <-> h ∈ hash <$> index b) /\
    StronglySorted lt ps /\
    Forall2 (latest_at (index b)) ps pending.
Proof.
  exists (keep_last (index b)), (keep_last_pos (index b)).
  split; [apply uniq_keep_last |].
  split; [apply keep_last_NoDup |].
  split; [apply keep_last_hashes |].
  split; [apply keep_last_pos_sorted | apply keep_last_latest].
Qed.

End UniqFacts.

(** ** Appending and staging *)

Module StagingFacts.
Import Index Batch Staging.

Section WithCollaborators.
Context `{Consts} `{MemOps} `{DBOps}.

Lemma grow_frame (n : nat) (b : Batch) :
  data (grow n b) = data b /\ index (grow n b) = index b /\
  firstKeyHash (grow n b) = firstKeyHash b /\ mem (grow n b) = mem b.
Proof. unfold grow. destruct (_ <? _)%nat; auto. Qed.

(** [appendRec] never writes [firstKeyHash]. *)
Lemma appendRec_firstKeyHash (dFlag : bool) (expiresAt : Z)
    (key value : list byte) (b b' : Batch) :
  appendRec dFlag expiresAt key value b = Returns b' ->
  firstKeyHash b' = firstKeyHash b /\ length (index b') = S (length (index b)).
Proof.
  unfold appendRec. remember (grow _ b) as g eqn:Hg.
  assert (Hfr : index g = index b /\ firstKeyHash g = firstKeyHash b)
    by (subst g; split; apply grow_frame).
  destruct Hfr as [Hi Hf]. clear Hg.
  destruct (mem g) as [m|]; simpl; [| discriminate].
  destruct (negb dFlag); intros [= <-]; simpl;
    rewrite length_app, Hi; simpl; split; (exact Hf || lia).
Qed.

(** C7: [mput] checks the key and the value before it touches the memdb:
    an empty key gives [errKeyEmpty]; otherwise a key longer than
    [MaxKeyLength] gives [errKeyTooLarge]; otherwise a value longer than
    [MaxValueLength] gives [errValueTooLarge]; and in each case the batch
    that comes back, with its memdb (table, staged entries and [seq]), is
    the one that went in. *)
Theorem mput_validation_errors (dFlag : bool) (h expiresAt : Z)
    (key value : list byte) (b : Batch) :
  (length key = 0%nat ->
   mput dFlag h expiresAt key value b = Returns (Some errKeyEmpty, b)) /\
  (length key <> 0%nat -> MaxKeyLength < Z.of_nat (length key) ->
   mput dFlag h expiresAt key value b = Returns (Some errKeyTooLarge, b)) /\
  (length key <> 0%nat -> Z.of_nat (length key) <= MaxKeyLength ->
   MaxValueLength < Z.of_nat (length value) ->
   mput dFlag h expiresAt key value b = Returns (Some errValueTooLarge, b)).
Proof.
  unfold mput. split; [| split].
  - intros ->. reflexivity.
  - intros Hne Hlong.
    destruct (Nat.eqb_spec (length key) 0) as [|_]; [contradiction |].
    destruct (Z.ltb_spec MaxKeyLength (Z.of_nat (length key))); [reflexivity | lia].
  - intros Hne Hkey Hlong.
    destruct (Nat.eqb_spec (length key) 0) as [|_]; [contradiction |].
    destruct (Z.ltb_spec MaxKeyLength (Z.of_nat (length key))); [lia |].
    destruct (Z.ltb_spec MaxValueLength (Z.of_nat (length value)));
      [reflexivity | lia].
Qed.

(** What one call of [mput] does to the memdb and to the batch. *)
Lemma mput_inv (d : bool) (h e : Z) (key val : list byte) (b b' : Batch)
    (m : Mem.memdb) (err : option error) :
  mem b = Some m -> 0 <= Mem.seq m < 2 ^ 64 ->
  mput d h e key val b = Returns (err, b') ->
  data b' = data b /\ index b' = index b /\ batchSeq b' = batchSeq b /\
  exists m' extra,
    mem b' = Some m' /\ Mem.staged m' = Mem.staged m ++ extra /\
    match err with
    | None =>
        exists k, extra = [Mem.mkStaged h k val e] /\
          Codec.parseInternalKey k =
            (key, wrap64 (Mem.seq m + 1), d, wrap32 e, None) /\
          wrap64 (Mem.seq m + 1) <= Codec.keyMaxSeq /\
          Mem.seq m' = wrap64 (Mem.seq m + 1) /\
          firstKeyHash b' = (if firstKeyHash b =? 0 then h else firstKeyHash b)
    | Some _ =>
        (length extra <= 1)%nat /\ Mem.seq m' = Mem.seq m /\
        firstKeyHash b' = firstKeyHash b
    end.
Proof.
  intros Hm Hseq. unfold mput.
  assert (Hsame : forall er, Returns (Some er, b) = Returns (err, b') ->
    data b' = data b /\ index b' = index b /\ batchSeq b' = batchSeq b /\
    exists m' extra, mem b' = Some m' /\
      Mem.staged m' = Mem.staged m ++ extra /\
      match err with
      | None => exists k, extra = [Mem.mkStaged h k val e] /\
          Codec.parseInternalKey k =
            (key, wrap64 (Mem.seq m + 1), d, wrap32 e, None) /\
          wrap64 (Mem.seq m + 1) <= Codec.keyMaxSeq /\
          Mem.seq m' = wrap64 (Mem.seq m + 1) /\
          firstKeyHash b' = (if firstKeyHash b =? 0 then h else firstKeyHash b)
      | Some _ => (length extra <= 1)%nat /\ Mem.seq m' = Mem.seq m /\
                  firstKeyHash b' = firstKeyHash b
      end).
  { intros er [= <- <-]. repeat split; try reflexivity.
    exists m, []. rewrite app_nil_r. simpl. repeat split; auto. }
  destruct (length key =? 0)%nat; [apply Hsame |].
  destruct (MaxKeyLength <? _); [apply Hsame |].
  destruct (MaxValueLength <? _); [apply Hsame |].
  clear Hsame. rewrite Hm. simpl.
  destruct (Codec.makeInternalKey [] key (wrap64 (Mem.seq m + 1)) d e)
    as [k|] eqn:Hk; simpl; [| discriminate].
  apply CodecFacts.parse_makeInternalKey in Hk as [Hle Hparse];
    [| apply Z.mod_pos_bound; lia].
  destruct (mem_put h k val e (Mem.tbl m)) as [perr t] eqn:Hput.
  destruct perr as [pe|]; simpl.
  { intros [= <- <-]. simpl. repeat split.
    eexists _, []. rewrite app_nil_r. simpl. repeat split; auto. }
  destruct (if mem_overloaded t then mem_split t else (None, t))
    as [serr t'] eqn:Hsplit.
  destruct serr as [se|]; simpl.
  { intros [= <- <-]. simpl. repeat split.
    eexists _, [_]. simpl. repeat split; auto. }
  intros [= <- <-].
  assert (Hfr : forall b0 v, data (set_mem v b0) = data b0 /\
            index (set_mem v b0) = index b0 /\
            batchSeq (set_mem v b0) = batchSeq b0 /\
            firstKeyHash (set_mem v b0) = firstKeyHash b0) by (intros; auto).
  destruct (firstKeyHash b =? 0) eqn:Hf; simpl; repeat split;
    eexists _, [_]; simpl; (split; [reflexivity |]); (split; [reflexivity |]);
    exists k; rewrite ?Hf; repeat split; auto.
Qed.

(** The staging loop: what is in the memdb when the loop returns, with or
    without an error. *)
Lemma writeLoop_inv (pending : list batchIndex) :
  forall (i : nat) (b b' : Batch) (m : Mem.memdb) (err : option error),
  mem b = Some m -> 0 <= Mem.seq m < 2 ^ 64 ->
  writeLoop stage i pending b = Returns (err, b') ->
  data b' = data b /\ index b' = index b /\ batchSeq b' = batchSeq b /\
  exists m' new extra,
    mem b' = Some m' /\
    Mem.staged m' = Mem.staged m ++ new ++ extra /\
    stages_from (data b) (wrap64 (Mem.seq m + 1)) pending new /\
    Mem.seq m' = match new with
                 | [] => Mem.seq m
                 | _ => wrap64 (Mem.seq m + 1) + Z.of_nat (length new) - 1
                 end /\
    match err with
    | None => length new = length pending /\ extra = []
    | Some _ => (length new < length pending)%nat /\ (length extra <= 1)%nat
    end.
Proof.
  induction pending as [|x rest IH]; intros i b b' m err Hm Hseq Hrun.
  { simpl in Hrun. injection Hrun as <- <-. repeat split.
    exists m, [], []. rewrite app_nil_r. repeat split; auto.
    intros j p Hj. discriminate. }
  simpl in Hrun.
  destruct (kv x (data b)) as [[key val]|] eqn:Hkv; simpl in Hrun;
    [| discriminate].
  destruct (stage i (delFlag x) (hash x) (expiresAt x) key val b)
    as [[e1 b1]| |] eqn:Hput; simpl in Hrun; try discriminate.
  unfold stage in Hput.
  destruct (mput_inv _ _ _ _ _ _ _ _ _ Hm Hseq Hput)
    as (Hd1 & Hi1 & Hb1 & m1 & extra1 & Hm1 & Hst1 & Hcase).
  destruct e1 as [e1|]; simpl in Hrun.
  { injection Hrun as <- <-. destruct Hcase as (Hlen & Hsq & _).
    repeat split; try assumption.
    exists m1, [], extra1. simpl. repeat split; try assumption.
    - intros j p Hj. discriminate.
    - lia. }
  destruct Hcase as (k & -> & Hparse & Hle & Hsq1 & _).
  set (s := wrap64 (Mem.seq m + 1)) in *.
  assert (Hs : 0 <= s < 2 ^ 64) by (apply Z.mod_pos_bound; lia).
  assert (Hkm : Codec.keyMaxSeq = 2 ^ 56 - 1) by reflexivity.
  assert (Hs1 : wrap64 (s + 1) = s + 1)
    by (unfold wrap64; apply Z.mod_small; lia).
  rewrite <- Hsq1 in Hs.
  destruct (IH _ _ _ _ _ Hm1 Hs Hrun)
    as (Hd & Hi & Hb & m' & new & extra & Hm' & Hst & Hfrom & Hsq & Herr).
  rewrite Hsq1, Hs1 in *.
  split; [congruence |]. split; [congruence |]. split; [congruence |].
  exists m', (Mem.mkStaged (hash x) k val (expiresAt x) :: new), extra.
  split; [exact Hm' |].
  split; [rewrite Hst, Hst1, <- !app_assoc; reflexivity |].
  split.
  { intros [|j] p Hj; simpl in Hj.
    - injection Hj as <-. exists x. split; [reflexivity |].
      exists key, val. rewrite Z.add_0_r. simpl. auto.
    - destruct (Hfrom j p Hj) as (y & Hy & Hstage). exists y.
      split; [exact Hy |]. rewrite Hd1 in Hstage.
      replace (s + Z.of_nat (S j)) with (s + 1 + Z.of_nat j) by lia.
      exact Hstage. }
  assert (Hlen : Z.of_nat (length (Mem.mkStaged (hash x) k val (expiresAt x) :: new))
                 = Z.of_nat (length new) + 1) by (simpl; lia).
  rewrite Hlen. split.
  { rewrite Hsq. destruct new; simpl length; lia. }
  destruct err; simpl; [lia |]. destruct Herr as [-> ->]. auto.
Qed.

(** [Write] takes the gate, records [batchSeq], and runs the staging loop
    over the deduplicated entries. *)
Lemma Write_inv (b b' : Batch) (db db' : Db.DB) (m : Mem.memdb)
    (err : option error) :
  mem b = Some m ->
  Write b db = Returns (err, b', db') ->
  Db.writeLockC db = 0%nat /\ Db.writeLockC db' = 1%nat /\
  writeLoop stage 0 (DedupSpec.keep_last (index b)) (set_batchSeq (Mem.seq m) b)
    = Returns (err, b').
Proof.
  intros Hm. unfold Write, Db.send_writeLockC, Db.writeLockC_cap.
  destruct (Db.writeLockC db) as [|n] eqn:Hgate; simpl; [| discriminate].
  rewrite Hm. simpl. unfold writeInternal.
  rewrite UniqFacts.uniq_keep_last. simpl.
  destruct (writeLoop _ _ _ _) as [[e1 b1]| |]; simpl; try discriminate.
  intros [= <- <- <-]. auto.
Qed.

Lemma staged_seq_of_stages (data : list byte) (x : batchIndex) (sq : Z)
    (p : Mem.stagedPut) :
  stages data x sq p -> Mem.staged_seq p = sq.
Proof.
  intros (key & val & _ & _ & _ & _ & Hparse). unfold Mem.staged_seq.
  rewrite Hparse. reflexivity.
Qed.

(** C2: when [Write] returns nil, the deduplicated entries [pending] (what
    [uniq] returns) have all been staged, in order, behind what the memdb
    held before; entry number [j] (from 0) carries the sequence number
    [batchSeq + 1 + j], the addition [batchSeq + 1] being a [uint64] one;
    [batchSeq] is the memdb sequence on entry.  With [batchSeq] below the
    largest [uint64] the numbers are [batchSeq + 1], ..., [batchSeq + m]
    and the memdb sequence ends at [batchSeq + m]. *)
Theorem Write_stages_contiguous_seqs (b b' : Batch) (db db' : Db.DB)
    (m : Mem.memdb) :
  mem b = Some m -> 0 <= Mem.seq m < 2 ^ 64 ->
  Write b db = Returns (None, b', db') ->
  exists pending m' new,
    uniq b = Returns pending /\
    batchSeq b' = Mem.seq m /\
    mem b' = Some m' /\
    Mem.staged m' = Mem.staged m ++ new /\
    length new = length pending /\
    stages_from (data b) (wrap64 (batchSeq b' + 1)) pending new /\
    (forall j p, new !! j = Some p ->
       Mem.staged_seq p = wrap64 (batchSeq b' + 1) + Z.of_nat j) /\
    (batchSeq b' < 2 ^ 64 - 1 ->
       (forall j p, new !! j = Some p ->
          Mem.staged_seq p = batchSeq b' + 1 + Z.of_nat j) /\
       Mem.seq m' = batchSeq b' + Z.of_nat (length pending)).
Proof.
  intros Hm Hseq HW.
  destruct (Write_inv _ _ _ _ _ _ Hm HW) as (_ & _ & Hloop).
  destruct (writeLoop_inv _ _ _ _ _ _ (Hm : mem (set_batchSeq (Mem.seq m) b) = Some m)
              Hseq Hloop)
    as (_ & _ & Hbs & m' & new & extra & Hm' & Hst & Hfrom & Hsq & Hlen & ->).
  simpl in Hbs, Hfrom. rewrite app_nil_r in Hst.
  exists (DedupSpec.keep_last (index b)), m', new.
  rewrite Hbs.
  assert (Hseqs : forall j p, new !! j = Some p ->
            Mem.staged_seq p = wrap64 (Mem.seq m + 1) + Z.of_nat j).
  { intros j p Hj. destruct (Hfrom j p Hj) as (x & _ & Hx).
    exact (staged_seq_of_stages _ _ _ _ Hx). }
  repeat split; try assumption.
  - apply UniqFacts.uniq_keep_last.
  - intros j p Hj. rewrite (Hseqs j p Hj). f_equal.
    unfold wrap64. apply Z.mod_small. lia.
  - rewrite Hsq, <- Hlen.
    assert (wrap64 (Mem.seq m + 1) = Mem.seq m + 1)
      by (unfold wrap64; apply Z.mod_small; lia).
    destruct new; simpl length; lia.
Qed.


(** [mput] writes [firstKeyHash] only on its last step. *)
Lemma mput_firstKeyHash (d : bool) (h e : Z) (key val : list byte)
    (b b' : Batch) (err : option error) :
  mput d h e key val b = Returns (err, b') ->
  firstKeyHash b' =
    match err with
    | None => if firstKeyHash b =? 0 then h else firstKeyHash b
    | Some _ => firstKeyHash b
    end.
Proof.
  unfold mput.
  destruct (length key =? 0)%nat; [intros [= <- <-]; reflexivity |].
  destruct (MaxKeyLength <? _); [intros [= <- <-]; reflexivity |].
  destruct (MaxValueLength <? _); [intros [= <- <-]; reflexivity |].
  destruct (mem b) as [m|]; simpl; [| discriminate].
  destruct (Codec.makeInternalKey _ _ _ _ _) as [k|]; simpl; [| discriminate].
  destruct (mem_put h k val e (Mem.tbl m)) as [[pe|] t]; simpl;
    [intros [= <- <-]; reflexivity |].
  destruct (if mem_overloaded t then mem_split t else (None, t))
    as [[se|] t']; simpl; [intros [= <- <-]; reflexivity |].
  intros [= <- <-]. destruct (firstKeyHash b =? 0); reflexivity.
Qed.

(** Once set, [firstKeyHash] survives the staging loop. *)
Lemma writeLoop_firstKeyHash (pending : list batchIndex) :
  forall (i : nat) (b b' : Batch) (err : option error),
  firstKeyHash b <> 0 ->
  writeLoop stage i pending b = Returns (err, b') ->
  firstKeyHash b' = firstKeyHash b.
Proof.
  induction pending as [|x rest IH]; intros i b b' err Hnz Hrun; simpl in Hrun.
  { injection Hrun as <- <-. reflexivity. }
  destruct (kv x (data b)) as [[key val]|]; simpl in Hrun; [| discriminate].
  destruct (stage i (delFlag x) (hash x) (expiresAt x) key val b)
    as [[e1 b1]| |] eqn:Hput; simpl in Hrun; try discriminate.
  apply mput_firstKeyHash in Hput.
  assert (Hb1 : firstKeyHash b1 = firstKeyHash b).
  { destruct e1; [exact Hput |].
    destruct (Z.eqb_spec (firstKeyHash b) 0); [contradiction | exact Hput]. }
  destruct e1 as [e1|]; simpl in Hrun.
  - injection Hrun as <- <-. exact Hb1.
  - assert (Hnz1 : firstKeyHash b1 <> 0) by congruence.
    rewrite <- Hb1. exact (IH _ _ _ _ Hnz1 Hrun).
Qed.

(** C8 (amended): [appendRec] leaves [firstKeyHash] as it is, so appends
    alone never set it.  It is [mput] that sets [firstKeyHash] to the hash
    it stages whenever [firstKeyHash] is currently 0 and the staging
    succeeds, and leaves it alone otherwise.  Hence after a [Write] that
    returns nil on a batch whose [firstKeyHash] was 0, [firstKeyHash] is
    the hash of the first deduplicated entry when that hash is not 0. *)
Theorem firstKeyHash_set_when_staging :
  (forall dFlag expiresAt key value (b b' : Batch),
     appendRec dFlag expiresAt key value b = Returns b' ->
     firstKeyHash b' = firstKeyHash b) /\
  (forall dFlag h expiresAt key value (b b' : Batch),
     mput dFlag h expiresAt key value b = Returns (None, b') ->
     firstKeyHash b' = if firstKeyHash b =? 0 then h else firstKeyHash b) /\
  (forall dFlag h expiresAt key value (b b' : Batch) err,
     mput dFlag h expiresAt key value b = Returns (Some err, b') ->
     firstKeyHash b' = firstKeyHash b) /\
  (forall (b b' : Batch) (db db' : Db.DB) x rest,
     firstKeyHash b = 0 -> uniq b = Returns (x :: rest) -> hash x <> 0 ->
     Write b db = Returns (None, b', db') ->
     firstKeyHash b' = hash x).
Proof.
  split; [| split; [| split]].
  - intros dFlag expiresAt key value b b' Happ.
    apply (appendRec_firstKeyHash _ _ _ _ _ _ Happ).
  - intros dFlag h expiresAt key value b b' Hput.
    apply (mput_firstKeyHash _ _ _ _ _ _ _ _ Hput).
  - intros dFlag h expiresAt key value b b' err Hput.
    apply (mput_firstKeyHash _ _ _ _ _ _ _ _ Hput).
  - intros b b' db db' x rest Hz Huniq Hx HW.
    destruct (mem b) as [m|] eqn:Hm.
    2:{ unfold Write in HW. destruct (Db.send_writeLockC db); simpl in HW;
          try discriminate. rewrite Hm in HW. discriminate. }
    destruct (Write_inv _ _ _ _ _ _ Hm HW) as (_ & _ & Hloop).
    rewrite UniqFacts.uniq_keep_last in Huniq. injection Huniq as Huniq.
    rewrite Huniq in Hloop. simpl in Hloop.
    destruct (kv x _) as [[key val]|]; simpl in Hloop; [| discriminate].
    destruct (stage 0 (delFlag x) (hash x) (expiresAt x) key val _)
      as [[e1 b1]| |] eqn:Hput; simpl in Hloop; try discriminate.
    apply mput_firstKeyHash in Hput. simpl in Hput.
    destruct e1 as [e1|]; simpl in Hloop; [discriminate |].
    rewrite Hz in Hput. simpl in Hput.
    assert (Hnz1 : firstKeyHash b1 <> 0) by congruence.
    rewrite (writeLoop_firstKeyHash _ _ _ _ _ Hnz1 Hloop).
    exact Hput.
Qed.

End WithCollaborators.

(** C7 run with [MaxKeyLength = 2] and [MaxValueLength = 1]: an empty key,
    a key of three bytes, and a one-byte key with a value of two bytes. *)
Lemma mput_validation_errors_witness :
  mput (H := Example.tiny_consts) false 0 0 [] Example.val_1 Example.batch0 =
    Returns (Some errKeyEmpty, Example.batch0) /\
  mput (H := Example.tiny_consts) false 97 0 Example.long_key Example.val_1
       Example.batch0 = Returns (Some errKeyTooLarge, Example.batch0) /\
  mput (H := Example.tiny_consts) false 97 0 Example.key_a Example.long_val
       Example.batch0 = Returns (Some errValueTooLarge, Example.batch0).
Proof.
  split; [| split].
  - apply (mput_validation_errors (H := Example.tiny_consts)
             false 0 0 [] Example.val_1 Example.batch0).
    reflexivity.
  - apply (mput_validation_errors (H := Example.tiny_consts)
             false 97 0 Example.long_key Example.val_1 Example.batch0).
    + simpl. lia.
    + simpl. lia.
  - apply (mput_validation_errors (H := Example.tiny_consts)
             false 97 0 Example.key_a Example.long_val Example.batch0).
    + simpl. lia.
    + simpl. lia.
    + simpl. lia.
Defined.

(** C2 on the example instance: Put("a","1"); Put("b","2"); Write on a
    fresh memdb stages two entries with the sequence numbers 1 and 2. *)
Lemma Write_stages_contiguous_seqs_witness :
  exists m' new,
    Write Example.batch_ab Example.db0 =
      Returns (None, fst Example.written_ab, snd Example.written_ab) /\
    mem (fst Example.written_ab) = Some m' /\
    Mem.staged m' = new /\ length new = 2%nat /\
    Mem.seq m' = 2 /\
    forall j p, new !! j = Some p -> Mem.staged_seq p = 1 + Z.of_nat j.
Proof.
  assert (HW : Write Example.batch_ab Example.db0 =
                 Returns (None, fst Example.written_ab, snd Example.written_ab))
    by reflexivity.
  destruct (Write_stages_contiguous_seqs Example.batch_ab _ Example.db0 _
              Example.mem0 eq_refl ltac:(simpl; lia) HW)
    as (pending & m' & new & Hu & Hbs & Hm' & Hst & Hlen & _ & _ & Hexact).
  rewrite UniqFacts.uniq_keep_last in Hu. injection Hu as <-.
  rewrite Hbs in Hexact.
  destruct (Hexact ltac:(simpl; lia)) as [Hseqs Hfinal].
  exists m', new. repeat split; assumption.
Defined.


(** C8, the claim as stated, fails: after Put("a","1") on a fresh batch the
    hash of the first appended key is 97 and [firstKeyHash] is still 0. *)
Lemma appendRec_firstKeyHash_counterexample :
  Put Example.key_a Example.val_1 Example.batch0 = Returns Example.batch_a /\
  mem_hash (Mem.tbl Example.mem0) Example.key_a = 97 /\
  firstKeyHash Example.batch_a = 0.
Proof. repeat split; reflexivity. Qed.

(** C8 (amended) on the example instance: Put("a","1") leaves
    [firstKeyHash] at 0; staging hash 97 sets it; a refused empty key
    leaves it; Write on Put("a","1"); Put("b","2") leaves it at 97. *)
Lemma firstKeyHash_set_when_staging_witness :
  firstKeyHash Example.batch_a = firstKeyHash Example.batch0 /\
  firstKeyHash Example.staged_a = 97 /\
  firstKeyHash Example.batch0 = 0 /\
  firstKeyHash (fst Example.written_ab) = 97.
Proof.
  destruct (firstKeyHash_set_when_staging (H := Example.consts))
    as (Happ & Hok & Herr & Hwrite).
  split; [| split; [| split]].
  - apply (Happ false 0 Example.key_a Example.val_1 Example.batch0
             Example.batch_a).
    reflexivity.
  - apply (Hok false 97 0 Example.key_a Example.val_1 Example.batch0
             Example.staged_a).
    reflexivity.
  - symmetry.
    apply (Herr false 97 0 Example.key_empty Example.val_1 Example.batch0
             Example.batch0 errKeyEmpty).
    reflexivity.
  - apply (Hwrite Example.batch_ab (fst Example.written_ab) Example.db0
             (snd Example.written_ab)
             (mkIndex false 97 1 1 0 1) [mkIndex false 98 1 1 0 4]).
    + reflexivity.
    + reflexivity.
    + simpl. lia.
    + reflexivity.
Defined.

End StagingFacts.

(** ** The commit walk *)

Module CommitFacts.
Import Index Batch Walk.

Section WithCollaborators.
Context `{Consts} `{MemOps} `{DBOps}.

(** A sequence number read out of an internal key has 56 bits. *)
Lemma parseInternalKey_seq_range (ik key : list byte) (sq : Z) (d : bool)
    (e : Z) (err : option error) :
  Codec.parseInternalKey ik = (key, sq, d, e, err) -> 0 <= sq < 2 ^ 56.
Proof.
  unfold Codec.parseInternalKey. destruct (_ <? _)%nat.
  - intros [= _ <- _ _ _]. lia.
  - intros [= _ <- _ _ _]. unfold Uint64.
    set (bs := take 8 _).
    pose proof (le_combine_bound bs) as Hb.
    assert (Hlen : (length bs <= 8)%nat) by (unfold bs; rewrite length_take; lia).
    assert (Hpow : 2 ^ (8 * Z.of_nat (length bs)) <= 2 ^ 64)
      by (apply Z.pow_le_mono_r; lia).
    rewrite Z.shiftr_div_pow2 by lia. change (2 ^ 8) with 256.
    split; [apply Z.div_pos; lia |].
    apply Z.div_lt_upper_bound; lia.
Qed.

(** [forEachBucket] keeps whatever every call of the callback keeps. *)
Lemma forEachBucket_inv {S : Type} (P : S -> Prop)
    (cb : Bucket.bucketHandle -> S -> outcome (bool * option error * S))
    (chain : list (error + Bucket.bucketHandle)) :
  (forall bh s stop err s', P s -> cb bh s = Returns (stop, err, s') -> P s') ->
  forall s err s', P s -> forEachBucket chain cb s = Returns (err, s') -> P s'.
Proof.
  intros Hcb. induction chain as [|[e|bh] rest IH]; intros s err s' Hs; simpl.
  - intros [= _ <-]. exact Hs.
  - intros [= _ <-]. exact Hs.
  - destruct (cb bh s) as [[[stop e1] s1]| |] eqn:Hc; simpl; try discriminate.
    pose proof (Hcb _ _ _ _ _ Hs Hc) as Hs1.
    destruct (stop || is_err e1).
    + intros [= _ <-]. exact Hs1.
    + apply IH. exact Hs1.
Qed.

(** When the callback stops on the first handle, the walk of the chain
    ends there with the callback's error. *)
Lemma forEachBucket_stop {S : Type}
    (cb : Bucket.bucketHandle -> S -> outcome (bool * option error * S))
    (bh : Bucket.bucketHandle) (rest : list (error + Bucket.bucketHandle))
    (s s' : S) (err : option error) :
  cb bh s = Returns (true, err, s') ->
  forEachBucket (inr bh :: rest) cb s = Returns (err, s').
Proof. intros Hcb. simpl. rewrite Hcb. reflexivity. Qed.

(** *** The walk never writes the gate, the mutex flag or the metrics *)

Lemma same_frame_refl (d : Db.DB) : same_frame d d.
Proof. unfold same_frame. auto. Qed.

Lemma same_frame_trans (d1 d2 d3 : Db.DB) :
  same_frame d1 d2 -> same_frame d2 d3 -> same_frame d1 d3.
Proof. unfold same_frame. intuition congruence. Qed.

Lemma same_frame_set_store (st : dbstore) (d : Db.DB) :
  same_frame (Db.set_store st d) d.
Proof. unfold same_frame. simpl. auto. Qed.

Lemma same_frame_set_count (c : Z) (d : Db.DB) :
  same_frame (Db.set_count c d) d.
Proof. unfold same_frame. simpl. auto. Qed.

Ltac frame_step :=
  match goal with
  | |- same_frame (wdb (set_wstore _ _)) _ =>
      eapply same_frame_trans; [apply same_frame_set_store |]; simpl
  | |- same_frame (wdb (set_wcount _ _)) _ =>
      eapply same_frame_trans; [apply same_frame_set_count |]; simpl
  | |- same_frame (Db.set_store _ _) _ =>
      eapply same_frame_trans; [apply same_frame_set_store |]; simpl
  | |- same_frame (Db.set_count _ _) _ =>
      eapply same_frame_trans; [apply same_frame_set_count |]; simpl
  | |- same_frame ?d ?d => apply same_frame_refl
  end.

Ltac frame := simpl; repeat frame_step; try assumption.

Lemma commit_delete_frame (hash : Z) (key : list byte) (w : walk)
    (r : flow walk) :
  commit_delete hash key w = Returns r ->
  same_frame (wdb (flow_state r)) (wdb w).
Proof.
  unfold commit_delete.
  destruct (negb _); [intros [= <-]; frame |].
  destruct (forEachBucket _ _ _) as [[e [b0 idx]]| |]; simpl;
    try discriminate.
  destruct (_ || _); [intros [= <-]; frame |].
  destruct (bh_write _ _) as [e1 st]. simpl.
  destruct (is_err e1); intros [= <-]; frame.
Qed.

Lemma put_scan_cb_frame (hash : Z) (key : list byte)
    (curb : Bucket.bucketHandle) (w w' : walk) (stop : bool)
    (err : option error) :
  put_scan_cb hash key curb w = Returns (stop, err, w') ->
  same_frame (wdb w') (wdb w).
Proof.
  unfold put_scan_cb.
  destruct (put_scan_slots _ _ _ _ _ _ _) as [[[stop1 err1]|] idx]; simpl.
  { intros [= _ _ <-]. frame. }
  destruct (Bucket.next curb =? 0); [| intros [= _ _ <-]; frame].
  destruct (createOverflowBucket _) as [[nb e1] st]. simpl.
  destruct (is_err e1); [intros [= _ _ <-]; frame |].
  destruct nb as [nb|]; simpl; [| discriminate].
  intros [= _ _ <-]. frame.
Qed.

Lemma commit_put_frame (hash : Z) (key value : list byte) (expiresAt : Z)
    (w : walk) (deferred : list (Z * Z)) (r : flow (walk * list (Z * Z))) :
  commit_put hash key value expiresAt (w, deferred) = Returns r ->
  same_frame (wdb (fst (flow_state r))) (wdb w).
Proof.
  unfold commit_put.
  destruct (forEachBucket _ _ _) as [[e w1]| |] eqn:Hscan; simpl;
    try discriminate.
  assert (Hw1 : same_frame (wdb w1) (wdb w)).
  { revert Hscan.
    apply (forEachBucket_inv (fun w' => same_frame (wdb w') (wdb w))).
    - intros bh0 s stop err s' Hs Hcb.
      eapply same_frame_trans; [exact (put_scan_cb_frame _ _ _ _ _ _ _ Hcb) |].
      exact Hs.
    - frame. }
  destruct (is_err e); [intros [= <-]; frame |].
  destruct (bh w1) as [b0|]; simpl; [| discriminate].
  destruct (_ && _); [intros [= <-]; frame |].
  destruct (data_writeKeyValue _ _ _) as [[off e1] st]. simpl.
  destruct (is_err e1);
    [intros [= <-]; frame; destruct (Bucket.kvOffset _ =? 0); frame |].
  destruct (bh_write _ _) as [e2 st2]. simpl.
  destruct (is_err e2);
    [intros [= <-]; frame; destruct (Bucket.kvOffset _ =? 0); frame |].
  destruct (match originalB _ with Some _ => _ | None => _ end) as [e3 st3].
  simpl.
  destruct (is_err e3); intros [= <-]; frame;
    destruct (Bucket.kvOffset _ =? 0); frame.
Qed.

Lemma commit_slot_frame (b : Batch) (m : Mem.memdb)
    (memb : Bucket.bucketHandle) (i : nat) (s : walk * list (Z * Z))
    (r : flow (walk * list (Z * Z))) :
  commit_slot b m memb i s = Returns r ->
  same_frame (wdb (fst (flow_state r))) (wdb (fst s)).
Proof.
  unfold commit_slot.
  destruct (Bucket.kvOffset _ =? 0); [intros [= <-]; frame |].
  destruct (mem_readKeyValue _ _) as [[ik value] e].
  destruct (bool_decide _); [intros [= <-]; frame |].
  destruct (is_err e); [intros [= <-]; frame |].
  destruct (Codec.parseInternalKey ik) as [[[[key sq] d] ex] e1].
  destruct (is_err e1); [intros [= <-]; frame |].
  destruct (sq <=? _); [intros [= <-]; frame |].
  destruct (_ <? sq); [intros [= <-]; frame |].
  destruct d.
  - destruct (commit_delete _ _ _) as [r0| |] eqn:Hdel; simpl;
      try discriminate.
    apply commit_delete_frame in Hdel.
    destruct r0; intros [= <-]; exact Hdel.
  - destruct s as [w deferred]. apply commit_put_frame.
Qed.

Lemma commit_slots_frame (b : Batch) (m : Mem.memdb)
    (memb : Bucket.bucketHandle) (n : nat) :
  forall (i : nat) (s s' : walk * list (Z * Z)) stop err,
  commit_slots b m memb i n s = Returns (stop, err, s') ->
  same_frame (wdb (fst s')) (wdb (fst s)).
Proof.
  induction n as [|n IH]; intros i s s' stop err; simpl.
  { intros [= _ _ <-]. frame. }
  destruct (commit_slot b m memb i s) as [r| |] eqn:Hslot; simpl;
    try discriminate.
  apply commit_slot_frame in Hslot.
  destruct r as [s1 | stop1 err1 s1]; simpl in Hslot.
  - intros Hrest. eapply same_frame_trans; [exact (IH _ _ _ _ _ Hrest) |].
    exact Hslot.
  - intros [= _ _ <-]. exact Hslot.
Qed.

Lemma run_deferred_frame (deferred : list (Z * Z)) :
  forall w, same_frame (wdb (run_deferred deferred w)) (wdb w).
Proof.
  unfold run_deferred.
  induction deferred as [|a rest IH]; intros w; simpl; [frame |].
  eapply same_frame_trans; [apply IH |]. frame.
Qed.

Lemma commit_cb_frame (b : Batch) (m : Mem.memdb)
    (memb : Bucket.bucketHandle) (w w' : walk) stop err :
  commit_cb b m memb w = Returns (stop, err, w') ->
  same_frame (wdb w') (wdb w).
Proof.
  unfold commit_cb.
  destruct (commit_slots _ _ _ _ _ _) as [[[stop1 err1] s1]| |] eqn:Hs;
    simpl; try discriminate.
  intros [= _ _ <-]. apply commit_slots_frame in Hs.
  eapply same_frame_trans; [apply run_deferred_frame | exact Hs].
Qed.

(** The loop over the buckets keeps the frame and never hands
    [errBatchSeqComplete] on. *)
Lemma commit_buckets_inv (b : Batch) (m : Mem.memdb) (n : nat) :
  forall (bucketIdx : Z) (w w' : walk) (err : option error),
  commit_buckets b m n bucketIdx w = Returns (err, w') ->
  same_frame (wdb w') (wdb w) /\ err <> Some errBatchSeqComplete.
Proof.
  induction n as [|n IH]; intros bucketIdx w w' err; simpl.
  { intros [= <- <-]. split; [frame | discriminate]. }
  destruct (forEachBucket _ _ _) as [[e w1]| |] eqn:Hwalk; simpl;
    try discriminate.
  assert (Hw1 : same_frame (wdb w1) (wdb w)).
  { revert Hwalk.
    apply (forEachBucket_inv (fun w' => same_frame (wdb w') (wdb w))).
    - intros bh0 s stop err0 s' Hs Hcb.
      eapply same_frame_trans; [exact (commit_cb_frame _ _ _ _ _ _ _ Hcb) |].
      exact Hs.
    - frame. }
  case_bool_decide as Hsig.
  { intros [= <- <-]. split; [exact Hw1 | discriminate]. }
  destruct (is_err e).
  { intros [= <- <-]. split; [exact Hw1 | exact Hsig]. }
  intros Hrest. destruct (IH _ _ _ _ Hrest) as [Hfr Herr].
  split; [eapply same_frame_trans; eassumption | exact Herr].
Qed.

(** What a call of [commit] that returns has done to the frame: the gate
    and the mutex flag are as before; when the walk ended without an error
    to return, the counters of the walk were added to the metrics. *)
Lemma commit_inv (b : Batch) (db db' : Db.DB) (err : option error) :
  commit b db = Returns (err, db') ->
  Db.writeLockC db' = Db.writeLockC db /\
  exists (m : Mem.memdb) (w : walk) (werr : option error),
    mem b = Some m /\
    commit_buckets b m
      (Z.to_nat (mem_nBuckets (Mem.tbl m) -
                 mem_bucketIndex (Mem.tbl m) (firstKeyHash b)))
      (mem_bucketIndex (Mem.tbl m) (firstKeyHash b))
      (mkWalk 0 0 None None 0 db) = Returns (werr, w) /\
    werr <> Some errBatchSeqComplete /\
    match werr with
    | Some e => err = Some e /\ db' = wdb w
    | None =>
        Db.Dels db' = Db.Dels db + delCount w /\
        Db.Puts db' = Db.Puts db + putCount w /\
        Db.count db' = Db.count (wdb w) /\
        (if Db.syncWrites db
         then err = fst (db_sync (Db.store (wdb w)))
         else err = None /\ Db.store db' = Db.store (wdb w))
    end.
Proof.
  unfold commit. destruct (Db.mu db); [discriminate |].
  destruct (mem b) as [m|]; simpl; [| discriminate].
  destruct (commit_buckets _ _ _ _ _) as [[werr w]| |] eqn:Hwalk; simpl;
    try discriminate.
  destruct (commit_buckets_inv _ _ _ _ _ _ _ Hwalk) as [Hfr Hne].
  simpl in Hfr. destruct Hfr as (Hgate & Hmu & Hsync & Hdels & Hputs).
  destruct werr as [e|]; simpl.
  { intros [= <- <-]. split; [exact Hgate |].
    exists m, w, (Some e). auto. }
  rewrite Hsync.
  destruct (Db.syncWrites db).
  - destruct (db_sync _) as [e st] eqn:Hs. intros [= <- <-]. simpl.
    split; [exact Hgate |]. exists m, w, None.
    repeat split; try congruence. rewrite Hs. reflexivity.
  - intros [= <- <-]. simpl. split; [exact Hgate |]. exists m, w, None.
    repeat split; try congruence.
Qed.

(** *** The sequence window of the walk *)

Lemma commit_slot_skipped (b : Batch) (m : Mem.memdb)
    (memb : Bucket.bucketHandle) (i : nat) (s : walk * list (Z * Z)) :
  skipped b m (Bucket.get memb i) ->
  commit_slot b m memb i s = Returns (Next s).
Proof.
  intros (key & value & sq & d & ex & (Hocc & ik & Hread & Hparse) & Hle).
  unfold commit_slot.
  destruct (Z.eqb_spec (Bucket.kvOffset (Bucket.get memb i)) 0);
    [contradiction |].
  rewrite Hread. rewrite bool_decide_eq_false_2 by discriminate. simpl.
  rewrite Hparse. simpl.
  destruct (Z.leb_spec sq (batchSeq b)); [reflexivity | lia].
Qed.

Lemma commit_slot_beyond (b : Batch) (m : Mem.memdb)
    (memb : Bucket.bucketHandle) (i : nat) (s : walk * list (Z * Z)) :
  0 <= batchSeq b ->
  beyond b m (Bucket.get memb i) ->
  commit_slot b m memb i s = Returns (Ret true (Some errBatchSeqComplete) s).
Proof.
  intros Hbs (key & value & sq & d & ex & (Hocc & ik & Hread & Hparse) & Hgt).
  pose proof (parseInternalKey_seq_range _ _ _ _ _ _ Hparse) as Hrange.
  unfold commit_slot.
  destruct (Z.eqb_spec (Bucket.kvOffset (Bucket.get memb i)) 0);
    [contradiction |].
  rewrite Hread. rewrite bool_decide_eq_false_2 by discriminate. simpl.
  rewrite Hparse. simpl.
  destruct (Z.leb_spec sq (batchSeq b)); [lia |].
  unfold wrap64. rewrite Z.mod_small by lia.
  destruct (Z.ltb_spec (batchSeq b + Z.of_nat (Len b)) sq); [reflexivity | lia].
Qed.

(** Slots that are skipped, then a slot beyond the window: the loop over
    the slots returns the signal with the state it started from. *)
Lemma commit_slots_skip_then_beyond (b : Batch) (m : Mem.memdb)
    (memb : Bucket.bucketHandle) (k : nat) :
  forall (i n : nat) (s : walk * list (Z * Z)),
  0 <= batchSeq b -> (k < n)%nat ->
  (forall j, (j < k)%nat -> skipped b m (Bucket.get memb (i + j))) ->
  beyond b m (Bucket.get memb (i + k)) ->
  commit_slots b m memb i n s = Returns (true, Some errBatchSeqComplete, s).
Proof.
  induction k as [|k IH]; intros i n s Hbs Hn Hskip Hbey;
    (destruct n as [|n]; [lia |]); simpl.
  - rewrite Nat.add_0_r in Hbey.
    rewrite (commit_slot_beyond _ _ _ _ _ Hbs Hbey). reflexivity.
  - pose proof (Hskip 0%nat ltac:(lia)) as H0'. rewrite Nat.add_0_r in H0'.
    rewrite (commit_slot_skipped _ _ _ _ _ H0'). simpl.
    apply IH; [exact Hbs | lia | |].
    + intros j Hj. replace (S i + j)%nat with (i + S j)%nat by lia.
      apply Hskip. lia.
    + replace (S i + k)%nat with (i + S k)%nat by lia. exact Hbey.
Qed.

Lemma commit_buckets_signal (b : Batch) (m : Mem.memdb) (n : nat)
    (bucketIdx : Z) (w w' : walk) :
  forEachBucket (mem_chain (Mem.tbl m) bucketIdx) (commit_cb b m) w =
    Returns (Some errBatchSeqComplete, w') ->
  commit_buckets b m (S n) bucketIdx w = Returns (None, w').
Proof. intros Hwalk. simpl. rewrite Hwalk. reflexivity. Qed.

Lemma add_metrics_0 (db : Db.DB) : Db.add_metrics 0 0 db = db.
Proof. destruct db. unfold Db.add_metrics. simpl. rewrite !Z.add_0_r. reflexivity. Qed.

(** C3: in the commit walk, (1) a memdb slot whose parsed sequence number is
    at most [batchSeq] is passed over: the walk goes on to the next slot
    with its state, the persistent DB included, unchanged; (2) a slot whose
    sequence number is above [batchSeq + Len()] makes the callback return
    [errBatchSeqComplete] at once, again with the state unchanged;
    (3) when the walk of a bucket chain returns [errBatchSeqComplete], the
    loop over the buckets ends there and there is no error to return;
    (4) so when the chain of the first bucket starts with skipped slots
    followed by a slot beyond the window, [commit] returns with the DB as it
    was (and the result of [db.sync()] when [syncWrites] is set); and
    (5) [commit] returns [errBatchSeqComplete] only if [db.sync()] itself
    returned that value. *)
Theorem commit_walk_seq_window (b : Batch) (m : Mem.memdb) :
  0 <= batchSeq b ->
  (forall memb i s,
     skipped b m (Bucket.get memb i) ->
     commit_slot b m memb i s = Returns (Next s)) /\
  (forall memb i n s,
     beyond b m (Bucket.get memb i) ->
     commit_slot b m memb i s = Returns (Ret true (Some errBatchSeqComplete) s) /\
     commit_slots b m memb i (S n) s =
       Returns (true, Some errBatchSeqComplete, s)) /\
  (forall n bucketIdx w w',
     forEachBucket (mem_chain (Mem.tbl m) bucketIdx) (commit_cb b m) w =
       Returns (Some errBatchSeqComplete, w') ->
     commit_buckets b m (S n) bucketIdx w = Returns (None, w')) /\
  (forall db memb rest k,
     mem b = Some m -> Db.mu db = false ->
     mem_bucketIndex (Mem.tbl m) (firstKeyHash b) < mem_nBuckets (Mem.tbl m) ->
     mem_chain (Mem.tbl m) (mem_bucketIndex (Mem.tbl m) (firstKeyHash b)) =
       inr memb :: rest ->
     (k < entriesPerBucket)%nat ->
     (forall j, (j < k)%nat -> skipped b m (Bucket.get memb j)) ->
     beyond b m (Bucket.get memb k) ->
     commit b db =
       Returns (if Db.syncWrites db
                then (fst (db_sync (Db.store db)),
                      Db.set_store (snd (db_sync (Db.store db))) db)
                else (None, db))) /\
  (forall db db',
     commit b db = Returns (Some errBatchSeqComplete, db') ->
     Db.syncWrites db = true /\
     exists st, fst (db_sync st) = Some errBatchSeqComplete).
Proof.
  intros Hbs. split; [| split; [| split; [| split]]].
  - intros memb i s Hskip. apply commit_slot_skipped. exact Hskip.
  - intros memb i n s Hbey. split.
    + apply commit_slot_beyond; assumption.
    + apply (commit_slots_skip_then_beyond b m memb 0);
        [exact Hbs | lia | intros j Hj; lia |].
      rewrite Nat.add_0_r. exact Hbey.
  - intros n bucketIdx w w' Hwalk. apply commit_buckets_signal, Hwalk.
  - intros db memb rest k Hm Hmu Hidx Hchain Hk Hskip Hbey.
    set (w0 := mkWalk 0 0 None None 0 db).
    assert (Hcb : commit_cb b m memb w0 =
                    Returns (true, Some errBatchSeqComplete, w0)).
    { unfold commit_cb.
      rewrite (commit_slots_skip_then_beyond b m memb k 0 entriesPerBucket
                 (w0, []) Hbs Hk Hskip Hbey). reflexivity. }
    pose proof (forEachBucket_stop _ _ rest _ _ _ Hcb) as Hfe.
    rewrite <- Hchain in Hfe.
    unfold commit. rewrite Hmu, Hm. simpl. fold w0.
    destruct (Z.to_nat _) as [|n] eqn:Hn; [lia |].
    rewrite (commit_buckets_signal _ _ _ _ _ _ Hfe).
    simpl. rewrite add_metrics_0.
    destruct (Db.syncWrites db); [| reflexivity].
    destruct (db_sync (Db.store db)) as [e st]. reflexivity.
  - intros db db' Hc.
    destruct (commit_inv _ _ _ _ Hc) as (_ & m0 & w & werr & _ & _ & Hne & Hcase).
    destruct werr as [e|].
    + destruct Hcase as [Heq _]. congruence.
    + destruct Hcase as (_ & _ & _ & Hsync).
      destruct (Db.syncWrites db); [| destruct Hsync; discriminate].
      split; [reflexivity |]. eexists. symmetry. exact Hsync.
Qed.

(** *** The delete counter *)

(** Inside the window, a staged delete is handed to the delete path. *)
Lemma commit_slot_delete (b : Batch) (m : Mem.memdb)
    (memb : Bucket.bucketHandle) (i : nat) (s : walk * list (Z * Z))
    (key : list byte) :
  0 <= batchSeq b -> batchSeq b + Z.of_nat (Len b) < 2 ^ 64 ->
  staged_delete b m (Bucket.get memb i) key ->
  commit_slot b m memb i s =
    (r ← commit_delete (db_hash (wstore (fst s)) key) key (fst s);
     match r with
     | Next w => Returns (Next (w, snd s))
     | Ret stop err w => Returns (Ret stop err (w, snd s))
     end).
Proof.
  intros Hbs Hnw (value & sq & ex & (Hocc & ik & Hread & Hparse) & Hwin).
  unfold commit_slot.
  destruct (Z.eqb_spec (Bucket.kvOffset (Bucket.get memb i)) 0);
    [contradiction |].
  rewrite Hread. rewrite bool_decide_eq_false_2 by discriminate. simpl.
  rewrite Hparse. simpl.
  destruct (Z.leb_spec sq (batchSeq b)); [lia |].
  unfold wrap64. rewrite Z.mod_small by lia.
  destruct (Z.ltb_spec (batchSeq b + Z.of_nat (Len b)) sq); [lia |].
  reflexivity.
Qed.

(** Past the filter, the delete path has counted the delete whatever
    happens next. *)
Lemma commit_delete_counts (hash : Z) (key : list byte) (w : walk)
    (r : flow walk) :
  filter_Test (wstore w) hash = true ->
  commit_delete hash key w = Returns r ->
  delCount (flow_state r) = wrap_int64 (delCount w + 1).
Proof.
  intros Hf. unfold commit_delete. rewrite Hf. simpl.
  destruct (forEachBucket _ _ _) as [[e [b0 idx]]| |]; simpl;
    try discriminate.
  destruct (_ || _); [intros [= <-]; reflexivity |].
  destruct (bh_write _ _) as [e1 st]. simpl.
  destruct (is_err e1); intros [= <-]; reflexivity.
Qed.

(** Past the filter with the key in no slot of the chain: the delete is
    counted and nothing else changes. *)
Lemma commit_delete_not_found (hash : Z) (key : list byte) (w : walk)
    (bh0 : Bucket.bucketHandle) :
  filter_Test (wstore w) hash = true ->
  forEachBucket (db_chain (wstore w) (db_bucketIndex (wstore w) hash))
    (del_scan_cb (wstore w) hash key) (Bucket.empty, -1) =
    Returns (None, (bh0, -1)) ->
  commit_delete hash key w =
    Returns (Ret false None (set_delCount (wrap_int64 (delCount w + 1)) w)).
Proof.
  intros Hf Hscan. unfold commit_delete. rewrite Hf. simpl.
  unfold wstore in *. simpl. rewrite Hscan. reflexivity.
Qed.

End WithCollaborators.

(** C3 on the example instance.  The memdb holds "a" with sequence 1 from
    an earlier batch and "b" with sequence 2 from this batch, which was
    written with [batchSeq = 1] and then reset ([Len() = 0]): the walk
    passes over slot 0, meets sequence 2 > 1 + 0 in slot 1, and [commit]
    returns nil with the DB as it was. *)
Lemma commit_walk_seq_window_witness :
  commit Example.batch_b_reset (snd Example.written_b_after_a) =
    Returns (None, snd Example.written_b_after_a).
Proof.
  destruct (commit_walk_seq_window (H := Example.consts) Example.batch_b_reset
              Example.mem_b_reset ltac:(simpl; lia))
    as (_ & _ & _ & Hend & _).
  apply (Hend (snd Example.written_b_after_a) Example.handle_b_reset [] 1%nat).
  - reflexivity.
  - reflexivity.
  - simpl. lia.
  - reflexivity.
  - simpl. lia.
  - intros j Hj. assert (j = 0%nat) as -> by lia.
    exists Example.key_a, Example.val_1, 1, false, 0.
    split; [| vm_compute; discriminate || reflexivity].
    split; [vm_compute; discriminate |]. eexists. split; reflexivity.
  - exists Example.key_b, Example.val_2, 2, false, 0.
    split; [| vm_compute; discriminate || reflexivity].
    split; [vm_compute; discriminate |]. eexists. split; reflexivity.
Defined.

(** C10: (1) when the walk reaches a staged delete of this batch whose hash
    passes [filter.Test], the delete counter has gone up by one ([int64])
    in whatever way the turn ends; when, besides, the key is in no slot of
    the persistent chain, the turn ends with [return false, nil] and
    nothing but the counter has changed: no slot is cleared and [db.count]
    stays.  (2) When the walk ends with no error to return, [commit] adds
    the counter to [metrics.Dels].  (3) So [metrics.Dels] can grow by more
    than the slots cleared: committing Put("a","1"); Delete("a") on the
    example DB, whose filter passes every hash and whose index is empty,
    adds 1 to [Dels] and leaves [count] and the store as they were. *)
Theorem commit_counts_filtered_deletes :
  (forall (C : Consts) (M : MemOps) (D : DBOps) (b : Batch) (m : Mem.memdb)
          (memb : Bucket.bucketHandle) (i : nat) (w : walk)
          (deferred : list (Z * Z)) (key : list byte),
     0 <= batchSeq b -> batchSeq b + Z.of_nat (Len b) < 2 ^ 64 ->
     staged_delete b m (Bucket.get memb i) key ->
     filter_Test (wstore w) (db_hash (wstore w) key) = true ->
     (forall r, commit_slot b m memb i (w, deferred) = Returns r ->
        delCount (fst (flow_state r)) = wrap_int64 (delCount w + 1)) /\
     (forall bh0,
        forEachBucket
          (db_chain (wstore w)
             (db_bucketIndex (wstore w) (db_hash (wstore w) key)))
          (del_scan_cb (wstore w) (db_hash (wstore w) key) key)
          (Bucket.empty, -1) = Returns (None, (bh0, -1)) ->
        commit_slot b m memb i (w, deferred) =
          Returns (Ret false None
                     (set_delCount (wrap_int64 (delCount w + 1)) w, deferred))))
  /\
  (forall (C : Consts) (M : MemOps) (D : DBOps) (b : Batch) (db db' : Db.DB)
          (err : option error),
     commit b db = Returns (err, db') ->
     exists (m : Mem.memdb) (w : walk) (werr : option error),
       mem b = Some m /\
       commit_buckets b m
         (Z.to_nat (mem_nBuckets (Mem.tbl m) -
                    mem_bucketIndex (Mem.tbl m) (firstKeyHash b)))
         (mem_bucketIndex (Mem.tbl m) (firstKeyHash b))
         (mkWalk 0 0 None None 0 db) = Returns (werr, w) /\
       (werr = None -> Db.Dels db' = Db.Dels db + delCount w))
  /\
  (Commit (fst Example.written_del) (snd Example.written_del) =
     Returns (None, Example.committed_del) /\
   Db.Dels Example.committed_del = Db.Dels (snd Example.written_del) + 1 /\
   Db.count Example.committed_del = Db.count (snd Example.written_del) /\
   Db.store Example.committed_del = Db.store (snd Example.written_del)).
Proof.
  split; [| split].
  - intros C M D b m memb i w deferred key Hbs Hnw Hdel Hf.
    pose proof (commit_slot_delete b m memb i (w, deferred) key Hbs Hnw Hdel)
      as Hslot. simpl in Hslot. split.
    + intros r Hr. rewrite Hslot in Hr.
      destruct (commit_delete _ _ _) as [r0| |] eqn:Hd; simpl in Hr;
        try discriminate.
      apply (commit_delete_counts _ _ _ _ Hf) in Hd.
      destruct r0; injection Hr as <-; exact Hd.
    + intros bh0 Hscan. rewrite Hslot.
      rewrite (commit_delete_not_found _ _ _ _ Hf Hscan). reflexivity.
  - intros C M D b db db' err Hc.
    destruct (commit_inv _ _ _ _ Hc) as (_ & m & w & werr & Hm & Hw & _ & Hcase).
    exists m, w, werr. split; [exact Hm |]. split; [exact Hw |].
    intros ->. apply Hcase.
  - repeat split; reflexivity.
Qed.

(** C10, first part, on the example instance: the staged Delete("a") in
    slot 0 passes the filter, is in no slot of the empty index, and is
    counted. *)
Lemma commit_counts_filtered_deletes_witness :
  commit_slot (fst Example.written_del) Example.mem_del Example.handle_del 0
    (Example.walk0_del, []) =
    Returns (Ret false None (set_delCount 1 Example.walk0_del, [])).
Proof.
  destruct commit_counts_filtered_deletes as (Hslot & _ & _).
  destruct (Hslot Example.consts Example.memops Example.dbops
              (fst Example.written_del) Example.mem_del Example.handle_del
              0%nat Example.walk0_del [] Example.key_a) as [_ Hmiss].
  - vm_compute. discriminate.
  - vm_compute. reflexivity.
  - exists [], 1, 0.
    split; [| split; [vm_compute; reflexivity | vm_compute; discriminate]].
    split; [vm_compute; discriminate |]. eexists. split; reflexivity.
  - reflexivity.
  - apply (Hmiss Bucket.empty). reflexivity.
Defined.

End CommitFacts.

(** ** The writer gate *)

Module GateFacts.
Import Index Batch.

Section WithCollaborators.
Context `{Consts} `{MemOps} `{DBOps}.

Lemma mput_not_Blocks (d : bool) (h e : Z) (key val : list byte) (b : Batch) :
  mput d h e key val b <> Blocks.
Proof.
  unfold mput.
  destruct (length key =? 0)%nat; [discriminate |].
  destruct (MaxKeyLength <? _); [discriminate |].
  destruct (MaxValueLength <? _); [discriminate |].
  destruct (mem b) as [m|]; simpl; [| discriminate].
  destruct (Codec.makeInternalKey _ _ _ _ _) as [k|]; simpl; [| discriminate].
  destruct (mem_put _ _ _ _ _) as [[pe|] t]; simpl; [discriminate |].
  destruct (if mem_overloaded t then mem_split t else (None, t))
    as [[se|] t']; simpl; discriminate.
Qed.

Lemma writeLoop_not_Blocks (pending : list batchIndex) :
  forall (i : nat) (b : Batch), writeLoop stage i pending b <> Blocks.
Proof.
  induction pending as [|x rest IH]; intros i b; simpl; [discriminate |].
  destruct (kv x (data b)) as [[key val]|]; simpl; [| discriminate].
  destruct (stage i (delFlag x) (hash x) (expiresAt x) key val b)
    as [[e1 b1]| |] eqn:Hput; simpl; [| discriminate |].
  - destruct (is_err e1); [discriminate | apply IH].
  - exfalso. exact (mput_not_Blocks _ _ _ _ _ _ Hput).
Qed.

(** [Write] blocks exactly when the gate is taken. *)
Lemma Write_Blocks_iff (b : Batch) (db : Db.DB) :
  Write b db = Blocks <-> Db.writeLockC db <> 0%nat.
Proof.
  unfold Write, Db.send_writeLockC, Db.writeLockC_cap.
  destruct (Db.writeLockC db) as [|n]; simpl.
  - split; [| congruence].
    destruct (mem b) as [m|]; simpl; [| discriminate].
    unfold writeInternal. rewrite UniqFacts.uniq_keep_last. simpl.
    destruct (writeLoop _ _ _ _) as [[e1 b1]| |] eqn:Hloop; simpl;
      try discriminate.
    exfalso. exact (writeLoop_not_Blocks _ _ _ Hloop).
  - split; [discriminate | reflexivity].
Qed.

Lemma Write_gate (b b' : Batch) (db db' : Db.DB) (err : option error) :
  Write b db = Returns (err, b', db') ->
  Db.writeLockC db = 0%nat /\ Db.writeLockC db' = 1%nat.
Proof.
  unfold Write, Db.send_writeLockC, Db.writeLockC_cap.
  destruct (Db.writeLockC db) as [|n]; simpl; [| discriminate].
  destruct (mem b) as [m|]; simpl; [| discriminate].
  destruct (writeInternal _ _) as [[e1 b1]| |]; simpl; try discriminate.
  intros [= _ _ <-]. auto.
Qed.

Lemma Commit_gate (b : Batch) (db db' : Db.DB) (err : option error) :
  Commit b db = Returns (err, db') ->
  Db.writeLockC db' = Db.writeLockC db.
Proof.
  unfold Commit, _assert. destruct (negb (managed b)); simpl; [| discriminate].
  destruct (mem b) as [m|]; [| intros [= _ <-]; reflexivity].
  destruct (getref m =? 0); [intros [= _ <-]; reflexivity |].
  intros Hc. apply (CommitFacts.commit_inv _ _ _ _ Hc).
Qed.

Lemma Abort_gate (b b' : Batch) (m : Mem.memdb) (db db' : Db.DB) :
  Abort b db = Returns (b', m, db') ->
  Db.writeLockC db = S (Db.writeLockC db').
Proof.
  unfold Abort, _assert. destruct (negb (managed b)); simpl; [| discriminate].
  destruct (mem b) as [m0|]; simpl; [| discriminate].
  unfold Db.recv_writeLockC.
  destruct (Db.writeLockC db) as [|n]; simpl; [discriminate |].
  intros [= _ _ <-]. reflexivity.
Qed.

(** C4 (amended): the gate [writeLockC] holds at most one token.  [Write]
    puts the token in before anything else and blocks while the gate is
    taken; [Abort] takes the token out; [Commit] leaves the gate as it is.
    So once a [Write] has returned, every other [Write] blocks, also after
    the first batch's [Commit], until an [Abort] has released the gate. *)
Theorem writer_gate_released_by_Abort_only :
  (forall (b : Batch) (db : Db.DB),
     Write b db = Blocks <-> Db.writeLockC db <> 0%nat) /\
  (forall (b b' : Batch) (db db' : Db.DB) err,
     Write b db = Returns (err, b', db') ->
     Db.writeLockC db = 0%nat /\ Db.writeLockC db' = 1%nat) /\
  (forall (b : Batch) (db db' : Db.DB) err,
     Commit b db = Returns (err, db') ->
     Db.writeLockC db' = Db.writeLockC db) /\
  (forall (b b' : Batch) (m : Mem.memdb) (db db' : Db.DB),
     Abort b db = Returns (b', m, db') ->
     Db.writeLockC db = S (Db.writeLockC db')) /\
  (forall (b1 b1' b2 : Batch) (db db1 : Db.DB) err,
     Write b1 db = Returns (err, b1', db1) ->
     Write b2 db1 = Blocks /\
     (forall db2 err2,
        Commit b1' db1 = Returns (err2, db2) -> Write b2 db2 = Blocks) /\
     (forall b1'' m db2,
        Abort b1' db1 = Returns (b1'', m, db2) -> Write b2 db2 <> Blocks)).
Proof.
  split; [exact Write_Blocks_iff |].
  split; [exact Write_gate |].
  split; [exact Commit_gate |].
  split; [exact Abort_gate |].
  intros b1 b1' b2 db db1 err HW.
  destruct (Write_gate _ _ _ _ _ HW) as [_ Hheld].
  split; [| split].
  - apply Write_Blocks_iff. lia.
  - intros db2 err2 Hc. apply Write_Blocks_iff.
    rewrite (Commit_gate _ _ _ _ Hc). lia.
  - intros b1'' m db2 Ha. rewrite Write_Blocks_iff.
    apply Abort_gate in Ha. lia.
Qed.

End WithCollaborators.

(** C4 on the example instance: after Write of Put("a","1"); Put("b","2")
    the gate is held and a Write of another batch blocks. *)
Lemma writer_gate_released_by_Abort_only_witness :
  Db.writeLockC Example.db0 = 0%nat /\
  Db.writeLockC (snd Example.written_ab) = 1%nat /\
  Write Example.batch0 (snd Example.written_ab) = Blocks.
Proof.
  destruct (writer_gate_released_by_Abort_only (H := Example.consts))
    as (_ & Hgate & _ & _ & Hseq).
  assert (HW : Write Example.batch_ab Example.db0 =
                 Returns (None, fst Example.written_ab, snd Example.written_ab))
    by reflexivity.
  destruct (Hgate _ _ _ _ _ HW) as [Hopen Hheld].
  destruct (Hseq _ _ Example.batch0 _ _ _ HW) as [Hblocks _].
  auto.
Defined.

(** C4, the claim as stated, fails for [Commit]: after Write and Commit of
    the first batch the gate still holds its token, and a second Write
    blocks. *)
Lemma Commit_keeps_gate_counterexample :
  Write Example.batch_ab Example.db0 =
    Returns (None, fst Example.written_ab, snd Example.written_ab) /\
  Commit (fst Example.written_ab) (snd Example.written_ab) =
    Returns (None, Example.committed_ab) /\
  Db.writeLockC Example.committed_ab = 1%nat /\
  Write Example.batch0 Example.committed_ab = Blocks.
Proof. repeat split; reflexivity. Qed.

End GateFacts.

(* ===================================================================== *)
(** * Part III: further properties of the code                            *)
(* ===================================================================== *)

(** ** Internal keys *)

Module CodecMore.
Import Codec.

(** The low byte of a little-endian number is its first byte. *)
Lemma le_combine_low_byte (b0 : byte) (t : list byte) :
  Z.land (le_combine (b0 :: t)) 255 = byte.unsigned b0.
Proof.
  change (le_combine (b0 :: t))
    with (Z.lor (byte.unsigned b0) (Z.shiftl (le_combine t) 8)).
  pose proof (byte.unsigned_range b0) as Hb.
  pose proof (le_combine_bound t) as Ht.
  rewrite Z.land_lor_distr_l. change 255 with (Z.ones 8).
  rewrite !Z.land_ones by lia. change (2 ^ 8) with 256.
  rewrite Z.shiftl_mul_pow2 by lia. change (2 ^ 8) with 256.
  rewrite Z.mod_mul by lia. rewrite Z.lor_0_r.
  apply Z.mod_small. change (2 ^ 8) with 256 in Hb. lia.
Qed.

(** A number is its upper bits shifted back, or-ed with its low byte. *)
Lemma lor_shift_low (n : Z) :
  0 <= n -> Z.lor (Z.shiftl (Z.shiftr n 8) 8) (Z.land n 255) = n.
Proof.
  intros Hn. apply Z.bits_inj'. intros i Hi.
  rewrite Z.lor_spec, Z.land_spec. change 255 with (Z.ones 8).
  destruct (Z.ltb_spec i 8) as [Hlt | Hge].
  - rewrite Z.shiftl_spec_low by lia.
    rewrite Z.ones_spec_low by lia. simpl. apply Bool.andb_true_r.
  - rewrite Z.shiftl_spec_high by lia.
    rewrite Z.shiftr_spec by lia.
    rewrite Z.ones_spec_high by lia.
    rewrite Bool.andb_false_r, Bool.orb_false_r. f_equal. lia.
Qed.

(** X1: an internal key of at least 12 bytes whose flag byte is 0 or 1 is
    decoded without error into components that encode back to the very same
    bytes, whatever buffer the encoder is handed; in particular the decoded
    sequence number never makes [makeInternalKey] panic. *)
Theorem parse_then_make_roundtrip (dst ik : list byte) (flag : byte) :
  (12 <= length ik)%nat ->
  ik !! (length ik - 12)%nat = Some flag ->
  flag = Byte.x00 \/ flag = Byte.x01 ->
  exists ukey seq dFlag expiresAt,
    parseInternalKey ik = (ukey, seq, dFlag, expiresAt, None) /\
    0 <= seq <= keyMaxSeq /\ 0 <= expiresAt < 2 ^ 32 /\
    (dFlag = true <-> flag = Byte.x01) /\
    makeInternalKey dst ukey seq dFlag expiresAt = Some ik.
Proof.
  intros Hlen Hflag Hcanon.
  set (ukey := take (length ik - 12) ik).
  set (num8 := take 8 (drop (length ik - 12) ik)).
  set (num4 := drop (length ik - 4) ik).
  assert (Hik : ik = ukey ++ num8 ++ num4).
  { unfold ukey, num8, num4.
    rewrite <- (take_drop (length ik - 12) ik) at 1. f_equal.
    rewrite <- (take_drop 8 (drop (length ik - 12) ik)) at 1. f_equal.
    rewrite drop_drop. f_equal. lia. }
  assert (H8 : length num8 = 8%nat)
    by (unfold num8; rewrite length_take, length_drop; lia).
  assert (H4 : length num4 = 4%nat) by (unfold num4; rewrite length_drop; lia).
  assert (Hhd : exists t, num8 = flag :: t).
  { unfold num8. rewrite <- (Nat.add_0_r (length ik - 12)) in Hflag.
    rewrite <- lookup_drop in Hflag.
    destruct (drop (length ik - 12) ik) as [|b0 t]; [discriminate |].
    injection Hflag as ->. exists (take 7 t). reflexivity. }
  destruct Hhd as [t Ht].
  set (n := le_combine num8).
  assert (Hn : 0 <= n < 2 ^ 64).
  { pose proof (le_combine_bound num8) as Hb. rewrite H8 in Hb. exact Hb. }
  assert (Hlow : Z.land n 255 = byte.unsigned flag)
    by (unfold n; rewrite Ht; apply le_combine_low_byte).
  assert (Hd : (if negb (Z.land n 255 =? 0) then 1 else 0) = Z.land n 255).
  { rewrite Hlow. destruct Hcanon as [-> | ->]; reflexivity. }
  assert (Hseq : 0 <= Z.shiftr n 8 <= keyMaxSeq).
  { rewrite CodecFacts.keyMaxSeq_val, Z.shiftr_div_pow2 by lia.
    change (2 ^ 8) with 256. split; [apply Z.div_pos; lia |].
    assert (n / 256 < 2 ^ 56) by (apply Z.div_lt_upper_bound; lia). lia. }
  exists ukey, (Z.shiftr n 8), (negb (Z.land n 255 =? 0)), (le_combine num4).
  split; [rewrite Hik; apply CodecFacts.parseInternalKey_layout; assumption |].
  split; [exact Hseq |].
  split.
  { pose proof (le_combine_bound num4) as Hb. rewrite H4 in Hb. exact Hb. }
  split.
  { rewrite Hlow. destruct Hcanon as [-> | ->]; simpl; split;
      congruence || reflexivity. }
  rewrite CodecFacts.makeInternalKey_layout by apply Hseq.
  f_equal. transitivity (ukey ++ num8 ++ num4); [| symmetry; exact Hik].
  f_equal. rewrite Hd.
  assert (Hw : wrap64 (Z.shiftl (Z.shiftr n 8) 8) = Z.shiftl (Z.shiftr n 8) 8).
  { unfold wrap64. apply Z.mod_small.
    rewrite Z.shiftl_mul_pow2, Z.shiftr_div_pow2 by lia.
    change (2 ^ 8) with 256.
    pose proof (Z.mul_div_le n 256 ltac:(lia)).
    pose proof (Z.div_pos n 256 ltac:(lia) ltac:(lia)). lia. }
  rewrite Hw, lor_shift_low by lia.
  unfold n. rewrite <- H8 at 1. rewrite split_le_combine.
  rewrite <- H4 at 1. rewrite split_le_combine. reflexivity.
Qed.

(** X1 on the 12-byte key of user key "", sequence 1, a delete, expiry 0. *)
Lemma parse_then_make_roundtrip_witness :
  exists ukey seq dFlag expiresAt,
    parseInternalKey
      [Byte.x01; Byte.x01; Byte.x00; Byte.x00; Byte.x00; Byte.x00; Byte.x00;
       Byte.x00; Byte.x00; Byte.x00; Byte.x00; Byte.x00] =
      (ukey, seq, dFlag, expiresAt, None) /\
    0 <= seq <= keyMaxSeq /\ 0 <= expiresAt < 2 ^ 32 /\
    (dFlag = true <-> Byte.x01 = Byte.x01) /\
    makeInternalKey [] ukey seq dFlag expiresAt =
      Some [Byte.x01; Byte.x01; Byte.x00; Byte.x00; Byte.x00; Byte.x00;
            Byte.x00; Byte.x00; Byte.x00; Byte.x00; Byte.x00; Byte.x00].
Proof.
  apply (parse_then_make_roundtrip []
           [Byte.x01; Byte.x01; Byte.x00; Byte.x00; Byte.x00; Byte.x00;
            Byte.x00; Byte.x00; Byte.x00; Byte.x00; Byte.x00; Byte.x00]
           Byte.x01).
  - simpl. lia.
  - reflexivity.
  - right. reflexivity.
Defined.

(** X2: [makeInternalKey] panics exactly when the sequence number is above
    [keyMaxSeq]; otherwise the key it returns is the user key followed by 12
    bytes, and it is the same for every buffer [dst] it is handed. *)
Theorem makeInternalKey_total_below_max (dst ukey : list byte) (seq : Z)
    (dFlag : bool) (expiresAt : Z) :
  (makeInternalKey dst ukey seq dFlag expiresAt = None <-> keyMaxSeq < seq) /\
  (forall ik, makeInternalKey dst ukey seq dFlag expiresAt = Some ik ->
     length ik = (length ukey + 12)%nat /\
     take (length ukey) ik = ukey /\
     forall dst', makeInternalKey dst' ukey seq dFlag expiresAt = Some ik).
Proof.
  split.
  - unfold makeInternalKey. destruct (Z.ltb_spec keyMaxSeq seq).
    + split; [intros _; assumption | reflexivity].
    + split; [discriminate | lia].
  - intros ik Hmk.
    assert (Hle : seq <= keyMaxSeq).
    { unfold makeInternalKey in Hmk.
      destruct (Z.ltb_spec keyMaxSeq seq); [discriminate | assumption]. }
    pose proof (CodecFacts.makeInternalKey_layout dst ukey seq dFlag expiresAt
                  Hle) as Hlay.
    assert (Hik : ik = ukey ++ le_split 8 (Z.lor (wrap64 (Z.shiftl seq 8))
                                             (if dFlag then 1 else 0))
                            ++ le_split 4 expiresAt) by congruence.
    split; [| split].
    + rewrite Hik, !length_app, !length_le_split. lia.
    + rewrite Hik. apply take_app_length.
    + intros dst'. rewrite Hik. apply CodecFacts.makeInternalKey_layout, Hle.
Qed.

(** X2 at sequence [keyMaxSeq + 1]: the call panics. *)
Lemma makeInternalKey_total_below_max_witness :
  makeInternalKey [] [Byte.x6b] (keyMaxSeq + 1) false 0 = None.
Proof.
  apply (makeInternalKey_total_below_max [] [Byte.x6b] (keyMaxSeq + 1) false 0).
  lia.
Defined.

End CodecMore.

(** ** The batch buffer *)

Module BufferFacts.
Import Index Batch Ops.

Lemma with_slice_copy (pre pad src : list byte) :
  (length src <= length pad)%nat ->
  with_slice (length pre) (length (pre ++ pad)) (fun d => copy d src)
    (pre ++ pad) = pre ++ src ++ drop (length src) pad.
Proof.
  intros Hlen. unfold with_slice, copy.
  rewrite take_app_length, drop_app_length, length_app.
  replace (length pre + length pad - length pre)%nat with (length pad) by lia.
  rewrite (firstn_all pad), (firstn_all2 src) by lia.
  rewrite (drop_ge (pre ++ pad)) by (rewrite length_app; lia).
  rewrite app_nil_r. reflexivity.
Qed.

Lemma slice_inv (d : list byte) (lo hi : nat) (r : list byte) :
  slice d lo hi = Some r ->
  (lo <= hi)%nat /\ (hi <= length d)%nat /\ r = take (hi - lo) (drop lo d).
Proof.
  unfold slice.
  destruct (Nat.leb_spec lo hi); simpl; [| discriminate].
  destruct (Nat.leb_spec hi (length d)); [| discriminate].
  intros [= <-]. auto.
Qed.

Lemma slice_ok (d : list byte) (lo hi : nat) :
  (lo <= hi)%nat -> (hi <= length d)%nat ->
  slice d lo hi = Some (take (hi - lo) (drop lo d)).
Proof.
  intros H1 H2. unfold slice.
  destruct (Nat.leb_spec lo hi); [| lia].
  destruct (Nat.leb_spec hi (length d)); [| lia].
  reflexivity.
Qed.

(** X8: the two accessors of a [batchIndex] agree.  For an entry whose
    sizes add up without wrapping, whenever [kv] reads a pair out of a
    buffer, [k] reads the same key, the key and the value have the recorded
    sizes, and together they are the bytes from [kvOffset] on. *)
Theorem k_agrees_with_kv (e : batchIndex) (buf key value : list byte) :
  0 <= keySize e -> 0 <= valueSize e ->
  keySize e + valueSize e < 2 ^ 32 ->
  kv e buf = Some (key, value) ->
  k e buf = Some key /\
  length key = Z.to_nat (keySize e) /\
  length value = Z.to_nat (valueSize e) /\
  take (length key + length value) (drop (kvOffset e) buf) = key ++ value.
Proof.
  intros Hk Hv Hsum. unfold kv, k, kvSize, wrap32.
  rewrite Z.mod_small by lia. rewrite Z2Nat.inj_add by lia.
  set (ks := Z.to_nat (keySize e)). set (vs := Z.to_nat (valueSize e)).
  intros Hkv.
  destruct (slice buf (kvOffset e) (kvOffset e + (ks + vs)))
    as [keyValue |] eqn:H1; simpl in Hkv; [| discriminate].
  destruct (slice keyValue 0 ks) as [key0 |] eqn:H2; simpl in Hkv;
    [| discriminate].
  destruct (slice keyValue ks (length keyValue)) as [value0 |] eqn:H3;
    simpl in Hkv; [| discriminate].
  injection Hkv as -> ->.
  apply slice_inv in H1 as (_ & Hfit & HkV).
  apply slice_inv in H2 as (_ & _ & Hkey).
  apply slice_inv in H3 as (_ & _ & Hval).
  replace (kvOffset e + (ks + vs) - kvOffset e)%nat with (ks + vs)%nat
    in HkV by lia.
  assert (Hlen : length keyValue = (ks + vs)%nat)
    by (rewrite HkV, length_take, length_drop; lia).
  rewrite Nat.sub_0_r, drop_0 in Hkey.
  rewrite Hlen in Hval.
  replace (ks + vs - ks)%nat with vs in Hval by lia.
  assert (Hkl : length key = ks) by (rewrite Hkey, length_take; lia).
  assert (Hvl : length value = vs)
    by (rewrite Hval, length_take, length_drop; lia).
  split.
  - rewrite slice_ok by lia. f_equal.
    replace (kvOffset e + ks - kvOffset e)%nat with ks by lia.
    rewrite Hkey, HkV, take_take. f_equal. lia.
  - split; [exact Hkl |]. split; [exact Hvl |].
    rewrite Hkl, Hvl, <- HkV, Hkey, Hval.
    rewrite (firstn_all2 (drop ks keyValue)) by (rewrite length_drop; lia).
    symmetry. apply take_drop.
Qed.

Section WithCollaborators.
Context `{MemOps}.

(** What [appendRec] does to the buffer and the index. *)
Lemma appendRec_spec (dFlag : bool) (expiresAt : Z) (key value : list byte)
    (b : Batch) (m : Mem.memdb) :
  mem b = Some m ->
  exists b',
    appendRec dFlag expiresAt key value b = Returns b' /\
    data b' = data b ++ record_of dFlag key value /\
    index b' = index b ++
      [mkIndex dFlag (mem_hash (Mem.tbl m) key)
         (wrap16 (Z.of_nat (length key)))
         (if dFlag then 0 else wrap32 (Z.of_nat (length value)))
         expiresAt (S (length (data b)))] /\
    mem b' = mem b /\ batchSeq b' = batchSeq b /\
    firstKeyHash b' = firstKeyHash b /\ managed b' = managed b.
Proof.
  intros Hm. unfold appendRec.
  remember (grow _ b) as g eqn:Hg.
  assert (Hfr : data g = data b /\ index g = index b /\
                firstKeyHash g = firstKeyHash b /\ mem g = mem b /\
                batchSeq g = batchSeq b /\ managed g = managed b).
  { subst g. unfold grow. destruct (_ <? _)%nat; auto 10. }
  destruct Hfr as (Hd & Hi & Hf & Hmg & Hbs & Hmn). clear Hg.
  rewrite Hmg, Hm. simpl. rewrite Hd, Hi, Hf, Hbs, Hmn.
  set (flag := if dFlag then Byte.x01 else Byte.x00).
  set (pre := data b ++ [flag]).
  assert (Hpre : length pre = S (length (data b)))
    by (unfold pre; rewrite length_app; simpl; lia).
  assert (Hbuf : forall k, <[length (data b) := flag]>
                   (data b ++ Byte.x00 :: replicate k Byte.x00) =
                 pre ++ replicate k Byte.x00).
  { intros k. unfold pre. rewrite <- app_assoc. simpl.
    rewrite insert_app_r_alt by lia. rewrite Nat.sub_diag. reflexivity. }
  destruct dFlag; simpl.
  - eexists. split; [reflexivity |]. simpl.
    split; [| auto 10].
    rewrite (Hbuf (length key)), <- Hpre.
    rewrite with_slice_copy by (rewrite length_replicate; lia).
    rewrite drop_replicate, Nat.sub_diag. simpl. rewrite app_nil_r.
    rewrite length_app, length_replicate.
    replace (length pre + length key - length pre)%nat with (length key) by lia.
    rewrite Nat.min_id.
    rewrite firstn_all2 by (rewrite !length_app; lia).
    unfold pre, record_of, flag. rewrite <- app_assoc. simpl.
    rewrite app_nil_r. reflexivity.
  - eexists. split; [reflexivity |]. simpl.
    split; [| auto 10].
    rewrite (Hbuf (length key + length value)%nat), <- Hpre.
    rewrite with_slice_copy by (rewrite length_replicate; lia).
    rewrite drop_replicate.
    replace (length key + length value - length key)%nat
      with (length value) by lia.
    rewrite length_app, length_replicate.
    replace (length pre + (length key + length value) - length pre)%nat
      with (length key + length value)%nat by lia.
    rewrite (Nat.min_r (length key + length value)) by lia.
    rewrite (app_assoc pre key).
    replace (S (length (data b) + length key)) with (length (pre ++ key))
      by (rewrite length_app; lia).
    rewrite with_slice_copy by (rewrite length_replicate; lia).
    rewrite drop_replicate, Nat.sub_diag. simpl. rewrite app_nil_r.
    rewrite length_app, length_replicate.
    replace (length (pre ++ key) + length value - length (pre ++ key))%nat
      with (length value) by lia.
    rewrite Nat.min_id.
    rewrite firstn_all2 by (rewrite !length_app; lia).
    unfold pre, record_of, flag. rewrite <- !app_assoc. reflexivity.
Qed.

(** X3: on a batch bound to a memdb, [appendRec] returns; it appends to the
    buffer exactly one record -- the flag byte (1 for a delete, 0 for a
    put), the key, and for a put the value -- and to the index one entry
    that points just behind the flag byte and carries the memdb hash of the
    key, the sizes cut to [uint16] and [uint32], and the expiry.  The memdb,
    [batchSeq] and [firstKeyHash] are untouched. *)
Theorem appendRec_layout (dFlag : bool) (expiresAt : Z) (key value : list byte)
    (b : Batch) (m : Mem.memdb) :
  mem b = Some m ->
  exists b',
    appendRec dFlag expiresAt key value b = Returns b' /\
    data b' = data b ++ record_of dFlag key value /\
    index b' = index b ++
      [mkIndex dFlag (mem_hash (Mem.tbl m) key)
         (wrap16 (Z.of_nat (length key)))
         (if dFlag then 0 else wrap32 (Z.of_nat (length value)))
         expiresAt (S (length (data b)))] /\
    mem b' = mem b /\ batchSeq b' = batchSeq b /\
    firstKeyHash b' = firstKeyHash b /\ managed b' = managed b.
Proof. apply appendRec_spec. Qed.

(** *** Reading entries back *)

Lemma slice_app (data more r : list byte) (lo hi : nat) :
  slice data lo hi = Some r -> slice (data ++ more) lo hi = Some r.
Proof.
  unfold slice.
  destruct (Nat.leb_spec lo hi) as [Hlo|]; simpl; [| discriminate].
  destruct (Nat.leb_spec hi (length data)) as [Hhi|]; simpl; [| discriminate].
  intros [= <-].
  destruct (Nat.leb_spec hi (length (data ++ more))) as [_ | Hbad];
    [| rewrite length_app in Hbad; lia].
  f_equal. rewrite drop_app_le by lia.
  rewrite take_app_le by (rewrite length_drop; lia). reflexivity.
Qed.

(** An entry that reads back from a buffer reads back the same from any
    extension of the buffer. *)
Lemma kv_app (e : batchIndex) (data more : list byte)
    (r : list byte * list byte) :
  kv e data = Some r -> kv e (data ++ more) = Some r.
Proof.
  unfold kv.
  destruct (slice data _ _) as [keyValue|] eqn:Hs; simpl; [| discriminate].
  rewrite (slice_app _ more _ _ _ Hs). simpl. auto.
Qed.

(** The entry [appendRec] makes reads back the key and the value. *)
Lemma kv_new_record (dFlag : bool) (h expiresAt : Z) (key value data : list byte) :
  Z.of_nat (length key) < 2 ^ 16 ->
  Z.of_nat (length value) < 2 ^ 32 - 2 ^ 16 ->
  kv (mkIndex dFlag h (wrap16 (Z.of_nat (length key)))
        (if dFlag then 0 else wrap32 (Z.of_nat (length value)))
        expiresAt (S (length data)))
     (data ++ record_of dFlag key value) =
    Some (key, if dFlag then [] else value).
Proof.
  intros Hk Hv. set (val := if dFlag then [] else value).
  assert (Hval : (if dFlag then 0 else wrap32 (Z.of_nat (length value))) =
                 Z.of_nat (length val)).
  { unfold val, wrap32. destruct dFlag; [reflexivity |].
    apply Z.mod_small. lia. }
  assert (Hvl : Z.of_nat (length val) < 2 ^ 32 - 2 ^ 16)
    by (unfold val; destruct dFlag; simpl; lia).
  unfold kv, kvSize. simpl. rewrite Hval.
  unfold wrap16. rewrite (Z.mod_small (Z.of_nat (length key))) by lia.
  unfold wrap32. rewrite Z.mod_small by lia.
  rewrite <- Nat2Z.inj_add, !Nat2Z.id.
  assert (Hrec : data ++ record_of dFlag key value =
                 (data ++ [if dFlag then Byte.x01 else Byte.x00]) ++ key ++ val).
  { unfold record_of, val. rewrite <- app_assoc. reflexivity. }
  rewrite Hrec.
  set (pre := data ++ [if dFlag then Byte.x01 else Byte.x00]).
  assert (Hpre : length pre = S (length data))
    by (unfold pre; rewrite length_app; simpl; lia).
  rewrite <- Hpre.
  assert (Hs : slice (pre ++ key ++ val) (length pre)
                 (length pre + (length key + length val)) = Some (key ++ val)).
  { unfold slice.
    destruct (Nat.leb_spec (length pre) (length pre + (length key + length val)));
      [| lia].
    destruct (Nat.leb_spec (length pre + (length key + length val))
                (length (pre ++ key ++ val))) as [_ | Hbad];
      [| rewrite !length_app in Hbad; lia].
    simpl. f_equal. rewrite drop_app_length.
    apply firstn_all2. rewrite length_app. lia. }
  replace (S (length data + (length key + length val)))
    with (length pre + (length key + length val))%nat by lia.
  rewrite Hs. simpl.
  unfold slice. simpl.
  destruct (Nat.leb_spec (length key) (length (key ++ val))) as [_ | Hbad];
    [| rewrite length_app in Hbad; lia].
  simpl. rewrite Nat.leb_refl. simpl.
  rewrite Nat.sub_0_r, drop_0, take_app_length, drop_app_length.
  rewrite firstn_all2 by (rewrite length_app; lia). reflexivity.
Qed.

Lemma apply_op_spec (o : op) (b : Batch) (m : Mem.memdb) :
  mem b = Some m ->
  exists b' expiresAt,
    apply_op o b = Returns b' /\
    data b' = data b ++ record_of (op_delete o) (op_key o) (op_value o) /\
    index b' = index b ++
      [mkIndex (op_delete o) (mem_hash (Mem.tbl m) (op_key o))
         (wrap16 (Z.of_nat (length (op_key o))))
         (if op_delete o then 0 else wrap32 (Z.of_nat (length (op_value o))))
         expiresAt (S (length (data b)))] /\
    mem b' = mem b.
Proof.
  intros Hm. destruct o as [key value | key value ttl deadline | key]; simpl.
  - destruct (appendRec_spec false 0 key value b m Hm)
      as (b' & Happ & Hd & Hi & Hm' & _).
    exists b', 0. auto.
  - unfold PutWithTTL.
    destruct (appendRec_spec false
                (if negb (ttl =? 0) then wrap32 deadline else 0) key value b m Hm)
      as (b' & Happ & Hd & Hi & Hm' & _).
    exists b'. eexists. eauto.
  - destruct (appendRec_spec true 0 key [] b m Hm)
      as (b' & Happ & Hd & Hi & Hm' & _).
    exists b', 0. auto.
Qed.

Lemma apply_ops_spec (ops : list op) :
  forall (b : Batch) (m : Mem.memdb),
  mem b = Some m -> Forall in_bounds ops -> readable b ->
  exists b',
    apply_ops ops b = Returns b' /\
    mem b' = mem b /\
    readable b' /\
    length (index b') = (length (index b) + length ops)%nat /\
    take (length (index b)) (index b') = index b /\
    take (length (data b)) (data b') = data b /\
    forall j o, ops !! j = Some o ->
      exists e, index b' !! (length (index b) + j)%nat = Some e /\
        kv e (data b') = Some (op_key o, op_value o) /\
        delFlag e = op_delete o /\
        hash e = mem_hash (Mem.tbl m) (op_key o).
Proof.
  induction ops as [|o rest IH]; intros b m Hm Hb Hr; simpl.
  { exists b. split; [reflexivity |]. split; [reflexivity |].
    split; [exact Hr |]. split; [lia |].
    split; [apply firstn_all |]. split; [apply firstn_all |].
    intros j o Hj. discriminate. }
  apply Forall_cons in Hb as [[Hk Hv] Hrest].
  destruct (apply_op_spec o b m Hm) as (b1 & ex & Happ & Hd1 & Hi1 & Hm1).
  rewrite Happ. simpl.
  assert (Hnew : kv (mkIndex (op_delete o) (mem_hash (Mem.tbl m) (op_key o))
                       (wrap16 (Z.of_nat (length (op_key o))))
                       (if op_delete o then 0
                        else wrap32 (Z.of_nat (length (op_value o))))
                       ex (S (length (data b)))) (data b1) =
                Some (op_key o, op_value o)).
  { rewrite Hd1, kv_new_record by assumption.
    destruct o; reflexivity. }
  assert (Hr1 : readable b1).
  { unfold readable. rewrite Hi1, Hd1. apply Forall_app. split.
    - eapply Forall_impl; [exact Hr |]. intros e [r He].
      exists r. apply kv_app, He.
    - constructor; [| constructor]. rewrite <- Hd1, Hnew. eauto. }
  rewrite <- Hm1 in Hm.
  destruct (IH b1 m Hm Hrest Hr1)
    as (b' & Hrun & Hm' & Hr' & Hlen & Htake & Htd & Hall).
  exists b'. split; [exact Hrun |]. split; [congruence |].
  split; [exact Hr' |].
  pose proof Htd as Htd1.
  rewrite Hi1, length_app in Hlen, Htake, Hall. simpl in Hlen, Htake, Hall.
  rewrite Hd1, length_app in Htd.
  split; [lia |].
  assert (Hpre : take (length (index b)) (index b') = index b).
  { apply (f_equal (take (length (index b)))) in Htake.
    rewrite take_take, take_app_length, Nat.min_l in Htake by lia.
    exact Htake. }
  split; [exact Hpre |].
  split.
  { apply (f_equal (take (length (data b)))) in Htd.
    rewrite take_take, take_app_length, Nat.min_l in Htd by lia.
    exact Htd. }
  intros [|j] o' Hj; simpl in Hj.
  - injection Hj as <-. rewrite Nat.add_0_r.
    eexists. split.
    + apply (f_equal (fun l => l !! length (index b))) in Htake.
      rewrite lookup_take_lt in Htake by lia.
      rewrite Htake. apply list_lookup_middle. reflexivity.
    + split; [| split; reflexivity].
      rewrite <- (take_drop (length (data b1)) (data b')), Htd1.
      apply kv_app. exact Hnew.
  - destruct (Hall j o' Hj) as (e & He & Hkv & Hdel & Hh).
    exists e. split; [| auto].
    rewrite <- He. f_equal. lia.
Qed.

(** X4: on a batch bound to a memdb whose entries all read back, any
    sequence of Put, PutWithTTL and Delete calls with keys shorter than
    [2^16] bytes and values shorter than [2^32 - 2^16] bytes returns; the
    index grows by one entry per call, in call order; the entry of each call
    reads back ([kv]) exactly the key and the value of the call (the empty
    value for a delete) with the call's delete flag and the memdb hash of
    its key; and every earlier entry still reads back what it did. *)
Theorem appended_ops_read_back (ops : list op) (b : Batch) (m : Mem.memdb) :
  mem b = Some m -> Forall in_bounds ops -> readable b ->
  exists b',
    apply_ops ops b = Returns b' /\
    readable b' /\
    Len b' = (Len b + length ops)%nat /\
    take (Len b) (index b') = index b /\
    (forall e r, e ∈ index b -> kv e (data b) = Some r ->
                 kv e (data b') = Some r) /\
    forall j o, ops !! j = Some o ->
      exists e, index b' !! (Len b + j)%nat = Some e /\
        kv e (data b') = Some (op_key o, op_value o) /\
        delFlag e = op_delete o /\
        hash e = mem_hash (Mem.tbl m) (op_key o).
Proof.
  intros Hm Hb Hr.
  destruct (apply_ops_spec ops b m Hm Hb Hr)
    as (b' & Hrun & _ & Hr' & Hlen & Htake & Htd & Hall).
  exists b'. unfold Len.
  split; [exact Hrun |]. split; [exact Hr' |]. split; [exact Hlen |].
  split; [exact Htake |]. split; [| exact Hall].
  intros e r _ Hkv.
  rewrite <- (take_drop (length (data b)) (data b')), Htd.
  apply kv_app, Hkv.
Qed.

(** X5: a key of [2^16] bytes or more is cut without notice.  [appendRec]
    copies the whole key into the buffer but records its length modulo
    [2^16]; the entry then reads back only the first [len(key) mod 2^16]
    bytes as the key, and the rest of the key runs into what is read as the
    value. *)
Theorem appendRec_cuts_long_keys (expiresAt : Z) (key value : list byte)
    (b : Batch) (m : Mem.memdb) :
  mem b = Some m ->
  2 ^ 16 <= Z.of_nat (length key) ->
  Z.of_nat (length value) < 2 ^ 32 - 2 ^ 16 ->
  let k := Z.to_nat (Z.of_nat (length key) mod 2 ^ 16) in
  exists b' e,
    appendRec false expiresAt key value b = Returns b' /\
    index b' = index b ++ [e] /\
    (k < length key)%nat /\
    kv e (data b') =
      Some (take k key, take (length value) (drop k (key ++ value))).
Proof.
  intros Hm Hlong Hv k.
  destruct (appendRec_spec false expiresAt key value b m Hm)
    as (b' & Happ & Hd & Hi & _).
  pose proof (Z.mod_pos_bound (Z.of_nat (length key)) (2 ^ 16) ltac:(lia)) as Hk.
  assert (Hklt : (k < length key)%nat) by (unfold k; lia).
  eexists b', _. split; [exact Happ |]. split; [exact Hi |].
  split; [exact Hklt |].
  rewrite Hd. unfold kv, kvSize. simpl.
  unfold wrap16. fold k.
  replace (Z.of_nat (length key) mod 2 ^ 16) with (Z.of_nat k)
    by (unfold k; rewrite Z2Nat.id; lia).
  unfold wrap32. rewrite (Z.mod_small (Z.of_nat (length value))) by lia.
  rewrite Z.mod_small by lia.
  rewrite <- Nat2Z.inj_add, !Nat2Z.id.
  assert (Hrec : data b ++ record_of false key value =
                 (data b ++ [Byte.x00]) ++ key ++ value).
  { unfold record_of. rewrite <- app_assoc. reflexivity. }
  rewrite Hrec. set (pre := data b ++ [Byte.x00]).
  assert (Hpre : length pre = S (length (data b)))
    by (unfold pre; rewrite length_app; simpl; lia).
  replace (S (length (data b) + (k + length value)))
    with (length pre + (k + length value))%nat by lia.
  rewrite <- Hpre.
  assert (Hs : slice (pre ++ key ++ value) (length pre)
                 (length pre + (k + length value)) =
               Some (take (k + length value) (key ++ value))).
  { unfold slice.
    destruct (Nat.leb_spec (length pre) (length pre + (k + length value)));
      [| lia].
    destruct (Nat.leb_spec (length pre + (k + length value))
                (length (pre ++ key ++ value))) as [_ | Hbad];
      [| rewrite !length_app in Hbad; lia].
    simpl. f_equal. rewrite drop_app_length. f_equal. lia. }
  rewrite Hs. simpl.
  assert (Hlen : length (take (k + length value) (key ++ value)) =
                 (k + length value)%nat)
    by (rewrite length_take, length_app; lia).
  unfold slice. simpl. rewrite Hlen.
  destruct (Nat.leb_spec k (k + length value)) as [_ |]; [| lia].
  rewrite Nat.leb_refl. simpl.
  rewrite Nat.sub_0_r, drop_0, take_take, Nat.min_l by lia.
  rewrite take_app_le by lia.
  replace (k + length value - k)%nat with (length value) by lia.
  rewrite <- take_drop_commute.
  rewrite (firstn_all2 (take _ _)) by (rewrite length_take; lia).
  replace (k + length value)%nat with (length value + k)%nat by lia.
  reflexivity.
Qed.

Lemma appendRec_returns_mem (dFlag : bool) (expiresAt : Z)
    (key value : list byte) (b b' : Batch) :
  appendRec dFlag expiresAt key value b = Returns b' ->
  exists m, mem b = Some m.
Proof.
  unfold appendRec. remember (grow _ b) as g eqn:Hg.
  assert (Hmg : mem g = mem b) by (subst g; apply StagingFacts.grow_frame).
  clear Hg. rewrite Hmg.
  destruct (mem b) as [m |]; [eauto | discriminate].
Qed.

Lemma appendRec_cap (dFlag : bool) (expiresAt : Z) (key value : list byte)
    (b b' : Batch) :
  appendRec dFlag expiresAt key value b = Returns b' ->
  dataCap b' = dataCap (grow (length (record_of dFlag key value)) b).
Proof.
  unfold appendRec, record_of.
  destruct dFlag; simpl; rewrite ?app_nil_r, ?length_app;
    destruct (mem (grow _ b)); simpl; try discriminate;
    intros [= <-]; reflexivity.
Qed.

Lemma appendRec_internalLen (dFlag : bool) (expiresAt : Z)
    (key value : list byte) (b b' : Batch) :
  appendRec dFlag expiresAt key value b = Returns b' ->
  exists e, index b' = index b ++ [e] /\
    internalLen b' =
      wrap32 (internalLen b + wrap32 (wrap32 (keySize e + valueSize e) + 8)).
Proof.
  unfold appendRec. remember (grow _ b) as g eqn:Hg.
  assert (Hfr : index g = index b /\ internalLen g = internalLen b).
  { subst g. unfold grow. destruct (_ <? _)%nat; auto. }
  destruct Hfr as [Hi Hl]. clear Hg.
  destruct (mem g) as [m |]; simpl; [| discriminate].
  destruct dFlag; simpl; intros [= <-]; simpl; rewrite Hi, Hl;
    eexists; (split; [reflexivity |]); reflexivity.
Qed.

(** X6: [appendRec] keeps the buffer within its capacity.  After the call
    the buffer is longer by exactly the record (flag byte, key, and the
    value of a put) and fits its capacity; the capacity never shrinks; it
    is untouched when the record fits; and when [grow] reallocates, the new
    capacity is at most twice the old length plus the record. *)
Theorem appendRec_capacity (dFlag : bool) (expiresAt : Z)
    (key value : list byte) (b b' : Batch) :
  appendRec dFlag expiresAt key value b = Returns b' ->
  let n := length (record_of dFlag key value) in
  length (data b') = (length (data b) + n)%nat /\
  (length (data b') <= dataCap b')%nat /\
  (dataCap b <= dataCap b')%nat /\
  ((length (data b) + n <= dataCap b)%nat -> dataCap b' = dataCap b) /\
  ((dataCap b < length (data b) + n)%nat ->
   (dataCap b' <= 2 * length (data b) + n)%nat).
Proof.
  intros Happ n.
  destruct (appendRec_returns_mem _ _ _ _ _ _ Happ) as [m Hm].
  destruct (appendRec_spec dFlag expiresAt key value b m Hm)
    as (b1 & Happ1 & Hd & _).
  assert (b1 = b') by congruence. subst b1.
  pose proof (appendRec_cap _ _ _ _ _ _ Happ) as Hc. fold n in Hc.
  assert (Hn : (1 <= n)%nat) by (unfold n, record_of; simpl; lia).
  assert (Hlen : length (data b') = (length (data b) + n)%nat)
    by (rewrite Hd, length_app; reflexivity).
  rewrite Hlen, Hc. unfold grow.
  set (div := if (batchGrowRec <? length (index b))%nat
              then (length (index b) / batchGrowRec)%nat else 1%nat).
  assert (Hdiv : (length (data b) / div <= length (data b))%nat).
  { apply Nat.Div0.div_le_upper_bound. unfold div.
    destruct (Nat.ltb_spec batchGrowRec (length (index b))) as [Hbig |];
      [| lia].
    assert (1 <= length (index b) / batchGrowRec)%nat.
    { apply Nat.div_le_lower_bound; unfold batchGrowRec in *; lia. }
    nia. }
  generalize dependent (length (data b) / div)%nat. intros q Hq.
  destruct (Nat.ltb_spec (dataCap b - length (data b)) n) as [Hlt | Hge];
    cbn [dataCap]; repeat split; lia.
Qed.

(** X7: [internalLen] is the [uint32] sum, over the entries of the index,
    of key size plus value size plus 8.  Put, PutWithTTL and Delete keep
    this equation, and [Reset] sets it up again (both sides are 0). *)
Theorem internalLen_accounts (ops : list op) (b b' : Batch) :
  internalLen b = internal_total (index b) ->
  apply_ops ops b = Returns b' ->
  internalLen b' = internal_total (index b') /\
  internalLen (Reset b') = internal_total (index (Reset b')).
Proof.
  intros Hinv Hrun. split; [| reflexivity].
  revert b Hinv Hrun.
  induction ops as [| o ops IH]; intros b Hinv Hrun; simpl in Hrun.
  - congruence.
  - destruct (apply_op o b) as [b1 | |] eqn:Ho; simpl in Hrun;
      try discriminate.
    apply (IH b1); [| exact Hrun].
    assert (Hstep : exists e, index b1 = index b ++ [e] /\
              internalLen b1 =
                wrap32 (internalLen b +
                        wrap32 (wrap32 (keySize e + valueSize e) + 8))).
    { destruct o; simpl in Ho; unfold Put, PutWithTTL, Delete in Ho;
        eapply appendRec_internalLen; exact Ho. }
    destruct Hstep as (e & Hi & Hl).
    rewrite Hl, Hi, Hinv. unfold internal_total.
    rewrite foldl_app. reflexivity.
Qed.

End WithCollaborators.

(** X3 on the example instance: Put("a","1") on the fresh batch. *)
Lemma appendRec_layout_witness :
  exists b',
    appendRec false 0 Example.key_a Example.val_1 Example.batch0 = Returns b' /\
    data b' = [Byte.x00; Byte.x61; Byte.x31] /\
    index b' = [mkIndex false 97 1 1 0 1].
Proof.
  destruct (appendRec_layout false 0 Example.key_a Example.val_1
              Example.batch0 Example.mem0 eq_refl)
    as (b' & Happ & Hd & Hi & _).
  exists b'. split; [exact Happ |]. split; [exact Hd | exact Hi].
Defined.

(** X4 on the example instance: Put("a","1"); Delete("a") on the fresh
    batch. *)
Lemma appended_ops_read_back_witness :
  exists b',
    apply_ops [OpPut Example.key_a Example.val_1; OpDelete Example.key_a]
      Example.batch0 = Returns b' /\
    Len b' = 2%nat /\
    exists e, index b' !! 1%nat = Some e /\
      kv e (data b') = Some (Example.key_a, []) /\ delFlag e = true.
Proof.
  destruct (appended_ops_read_back
              [OpPut Example.key_a Example.val_1; OpDelete Example.key_a]
              Example.batch0 Example.mem0 eq_refl)
    as (b' & Hrun & _ & Hlen & _ & _ & Hall).
  - repeat constructor; vm_compute; reflexivity.
  - apply Forall_nil. exact I.
  - exists b'. split; [exact Hrun |]. split; [exact Hlen |].
    destruct (Hall 1%nat (OpDelete Example.key_a) eq_refl)
      as (e & He & Hkv & Hdel & _).
    exists e. split; [exact He |]. split; [exact Hkv | exact Hdel].
Defined.

(** X5 on the example instance: a key of [2^16] bytes reads back empty. *)
Lemma appendRec_cuts_long_keys_witness :
  exists b' e,
    appendRec false 0 Example.key_64k Example.val_1 Example.batch0 =
      Returns b' /\
    index b' = index Example.batch0 ++ [e] /\
    (Z.to_nat (Z.of_nat (length Example.key_64k) mod 2 ^ 16) <
     length Example.key_64k)%nat /\
    kv e (data b') =
      Some (take (Z.to_nat (Z.of_nat (length Example.key_64k) mod 2 ^ 16))
              Example.key_64k,
            take (length Example.val_1)
              (drop (Z.to_nat (Z.of_nat (length Example.key_64k) mod 2 ^ 16))
                 (Example.key_64k ++ Example.val_1))).
Proof.
  apply (appendRec_cuts_long_keys 0 Example.key_64k Example.val_1
           Example.batch0 Example.mem0 eq_refl).
  - vm_compute. discriminate.
  - vm_compute. reflexivity.
Defined.

(** X6 on the example instance. *)
Lemma appendRec_capacity_witness :
  (length (data Example.batch_a) <= dataCap Example.batch_a)%nat /\
  (dataCap Example.batch0 <= dataCap Example.batch_a)%nat.
Proof.
  pose proof (appendRec_capacity false 0 Example.key_a Example.val_1
                Example.batch0 Example.batch_a eq_refl) as (_ & H1 & H2 & _).
  split; [exact H1 | exact H2].
Defined.

(** X7 on the example instance. *)
Lemma internalLen_accounts_witness :
  internalLen Example.batch_a = internal_total (index Example.batch_a).
Proof.
  exact (proj1 (internalLen_accounts [OpPut Example.key_a Example.val_1]
                  Example.batch0 Example.batch_a eq_refl eq_refl)).
Defined.

(** X8 on the entry of Put("a","1"). *)
Lemma k_agrees_with_kv_witness :
  k (mkIndex false 97 1 1 0 1) [Byte.x00; Byte.x61; Byte.x31] =
    Some [Byte.x61].
Proof.
  refine (proj1 (k_agrees_with_kv (mkIndex false 97 1 1 0 1)
                   [Byte.x00; Byte.x61; Byte.x31] [Byte.x61] [Byte.x31]
                   _ _ _ eq_refl)).
  - vm_compute. discriminate.
  - vm_compute. discriminate.
  - vm_compute. reflexivity.
Defined.

End BufferFacts.

(** ** More on [uniq] *)

Module UniqMore.
Import Index Batch DedupSpec Ops.

Lemma keep_last_length (l : list batchIndex) :
  (length (keep_last l) <= length l)%nat.
Proof.
  induction l as [| e l IH]; [reflexivity |]. simpl.
  case_bool_decide; simpl; lia.
Qed.

Lemma keep_last_id (l : list batchIndex) :
  NoDup (hash <$> l) -> keep_last l = l.
Proof.
  induction l as [| e l IH]; [reflexivity |].
  rewrite fmap_cons, NoDup_cons. intros [Hnin Hnd]. simpl.
  case_bool_decide; [contradiction |]. rewrite IH by exact Hnd. reflexivity.
Qed.

Lemma keep_last_full (l : list batchIndex) :
  length (keep_last l) = length l -> NoDup (hash <$> l).
Proof.
  induction l as [| e l IH]; [intros _; apply NoDup_nil_2 |]. simpl.
  pose proof (keep_last_length l) as Hle.
  case_bool_decide as Hin; simpl; intros Hlen; [lia |].
  apply NoDup_cons. split; [exact Hin |].
  apply IH. lia.
Qed.

Lemma keep_last_sublist (l : list batchIndex) : sublist (keep_last l) l.
Proof.
  induction l as [| e l IH]; [constructor |]. simpl.
  case_bool_decide; [apply sublist_cons | apply sublist_skip]; exact IH.
Qed.

Lemma keep_last_snoc (l : list batchIndex) (e : batchIndex) :
  keep_last (l ++ [e]) =
  filter (fun x => hash x <> hash e) (keep_last l) ++ [e].
Proof.
  induction l as [| x l IH]; [reflexivity |].
  cbn [app keep_last]. rewrite fmap_app. cbn [fmap list_fmap].
  case_bool_decide as Hin1; case_bool_decide as Hin2.
  - exact IH.
  - rewrite elem_of_app, list_elem_of_singleton in Hin1.
    destruct Hin1 as [Hin1 | Heq]; [contradiction |].
    rewrite filter_cons_False by (intros Hne; apply Hne; exact Heq).
    exact IH.
  - exfalso. apply Hin1. rewrite elem_of_app. left. exact Hin2.
  - rewrite filter_cons_True.
    + rewrite IH. reflexivity.
    + intros Heq. apply Hin1. rewrite elem_of_app, list_elem_of_singleton.
      right. exact Heq.
Qed.

Section WithCollaborators.
Context `{MemOps}.

(** X9: [uniq] never returns more entries than the index has, and keeps
    them in index order (a sublist); it returns as many exactly when no two
    entries share a key hash, and then it returns the index itself. *)
Theorem uniq_size (b : Batch) :
  exists pending,
    uniq b = Returns pending /\
    sublist pending (index b) /\
    (length pending <= Len b)%nat /\
    (length pending = Len b <-> NoDup (hash <$> index b)) /\
    (NoDup (hash <$> index b) -> pending = index b).
Proof.
  exists (keep_last (index b)).
  split; [apply UniqFacts.uniq_keep_last |].
  split; [apply keep_last_sublist |].
  split; [apply keep_last_length |].
  split; [| apply keep_last_id].
  split; [apply keep_last_full |].
  intros Hnd. rewrite keep_last_id by exact Hnd. reflexivity.
Qed.

(** X10: how [uniq] composes with an append.  After one more Put,
    PutWithTTL or Delete, [uniq] returns what it returned before, without
    the entry that has the hash of the new key (if there was one), followed
    by the new entry. *)
Theorem uniq_after_append (o : op) (b b' : Batch) :
  apply_op o b = Returns b' ->
  exists pending e,
    uniq b = Returns pending /\
    index b' = index b ++ [e] /\
    uniq b' = Returns (filter (fun x => hash x <> hash e) pending ++ [e]).
Proof.
  intros Ho.
  assert (Hstep : exists e, index b' = index b ++ [e]).
  { destruct o; simpl in Ho; unfold Put, PutWithTTL, Delete in Ho;
      destruct (BufferFacts.appendRec_internalLen _ _ _ _ _ _ Ho)
        as (e & Hi & _); eauto. }
  destruct Hstep as [e Hi].
  exists (keep_last (index b)), e.
  split; [apply UniqFacts.uniq_keep_last |]. split; [exact Hi |].
  rewrite UniqFacts.uniq_keep_last, Hi, keep_last_snoc. reflexivity.
Qed.

End WithCollaborators.

(** X10 on the example instance: Put("a","1") on the fresh batch. *)
Lemma uniq_after_append_witness :
  exists pending e,
    uniq Example.batch0 = Returns pending /\
    index Example.batch_a = index Example.batch0 ++ [e] /\
    uniq Example.batch_a =
      Returns (filter (fun x => hash x <> hash e) pending ++ [e]).
Proof.
  exact (uniq_after_append (OpPut Example.key_a Example.val_1)
           Example.batch0 Example.batch_a eq_refl).
Defined.

End UniqMore.

(** ** More on staging *)

Module StagingMore.
Import Index Batch Staging DedupSpec Codec.

Section WithCollaborators.
Context `{Consts} `{MemOps} `{DBOps}.

(** X11: [Write] keeps the memdb sequence number within bounds and inside
    the window that [commit] tests.  From a memdb sequence of at most
    [keyMaxSeq], a [Write] that returns (with or without an error) records
    that sequence as [batchSeq], advances the memdb sequence by the number
    of entries it staged, which is at most [Len()], never past [keyMaxSeq],
    and every entry it staged has a sequence number above [batchSeq] and at
    most [batchSeq + Len()]. *)
Theorem Write_seq_within_window (b b' : Batch) (db db' : Db.DB)
    (m : Mem.memdb) (err : option error) :
  mem b = Some m -> 0 <= Mem.seq m <= keyMaxSeq ->
  Write b db = Returns (err, b', db') ->
  exists m' new extra,
    mem b' = Some m' /\
    Mem.staged m' = Mem.staged m ++ new ++ extra /\
    (length extra <= 1)%nat /\
    (length new <= Len b)%nat /\
    batchSeq b' = Mem.seq m /\
    Mem.seq m' = Mem.seq m + Z.of_nat (length new) /\
    Mem.seq m' <= keyMaxSeq /\
    forall p, p ∈ new ->
      batchSeq b' < Mem.staged_seq p <= batchSeq b' + Z.of_nat (Len b).
Proof.
  intros Hm Hseq HW.
  pose proof CodecFacts.keyMaxSeq_val as Hmax.
  destruct (StagingFacts.Write_inv b b' db db' m err Hm HW) as (_ & _ & Hloop).
  assert (Hm0 : mem (set_batchSeq (Mem.seq m) b) = Some m) by exact Hm.
  destruct (StagingFacts.writeLoop_inv _ _ _ _ _ _ Hm0 ltac:(lia) Hloop)
    as (Hd & Hi & Hbs & m' & new & extra & Hm' & Hst & Hfrom & Hsq & Herr).
  assert (Hw : wrap64 (Mem.seq m + 1) = Mem.seq m + 1)
    by (unfold wrap64; apply Z.mod_small; lia).
  rewrite Hw in Hfrom, Hsq.
  pose proof (UniqMore.keep_last_length (index b)) as Hkl.
  assert (Hnew : (length new <= Len b)%nat /\ (length extra <= 1)%nat).
  { unfold Len. destruct err as [e |].
    - destruct Herr as [Hlt Hex]. split; [lia | exact Hex].
    - destruct Herr as [Hlen ->]. split; [lia | simpl; lia]. }
  destruct Hnew as [Hnew Hextra].
  assert (Hp : forall j p, new !! j = Some p ->
            Mem.staged_seq p = Mem.seq m + 1 + Z.of_nat j /\
            Mem.seq m + 1 + Z.of_nat j < 2 ^ 56).
  { intros j p Hj. destruct (Hfrom j p Hj) as (x & _ & Hx).
    split; [exact (StagingFacts.staged_seq_of_stages _ _ _ _ Hx) |].
    destruct Hx as (key & val & _ & _ & _ & _ & Hparse).
    apply CommitFacts.parseInternalKey_seq_range in Hparse. lia. }
  assert (Hsq' : Mem.seq m' = Mem.seq m + Z.of_nat (length new)).
  { rewrite Hsq. destruct new; simpl length; lia. }
  exists m', new, extra.
  split; [exact Hm' |]. split; [exact Hst |]. split; [exact Hextra |].
  split; [exact Hnew |]. split; [exact Hbs |]. split; [exact Hsq' |].
  split.
  - rewrite Hsq'. destruct (Nat.eq_dec (length new) 0%nat) as [-> | Hne];
      [simpl; lia |].
    destruct (lookup_lt_is_Some_2 new (length new - 1) ltac:(lia)) as [p Hj].
    destruct (Hp _ _ Hj) as [_ Hlt]. lia.
  - intros p Hin. apply list_elem_of_lookup in Hin as [j Hj].
    destruct (Hp _ _ Hj) as [-> _].
    apply lookup_lt_Some in Hj. rewrite Hbs. simpl. lia.
Qed.

(** X12: for a key and a value that pass the length checks, on a batch
    bound to a memdb, [mput] panics exactly when the memdb sequence number
    has reached [keyMaxSeq] (the next number would not fit the 56 bits of
    an internal key). *)
Theorem mput_panics_iff_seq_exhausted (dFlag : bool) (h expiresAt : Z)
    (key value : list byte) (b : Batch) (m : Mem.memdb) :
  mem b = Some m -> 0 <= Mem.seq m < 2 ^ 64 - 1 ->
  length key <> 0%nat ->
  Z.of_nat (length key) <= MaxKeyLength ->
  Z.of_nat (length value) <= MaxValueLength ->
  (mput dFlag h expiresAt key value b = Panics <-> keyMaxSeq <= Mem.seq m).
Proof.
  intros Hm Hseq Hk Hkl Hvl. unfold mput.
  destruct (Nat.eqb_spec (length key) 0); [contradiction |].
  destruct (Z.ltb_spec MaxKeyLength (Z.of_nat (length key))); [lia |].
  destruct (Z.ltb_spec MaxValueLength (Z.of_nat (length value))); [lia |].
  rewrite Hm. simpl.
  assert (Hw : wrap64 (Mem.seq m + 1) = Mem.seq m + 1)
    by (unfold wrap64; apply Z.mod_small; lia).
  rewrite Hw. unfold makeInternalKey.
  destruct (Z.ltb_spec keyMaxSeq (Mem.seq m + 1)) as [Hover | Hfits]; simpl.
  - split; [lia | reflexivity].
  - split; [| lia].
    destruct (mem_put _ _ _ _ _) as [e1 t1].
    destruct (is_err e1); [discriminate |].
    destruct (if mem_overloaded t1 then mem_split t1 else (None, t1))
      as [e2 t2].
    destruct (is_err e2); discriminate.
Qed.

(** X13: [Write] on a batch with no entries returns nil, stages nothing
    (the batch comes back with its memdb as it was, and [batchSeq] set to
    the memdb sequence), leaves the store alone, and still takes the
    gate. *)
Theorem Write_empty_batch (b : Batch) (db : Db.DB) (m : Mem.memdb) :
  mem b = Some m -> index b = [] -> Db.writeLockC db = 0%nat ->
  exists db',
    Write b db = Returns (None, set_batchSeq (Mem.seq m) b, db') /\
    Db.writeLockC db' = 1%nat /\
    Db.store db' = Db.store db /\ Db.count db' = Db.count db.
Proof.
  intros Hm Hi Hgate. unfold Write, Db.send_writeLockC.
  rewrite Hgate. simpl. rewrite Hm. simpl.
  unfold writeInternal. rewrite UniqFacts.uniq_keep_last. simpl.
  rewrite Hi. simpl. eexists. split; [reflexivity |]. auto.
Qed.

(** X14: what [Abort] leaves behind.  When [Abort] returns, the batch had a
    memdb, whose reference count it lowered by one; the batch is empty and
    unbound ([mem] is nil) but keeps [firstKeyHash] and [batchSeq]; one
    token has left the gate.  On the batch as [Abort] left it, [Commit]
    returns nil and leaves the DB as it is, and [Write] does not return. *)
Theorem Abort_leaves_batch_unbound (b b' : Batch) (m' : Mem.memdb)
    (db db' : Db.DB) :
  Abort b db = Returns (b', m', db') ->
  (exists m, mem b = Some m /\ Mem.ref m' = Mem.ref m - 1 /\
             Mem.seq m' = Mem.seq m /\ Mem.tbl m' = Mem.tbl m /\
             Mem.staged m' = Mem.staged m) /\
  Len b' = 0%nat /\ data b' = [] /\ internalLen b' = 0 /\ mem b' = None /\
  firstKeyHash b' = firstKeyHash b /\ batchSeq b' = batchSeq b /\
  Db.writeLockC db = S (Db.writeLockC db') /\
  Db.store db' = Db.store db /\
  Commit b' db' = Returns (None, db') /\
  forall r, Write b' db' <> Returns r.
Proof.
  unfold Abort, _assert.
  destruct (managed b) eqn:Hman; simpl; [discriminate |].
  destruct (mem b) as [m |] eqn:Hm; simpl; [| discriminate].
  unfold Db.recv_writeLockC.
  destruct (Db.writeLockC db) as [| n] eqn:Hgate; simpl; [discriminate |].
  intros [= <- <- <-].
  split; [exists m; simpl; auto |].
  repeat (split; [reflexivity |]).
  split.
  - unfold Commit, _assert. simpl. rewrite Hman. reflexivity.
  - intros r. unfold Write, Db.send_writeLockC. simpl.
    destruct (n <? Db.writeLockC_cap)%nat; simpl; discriminate.
Qed.

(** X15: [firstKeyHash] sticks.  A batch whose [firstKeyHash] is not 0 keeps
    it through [Reset], any appends, and a [Write] that returns: the batch
    is reused with the first key hash of its earlier use, whatever keys it
    holds now. *)
Theorem firstKeyHash_sticks (ops : list Ops.op) (b b1 b2 : Batch)
    (db db' : Db.DB) (err : option error) :
  firstKeyHash b <> 0 ->
  Ops.apply_ops ops (Reset b) = Returns b1 ->
  Write b1 db = Returns (err, b2, db') ->
  firstKeyHash b1 = firstKeyHash b /\ firstKeyHash b2 = firstKeyHash b.
Proof.
  intros Hne Hops HW.
  assert (Hkeep : forall ops b0 b1, Ops.apply_ops ops b0 = Returns b1 ->
                 firstKeyHash b1 = firstKeyHash b0).
  { clear. induction ops as [| o ops IH]; intros b0 b1 Hrun; simpl in Hrun.
    - congruence.
    - destruct (Ops.apply_op o b0) as [bm | |] eqn:Ho; simpl in Hrun;
        try discriminate.
      rewrite (IH _ _ Hrun).
      destruct o; simpl in Ho; unfold Put, PutWithTTL, Delete in Ho;
        eapply StagingFacts.appendRec_firstKeyHash; exact Ho. }
  apply Hkeep in Hops. simpl in Hops.
  split; [exact Hops |].
  destruct (mem b1) as [m |] eqn:Hm.
  - destruct (StagingFacts.Write_inv b1 b2 db db' m err Hm HW)
      as (_ & _ & Hloop).
    rewrite <- Hops.
    assert (Hne1 : firstKeyHash (set_batchSeq (Mem.seq m) b1) <> 0)
      by (simpl; congruence).
    exact (StagingFacts.writeLoop_firstKeyHash _ _ _ _ _ Hne1 Hloop).
  - exfalso. unfold Write in HW.
    destruct (Db.send_writeLockC db); simpl in HW; try discriminate.
    rewrite Hm in HW. discriminate.
Qed.

End WithCollaborators.

(** X11 on the example instance: Put("a","1"); Write on a fresh memdb. *)
Lemma Write_seq_within_window_witness :
  exists (m' : Mem.memdb) (new : list Mem.stagedPut),
    mem (fst Example.written_a) = Some m' /\
    (length new <= Len Example.batch_a)%nat /\
    Mem.seq m' = Mem.seq Example.mem0 + Z.of_nat (length new) /\
    Mem.seq m' <= keyMaxSeq.
Proof.
  assert (HW : Write Example.batch_a Example.db0 =
                 Returns (None, fst Example.written_a, snd Example.written_a))
    by reflexivity.
  destruct (Write_seq_within_window Example.batch_a _ Example.db0 _
              Example.mem0 None eq_refl
              ltac:(rewrite CodecFacts.keyMaxSeq_val; simpl; lia) HW)
    as (m' & new & extra & Hm' & _ & _ & Hlen & _ & Hsq & Hmax & _).
  exists m', new. auto.
Defined.

(** X12 on the example instance: staging on a memdb at [keyMaxSeq]. *)
Lemma mput_panics_iff_seq_exhausted_witness :
  mput false 97 0 Example.key_a Example.val_1 Example.batch_full = Panics.
Proof.
  apply (mput_panics_iff_seq_exhausted false 97 0 Example.key_a Example.val_1
           Example.batch_full Example.mem_full eq_refl).
  - simpl. rewrite CodecFacts.keyMaxSeq_val. lia.
  - simpl. lia.
  - vm_compute. discriminate.
  - vm_compute. discriminate.
  - simpl. lia.
Defined.

(** X13 on the example instance: [Write] on the fresh batch. *)
Lemma Write_empty_batch_witness :
  exists db',
    Write Example.batch0 Example.db0 =
      Returns (None, set_batchSeq (Mem.seq Example.mem0) Example.batch0, db') /\
    Db.writeLockC db' = 1%nat.
Proof.
  destruct (Write_empty_batch Example.batch0 Example.db0 Example.mem0
              eq_refl eq_refl eq_refl) as (db' & HW & Hgate & _).
  exists db'. split; [exact HW | exact Hgate].
Defined.

(** X14 on the example instance: Put("a","1"); Write; Abort. *)
Lemma Abort_leaves_batch_unbound_witness :
  mem (fst (fst Example.aborted_a)) = None /\
  Commit (fst (fst Example.aborted_a)) (snd Example.aborted_a) =
    Returns (None, snd Example.aborted_a).
Proof.
  pose proof (Abort_leaves_batch_unbound (fst Example.written_a)
                (fst (fst Example.aborted_a)) (snd (fst Example.aborted_a))
                (snd Example.written_a) (snd Example.aborted_a) eq_refl)
    as (_ & _ & _ & _ & Hm & _ & _ & _ & _ & HC & _).
  split; [exact Hm | exact HC].
Defined.

(** X15 on the example instance: a batch that staged hash 97 before, reset
    and refilled with "b" (hash 98), still has 97 after [Write]. *)
Lemma firstKeyHash_sticks_witness :
  firstKeyHash Example.batch_reused = 97 /\
  firstKeyHash (fst Example.written_reused) = 97.
Proof.
  apply (firstKeyHash_sticks [Ops.OpPut Example.key_b Example.val_2]
           (set_firstKeyHash 97 Example.batch0) Example.batch_reused
           (fst Example.written_reused) Example.db0 (snd Example.written_reused)
           None).
  - simpl. lia.
  - reflexivity.
  - reflexivity.
Defined.

End StagingMore.

(** ** More on the commit walk *)

Module CommitMore.
Import Index Batch Walk.

Lemma forEachBucket_ext {S : Type}
    (cb1 cb2 : Bucket.bucketHandle -> S -> outcome (bool * option error * S))
    (chain : list (error + Bucket.bucketHandle)) :
  (forall bh s, cb1 bh s = cb2 bh s) ->
  forall s, forEachBucket chain cb1 s = forEachBucket chain cb2 s.
Proof.
  intros Hcb. induction chain as [| [e | bh] rest IH]; intros s; simpl;
    [reflexivity | reflexivity |].
  rewrite Hcb. destruct (cb2 bh s) as [[[stop err] s'] | |]; simpl;
    [| reflexivity | reflexivity].
  destruct (stop || is_err err); [reflexivity | apply IH].
Qed.

Section WithCollaborators.
Context `{Consts} `{MemOps} `{DBOps}.

Lemma commit_cb_ext (b : Batch) (m1 m2 : Mem.memdb) :
  (forall sl, mem_readKeyValue (Mem.tbl m1) sl =
              mem_readKeyValue (Mem.tbl m2) sl) ->
  forall memb w,
    commit_cb (set_mem (Some m2) b) m2 memb w = commit_cb b m1 memb w.
Proof.
  intros Hrd memb w. unfold commit_cb. f_equal.
  generalize (w, @nil (Z * Z)). generalize 0%nat.
  induction entriesPerBucket as [| n IH]; intros i s; simpl; [reflexivity |].
  assert (Hslot : commit_slot (set_mem (Some m2) b) m2 memb i s =
                  commit_slot b m1 memb i s).
  { unfold commit_slot. rewrite Hrd. reflexivity. }
  rewrite Hslot.
  destruct (commit_slot b m1 memb i s) as [[s' | stop err s'] | |]; simpl;
    [apply IH | reflexivity | reflexivity | reflexivity].
Qed.

Lemma commit_buckets_ext (b : Batch) (m1 m2 : Mem.memdb) (n : nat) :
  (forall sl, mem_readKeyValue (Mem.tbl m1) sl =
              mem_readKeyValue (Mem.tbl m2) sl) ->
  forall bucketIdx w,
    (forall idx, bucketIdx <= idx ->
       mem_chain (Mem.tbl m1) idx = mem_chain (Mem.tbl m2) idx) ->
    commit_buckets (set_mem (Some m2) b) m2 n bucketIdx w =
    commit_buckets b m1 n bucketIdx w.
Proof.
  intros Hrd. induction n as [| n IH]; intros bucketIdx w Hch; simpl;
    [reflexivity |].
  rewrite <- (Hch bucketIdx) by lia.
  rewrite (forEachBucket_ext _ _ _ (commit_cb_ext b m1 m2 Hrd)).
  destruct (forEachBucket _ _ w) as [[err w'] | |]; simpl;
    [| reflexivity | reflexivity].
  destruct (bool_decide (err = Some errBatchSeqComplete)); [reflexivity |].
  destruct (is_err err); [reflexivity |].
  apply IH. intros idx Hidx. apply Hch. lia.
Qed.

(** X16: [commit] starts at the memdb bucket of [firstKeyHash] and never
    reads a bucket below it.  Two memdbs with the same data region and the
    same number of buckets, whose bucket chains agree from the bucket of
    [firstKeyHash] on, give the same result (the same error and the same
    DB): what is staged in the lower buckets is not committed. *)
Theorem commit_ignores_lower_buckets (b : Batch) (m1 m2 : Mem.memdb)
    (db : Db.DB) :
  mem b = Some m1 ->
  mem_nBuckets (Mem.tbl m1) = mem_nBuckets (Mem.tbl m2) ->
  mem_bucketIndex (Mem.tbl m1) (firstKeyHash b) =
    mem_bucketIndex (Mem.tbl m2) (firstKeyHash b) ->
  (forall sl, mem_readKeyValue (Mem.tbl m1) sl =
              mem_readKeyValue (Mem.tbl m2) sl) ->
  (forall idx, mem_bucketIndex (Mem.tbl m1) (firstKeyHash b) <= idx ->
     mem_chain (Mem.tbl m1) idx = mem_chain (Mem.tbl m2) idx) ->
  commit (set_mem (Some m2) b) db = commit b db.
Proof.
  intros Hm Hn Hidx Hrd Hch. unfold commit.
  destruct (Db.mu db); [reflexivity |].
  rewrite Hm. simpl. rewrite <- Hn, <- Hidx.
  rewrite (commit_buckets_ext b m1 m2 _ Hrd _ _ Hch). reflexivity.
Qed.

Lemma commit_delete_filtered (hash : Z) (key : list byte) (w : walk) :
  filter_Test (wstore w) hash = false ->
  commit_delete hash key w = Returns (Ret false None w).
Proof. intros Hf. unfold commit_delete. rewrite Hf. reflexivity. Qed.

(** X17: a staged delete that finds nothing ends the work on its memdb
    handle.  When the walk reaches a staged delete of this batch whose hash
    fails [filter.Test], or whose key is in no slot of the persistent
    chain, the callback returns [false, nil] there: the slots after it in
    the same handle, however many and whatever they hold, are not looked
    at, and the store is as it was. *)
Theorem commit_delete_miss_ends_handle (b : Batch) (m : Mem.memdb)
    (memb : Bucket.bucketHandle) (i n : nat) (w : walk)
    (deferred : list (Z * Z)) (key : list byte) :
  0 <= batchSeq b -> batchSeq b + Z.of_nat (Len b) < 2 ^ 64 ->
  staged_delete b m (Bucket.get memb i) key ->
  (filter_Test (wstore w) (db_hash (wstore w) key) = false ->
   commit_slots b m memb i (S n) (w, deferred) =
     Returns (false, None, (w, deferred))) /\
  (forall bh0,
     filter_Test (wstore w) (db_hash (wstore w) key) = true ->
     forEachBucket
       (db_chain (wstore w)
          (db_bucketIndex (wstore w) (db_hash (wstore w) key)))
       (del_scan_cb (wstore w) (db_hash (wstore w) key) key)
       (Bucket.empty, -1) = Returns (None, (bh0, -1)) ->
     commit_slots b m memb i (S n) (w, deferred) =
       Returns (false, None,
                (set_delCount (wrap_int64 (delCount w + 1)) w, deferred))).
Proof.
  intros Hseq Hwin Hdel.
  pose proof (CommitFacts.commit_slot_delete b m memb i (w, deferred) key
                Hseq Hwin Hdel) as Hslot.
  simpl in Hslot. split.
  - intros Hf. cbn [commit_slots]. rewrite Hslot.
    rewrite (commit_delete_filtered _ _ _ Hf). reflexivity.
  - intros bh0 Hf Hscan. cbn [commit_slots]. rewrite Hslot.
    rewrite (CommitFacts.commit_delete_not_found _ _ _ bh0 Hf Hscan).
    reflexivity.
Qed.

(** X18: the metrics only see a walk that went through.  When [commit]
    returns an error and [syncWrites] is off (so the error is the walk's),
    [metrics.Dels] and [metrics.Puts] are as before the call, whatever the
    walk had counted and written up to the error; the gate and
    [syncWrites] are as before too. *)
Theorem commit_error_keeps_metrics (b : Batch) (db db' : Db.DB) (e : error) :
  Db.syncWrites db = false ->
  commit b db = Returns (Some e, db') ->
  Db.Dels db' = Db.Dels db /\ Db.Puts db' = Db.Puts db /\
  Db.writeLockC db' = Db.writeLockC db /\ Db.syncWrites db' = false.
Proof.
  intros Hsync Hc.
  destruct (CommitFacts.commit_inv b db db' (Some e) Hc)
    as (_ & m & w & werr & _ & Hb & _ & Hres).
  destruct werr as [e' |].
  - destruct Hres as [_ ->].
    apply CommitFacts.commit_buckets_inv in Hb as [Hfr _].
    simpl in Hfr. destruct Hfr as (Hg & _ & Hs & Hd & Hp).
    rewrite Hs. auto.
  - rewrite Hsync in Hres. destruct Hres as (_ & _ & _ & Hnone & _).
    discriminate.
Qed.

End WithCollaborators.

(** X16 on the two-bucket memdb: after Put("a","1"); Put("b","2"); Write,
    the walk starts at bucket 1, where "a" is; with "b" taken out of
    bucket 0 the result is the same, and it holds one key. *)
Lemma commit_ignores_lower_buckets_witness :
  commit (set_mem (Some Example2.mem_ab_high) (fst Example2.written_ab))
    (snd Example2.written_ab) =
    commit (fst Example2.written_ab) (snd Example2.written_ab) /\
  commit (fst Example2.written_ab) (snd Example2.written_ab) =
    Returns Example2.commit_ab /\
  Db.count (snd Example2.commit_ab) = 1.
Proof.
  split; [| split; reflexivity].
  apply (commit_ignores_lower_buckets (fst Example2.written_ab)
           Example2.mem_ab Example2.mem_ab_high (snd Example2.written_ab)).
  - reflexivity.
  - reflexivity.
  - reflexivity.
  - intros sl. reflexivity.
  - intros idx Hidx. change (1 <= idx) in Hidx.
    unfold mem_chain, Example2.memops.
    destruct (Z.eqb_spec idx 0); [lia | reflexivity].
Defined.

(** X17 on the example instance: Delete("a"); Put("b","2"); Write on the
    fresh DB.  The delete in slot 0 finds no "a"; the put in slot 1 is not
    reached, and [Commit] leaves the DB without "b". *)
Lemma commit_delete_miss_ends_handle_witness :
  commit_slots (fst Example.written_del_put) Example.mem_del_put
    Example.handle_del_put 0 4 (Example.walk0_del_put, []) =
    Returns (false, None, (set_delCount 1 Example.walk0_del_put, [])) /\
  Commit (fst Example.written_del_put) (snd Example.written_del_put) =
    Returns (None, Example.committed_del_put) /\
  Db.count Example.committed_del_put = 0 /\
  Db.Puts Example.committed_del_put = 0.
Proof.
  split; [| split; [| split]; reflexivity].
  destruct (commit_delete_miss_ends_handle (fst Example.written_del_put)
              Example.mem_del_put Example.handle_del_put 0 3
              Example.walk0_del_put [] Example.key_a) as [_ Hmiss].
  - vm_compute. discriminate.
  - vm_compute. reflexivity.
  - exists [], 1, 0.
    split; [| split; [vm_compute; reflexivity | vm_compute; discriminate]].
    split; [vm_compute; discriminate |]. eexists. split; reflexivity.
  - apply (Hmiss Bucket.empty); reflexivity.
Defined.

(** X18 on the example instance: committing Put("a","1") into a DB that
    holds [MaxKeys] keys gives [errFull], and [metrics.Puts] stays 0. *)
Lemma commit_error_keeps_metrics_witness :
  commit (fst Example.written_a) Example.db_full =
    Returns (Some errFull, snd Example.commit_full) /\
  Db.Puts (snd Example.commit_full) = Db.Puts Example.db_full.
Proof.
  assert (Hc : commit (fst Example.written_a) Example.db_full =
                 Returns (Some errFull, snd Example.commit_full))
    by reflexivity.
  split; [exact Hc |].
  apply (commit_error_keeps_metrics (fst Example.written_a) Example.db_full
           (snd Example.commit_full) errFull eq_refl Hc).
Defined.

End CommitMore.

(** ** The file wrapper *)

Module FileFacts.
Import File.

Lemma wrap_int64_small (z : Z) :
  - 2 ^ 63 <= z < 2 ^ 63 -> wrap_int64 z = z.
Proof. intros Hz. unfold wrap_int64. rewrite Z.mod_small; lia. Qed.

Section WithFileManager.
Context `{FileOps}.

Lemma run_fop_size (o : fop) (f f1 : file) (r : Z) (err : option error) :
  0 <= size f -> 0 <= fop_size o -> size f + fop_size o < 2 ^ 63 ->
  run_fop o f = Returns (r, err, f1) ->
  match err with
  | None => size f1 = size f + fop_size o /\
            forall sz, o = FExtend sz -> r = size f
  | Some _ => size f1 = size f /\ r = 0
  end.
Proof.
  intros Hf Ho Hsum.
  destruct o as [sz | data]; simpl in *; unfold extend, write;
    destruct (FileManager f) as [m |]; simpl; try discriminate.
  - destruct (fm_Truncate _ m) as [[e |] m']; simpl; intros [= <- <- <-];
      simpl; [auto |].
    rewrite wrap_int64_small by lia. auto.
  - destruct (fm_WriteAt data (size f) m) as [[n [e |]] m']; simpl;
      intros [= <- <- <-]; simpl; [auto |].
    rewrite wrap_int64_small by lia. split; [reflexivity | discriminate].
Qed.

(** X19: [extend] and [write] hand out the file end to end.  In any run of
    [extend] and [write] calls (on a file whose size, with all the sizes
    asked for, stays below [2^63]), the cached size ends at the size at the
    start plus the sizes of the calls that returned nil; each [extend] that
    returned nil returned the size at the start plus the sizes granted
    before it, so no two granted regions overlap; and a call that returned
    an error returned 0 and left the cached size alone. *)
Theorem run_fops_accounts (ops : list fop) :
  forall (f f' : file) (res : list (Z * option error)),
  0 <= size f ->
  Forall (fun o => 0 <= fop_size o) ops ->
  size f + foldr (fun o acc => fop_size o + acc) 0 ops < 2 ^ 63 ->
  run_fops ops f = Returns (res, f') ->
  length res = length ops /\
  size f' = size f + granted ops res /\
  0 <= granted ops res /\
  (forall j sz off,
     ops !! j = Some (FExtend sz) -> res !! j = Some (off, None) ->
     off = size f + granted (take j ops) (take j res)) /\
  (forall j r e, res !! j = Some (r, Some e) -> r = 0).
Proof.
  induction ops as [| o ops IH]; intros f f' res Hf Hall Hsum Hrun;
    simpl in Hrun.
  - injection Hrun as <- <-. simpl.
    split; [reflexivity |]. split; [lia |]. split; [lia |].
    split; intros j; intros; rewrite lookup_nil in *; discriminate.
  - apply Forall_cons in Hall as [Ho Hall]. simpl in Hsum.
    assert (Htail : 0 <= foldr (fun o acc => fop_size o + acc) 0 ops).
    { clear -Hall. induction Hall; simpl; lia. }
    destruct (run_fop o f) as [[[r err] f1] | |] eqn:Hstep; simpl in Hrun;
      try discriminate.
    destruct (run_fops ops f1) as [[res1 f2] | |] eqn:Hrest; simpl in Hrun;
      try discriminate.
    injection Hrun as <- <-.
    pose proof (run_fop_size o f f1 r err Hf Ho ltac:(lia) Hstep) as Hone.
    assert (Hf1 : 0 <= size f1 /\
                  size f1 + foldr (fun o acc => fop_size o + acc) 0 ops
                    < 2 ^ 63).
    { destruct err; destruct Hone as [-> _]; lia. }
    destruct Hf1 as [Hf1 Hsum1].
    destruct (IH f1 f2 res1 Hf1 Hall Hsum1 Hrest)
      as (Hlen & Hsize & Hpos & Hoff & Hzero).
    split; [simpl; lia |].
    split; [destruct err; destruct Hone as [Hs _]; simpl; lia |].
    split; [destruct err; simpl; lia |].
    split.
    + intros [| j] sz off Hop Hres; simpl in Hop, Hres.
      * injection Hop as ->. injection Hres as -> ->. simpl.
        destruct Hone as [_ Hr]. rewrite (Hr sz eq_refl). lia.
      * rewrite (Hoff j sz off Hop Hres).
        destruct err; destruct Hone as [Hs _]; simpl; lia.
    + intros [| j] r0 e Hres; simpl in Hres.
      * injection Hres as -> ->. destruct Hone as [_ Hr]. exact Hr.
      * exact (Hzero j r0 e Hres).
Qed.

(** X20: the cached size follows the file.  Take a file manager for which
    a [Truncate] that returns nil leaves a file of the size asked for, and
    a [WriteAt] that returns nil leaves a file that ends at its old end or
    at the end of the write, whichever is later.  Then [newFile], and
    [truncate], [extend] and [write] when they return nil, give a file
    whose cached size is the size [Stat] reports; so does
    [writeMarshalableAt] for a write that ends within the cached size. *)
Theorem cached_size_synced :
  (forall n m m', fm_Truncate n m = (None, m') ->
     fm_Stat m' = (Some n, None)) ->
  (forall data off m r m' sz,
     fm_WriteAt data off m = (r, None, m') ->
     fm_Stat m = (Some sz, None) ->
     fm_Stat m' = (Some (Z.max sz (off + Z.of_nat (length data))), None)) ->
  (forall fs name f, newFile fs name = Returns (f, None) -> synced f) /\
  (forall n f f', truncate n f = Returns (None, f') -> synced f') /\
  (forall sz off f f',
     - 2 ^ 63 <= size f + sz < 2 ^ 63 ->
     extend sz f = Returns (off, None, f') -> synced f') /\
  (forall data n f f',
     synced f -> - 2 ^ 63 <= size f ->
     size f + Z.of_nat (length data) < 2 ^ 63 ->
     write data f = Returns (n, None, f') -> synced f') /\
  (forall buf off f f',
     synced f -> off + Z.of_nat (length buf) <= size f ->
     writeMarshalableAt (buf, None) off f = Returns (None, f') ->
     synced f' /\ size f' = size f).
Proof.
  intros HTrunc HWrite. unfold synced.
  split; [| split; [| split; [| split]]].
  - intros fs name f. unfold newFile.
    destruct (fs_OpenFile fs name) as [fi [e |]]; simpl; [discriminate |].
    destruct fi as [m |]; simpl; [| discriminate].
    destruct (fm_Stat m) as [stat [e |]] eqn:Hstat; simpl; [discriminate |].
    destruct stat as [sz |]; simpl; [| discriminate].
    intros [= <-]. exists m. simpl. auto.
  - intros n f f'. unfold truncate.
    destruct (FileManager f) as [m |]; simpl; [| discriminate].
    destruct (fm_Truncate n m) as [[e |] m'] eqn:Ht; simpl; [discriminate |].
    intros [= <-]. exists m'. simpl. split; [reflexivity |].
    exact (HTrunc _ _ _ Ht).
  - intros sz off f f' Hfit. unfold extend.
    destruct (FileManager f) as [m |]; simpl; [| discriminate].
    destruct (fm_Truncate _ m) as [[e |] m'] eqn:Ht; simpl; [discriminate |].
    intros [= <- <-]. exists m'. simpl. split; [reflexivity |].
    exact (HTrunc _ _ _ Ht).
  - intros data n f f' (m & Hm & Hstat) Hlo Hfit. unfold write.
    rewrite Hm. simpl.
    destruct (fm_WriteAt data (size f) m) as [[r [e |]] m'] eqn:Hw; simpl;
      [discriminate |].
    intros [= <- <-]. exists m'. simpl. split; [reflexivity |].
    rewrite (HWrite _ _ _ _ _ _ Hw Hstat).
    rewrite Z.max_r by lia. rewrite wrap_int64_small by lia. reflexivity.
  - intros buf off f f' (m & Hm & Hstat) Hfit. unfold writeMarshalableAt.
    simpl. rewrite Hm. simpl.
    destruct (fm_WriteAt buf off m) as [[r err] m'] eqn:Hw; simpl.
    intros [= -> <-]. simpl. split; [| reflexivity].
    exists m'. split; [reflexivity |].
    rewrite (HWrite _ _ _ _ _ _ Hw Hstat).
    rewrite Z.max_l by lia. reflexivity.
Qed.

End WithFileManager.

Lemma fileops_Truncate_size (n : Z) (m m' : list byte) :
  fm_Truncate n m = (None, m') -> fm_Stat m' = (Some n, None).
Proof.
  simpl. destruct (Z.ltb_spec n 0); [discriminate |]. intros [= <-].
  do 2 f_equal.
  rewrite length_app, length_take, length_replicate. lia.
Qed.

Lemma fileops_WriteAt_size (data : list byte) (off : Z) (m : list byte)
    (r : Z) (m' : list byte) (sz : Z) :
  fm_WriteAt data off m = (r, None, m') ->
  fm_Stat m = (Some sz, None) ->
  fm_Stat m' = (Some (Z.max sz (off + Z.of_nat (length data))), None).
Proof.
  simpl. destruct (Z.ltb_spec off 0); [discriminate |].
  intros [= <- <-] [= <-]. do 2 f_equal.
  rewrite !length_app, length_take, length_drop, !length_app,
    length_replicate.
  lia.
Qed.

(** X19 on the file held in memory: extend(4); write("ab"); extend(3). *)
Lemma run_fops_accounts_witness :
  run_fops FileExample.ops0 FileExample.file0 = Returns FileExample.ran0 /\
  size (snd FileExample.ran0) =
    size FileExample.file0 + granted FileExample.ops0 (fst FileExample.ran0) /\
  fst FileExample.ran0 = [(0, None); (2, None); (6, None)].
Proof.
  assert (Hrun : run_fops FileExample.ops0 FileExample.file0 =
                   Returns (fst FileExample.ran0, snd FileExample.ran0))
    by reflexivity.
  split; [exact Hrun |]. split; [| reflexivity].
  refine (proj1 (proj2 (run_fops_accounts FileExample.ops0 FileExample.file0
                          (snd FileExample.ran0) (fst FileExample.ran0)
                          _ _ _ Hrun))).
  - simpl. lia.
  - repeat constructor; vm_compute; discriminate.
  - vm_compute. reflexivity.
Defined.

(** X20 on the file held in memory: extend(4) on the empty file. *)
Lemma cached_size_synced_witness : synced FileExample.file_ext.
Proof.
  destruct (cached_size_synced (H := FileExample.fileops)
              fileops_Truncate_size fileops_WriteAt_size)
    as (_ & _ & Hext & _).
  apply (Hext 4 0 FileExample.file0 FileExample.file_ext).
  - vm_compute. split; [discriminate | reflexivity].
  - reflexivity.
Defined.

End FileFacts.

(** ** The later batch *)

Module V2Facts.
Import V2.


Lemma slice64_inv (d : list byte) (lo hi : Z) (r : list byte) :
  slice64 d lo hi = Some r ->
  0 <= lo /\ lo <= hi /\ hi <= Z.of_nat (length d) /\
  r = take (Z.to_nat (hi - lo)) (drop (Z.to_nat lo) d).
Proof.
  unfold slice64.
  destruct (Z.leb_spec 0 lo); simpl; [| discriminate].
  destruct (Z.leb_spec lo hi); simpl; [| discriminate].
  destruct (Z.leb_spec hi (Z.of_nat (length d))); [| discriminate].
  intros [= <-]. auto.
Qed.


(** A slice of [d] is the same slice of [pre ++ d ++ more], moved by the
    length of [pre]. *)
Lemma slice64_shift (pre d more r : list byte) (lo hi : Z) :
  slice64 d lo hi = Some r ->
  slice64 (pre ++ d ++ more) (lo + Z.of_nat (length pre))
    (hi + Z.of_nat (length pre)) = Some r.
Proof.
  intros Hs. apply slice64_inv in Hs as (Hlo & Hhi & Hlen & ->).
  unfold slice64.
  destruct (Z.leb_spec 0 (lo + Z.of_nat (length pre))); [| lia].
  destruct (Z.leb_spec (lo + Z.of_nat (length pre))
              (hi + Z.of_nat (length pre))); [| lia].
  destruct (Z.leb_spec (hi + Z.of_nat (length pre))
              (Z.of_nat (length (pre ++ d ++ more)))) as [_ | Hbad];
    [| rewrite !length_app in Hbad; lia].
  simpl. f_equal.
  replace (hi + Z.of_nat (length pre) - (lo + Z.of_nat (length pre)))
    with (hi - lo) by lia.
  replace (Z.to_nat (lo + Z.of_nat (length pre)))
    with (length pre + Z.to_nat lo)%nat by lia.
  rewrite drop_app_add, drop_app_le by lia.
  rewrite take_app_le by (rewrite length_drop; lia). reflexivity.
Qed.

Section WithMsg.
Context `{MsgOps}.

(** A message that reads back from [d] reads back the same from
    [pre ++ d ++ more] once its offset is moved by the length of [pre]. *)
Lemma message_shift (e : batchIndex) (pre d more : list byte)
    (r : list byte * list byte * list byte) :
  Z.of_nat (length pre + length d) < 2 ^ 63 ->
  mOffset e < 2 ^ 63 ->
  message e d = Some r ->
  message (set_mOffset (wrap_int64 (mOffset e + Z.of_nat (length pre))) e)
    (pre ++ d ++ more) = Some r.
Proof.
  intros Hfit H64. unfold message.
  destruct (slice64 d _ _) as [keyValue |] eqn:Hs; simpl; [| discriminate].
  intros Hrest.
  pose proof (slice64_inv _ _ _ _ Hs) as (Hlo & Hhi & Hlen & _).
  assert (Hsz : 0 <= mSize e < 2 ^ 32)
    by (unfold mSize, wrap32; apply Z.mod_pos_bound; lia).
  assert (Hhi' : wrap_int64 (mOffset e + mSize e) = mOffset e + mSize e).
  { apply FileFacts.wrap_int64_small.
    split; [lia |].
    destruct (Z.lt_ge_cases (mOffset e + mSize e) (2 ^ 63)) as [| Hbig];
      [assumption |].
    exfalso. unfold wrap_int64 in Hhi.
    replace (mOffset e + mSize e + 2 ^ 63)
      with (mOffset e + mSize e - 2 ^ 63 + 1 * 2 ^ 64) in Hhi by lia.
    rewrite Z.mod_add, Z.mod_small in Hhi by lia. lia. }
  rewrite Hhi' in Hs, Hlen.
  assert (Hoff : wrap_int64 (mOffset e + Z.of_nat (length pre)) =
                 mOffset e + Z.of_nat (length pre)).
  { apply FileFacts.wrap_int64_small. lia. }
  rewrite Hoff.
  assert (Hsz' : mSize (set_mOffset (mOffset e + Z.of_nat (length pre)) e) =
                 mSize e) by reflexivity.
  rewrite Hsz'.
  assert (Hhi2 : wrap_int64 (mOffset e + Z.of_nat (length pre) + mSize e) =
                 mOffset e + mSize e + Z.of_nat (length pre)).
  { rewrite FileFacts.wrap_int64_small; lia. }
  cbn [mOffset set_mOffset]. rewrite Hhi2.
  rewrite (slice64_shift pre d more keyValue _ _ Hs). simpl.
  exact Hrest.
Qed.

(** An entry that reads back from a buffer reads back the same from any
    extension of the buffer. *)
Lemma message_app (e : batchIndex) (d more : list byte)
    (r : list byte * list byte * list byte) :
  message e d = Some r -> message e (d ++ more) = Some r.
Proof.
  unfold message.
  destruct (slice64 d _ _) as [keyValue |] eqn:Hs; simpl; [| discriminate].
  intros Hrest.
  pose proof (slice64_shift [] d more keyValue _ _ Hs) as Hs'.
  simpl in Hs'. rewrite !Z.add_0_r in Hs'. rewrite Hs'. exact Hrest.
Qed.




Lemma foldl_snoc_fmap {A B : Type} (f : A -> B) (l : list A) :
  forall init, foldl (fun acc x => acc ++ [f x]) init l = init ++ (f <$> l).
Proof.
  induction l as [| x l IH]; intros init; simpl.
  - rewrite app_nil_r. reflexivity.
  - rewrite IH, <- app_assoc. reflexivity.
Qed.

(** X22: [append] merges a batch without disturbing what reads back.  The
    buffer of [bnew] goes behind the buffer of [b]; the entries of [bnew]
    go behind the entries of [b], in order, each with its offset moved by
    the old buffer length, so that each reads back the message it read back
    in [bnew]; the messages of [b] read back as before; and [Len()] stays,
    since [pendingWrites] is not touched. *)
Theorem append_keeps_messages (bnew b : Batch) :
  Z.of_nat (length (data b) + length (data bnew)) < 2 ^ 63 ->
  data (append bnew b) = data b ++ data bnew /\
  length (index (append bnew b)) =
    (length (index b) + length (index bnew))%nat /\
  take (length (index b)) (index (append bnew b)) = index b /\
  (forall e0 r, message e0 (data b) = Some r ->
     message e0 (data (append bnew b)) = Some r) /\
  (forall j e r,
     index bnew !! j = Some e -> mOffset e < 2 ^ 63 ->
     message e (data bnew) = Some r ->
     exists e',
       index (append bnew b) !! (length (index b) + j)%nat = Some e' /\
       message e' (data (append bnew b)) = Some r /\
       key e' = key e /\ seq e' = seq e /\ delFlag e' = delFlag e) /\
  Len (append bnew b) = Len b.
Proof.
  intros Hfit. unfold append. cbn [data index pendingWrites Len].
  rewrite foldl_snoc_fmap.
  split; [reflexivity |].
  split; [rewrite length_app, length_fmap; reflexivity |].
  split; [apply take_app_length |].
  split; [intros e0 r; apply message_app |].
  split; [| reflexivity].
  intros j e r Hj H64 Hmsg.
  eexists. split.
  - rewrite lookup_app_r by lia.
    replace (length (index b) + j - length (index b))%nat with j by lia.
    rewrite list_lookup_fmap, Hj. reflexivity.
  - split; [| auto].
    pose proof (message_shift e (data b) (data bnew) [] r Hfit H64 Hmsg)
      as Hshift.
    rewrite app_nil_r in Hshift. exact Hshift.
Qed.

End WithMsg.

(** *** [uniq], by way of the first batch's [uniq] *)

Lemma scan_sim (index : list batchIndex) (n : nat) :
  forall st2 st1,
  (n <= length index)%nat ->
  scan_rel index st2 st1 ->
  scan_rel index (uniq_scan index n st2)
    (Batch.uniq_scan (imap enc index) n st1).
Proof.
  induction n as [| n IH]; intros st2 st1 Hn Hrel; [exact Hrel |].
  simpl. apply IH; [lia |].
  destruct st2 as [U2 i2]. destruct st1 as [[U1 Ix1] i1].
  destruct Hrel as (-> & -> & -> & Hlt).
  destruct (lookup_lt_is_Some_2 index n ltac:(lia)) as [e He].
  assert (Henc : imap enc index !!! n = enc n e).
  { apply list_lookup_total_correct. rewrite list_lookup_imap, He.
    reflexivity. }
  rewrite Henc. unfold uniq_step, Batch.uniq_step.
  rewrite (list_lookup_total_correct index n e He).
  change (Index.hash (enc n e)) with (key e).
  rewrite lookup_fmap.
  destruct (U2 !! key e) as [v |] eqn:Hk; simpl.
  - repeat split; [exact Hlt].
  - split; [reflexivity |]. split; [rewrite fmap_insert; reflexivity |].
    split.
    + rewrite fmap_insert. simpl.
      rewrite (list_lookup_total_correct index n e He). reflexivity.
    + intros k p j. destruct (decide (k = key e)) as [-> | Hne].
      * rewrite lookup_insert_eq. intros [= <- <-]. lia.
      * rewrite lookup_insert_ne by congruence. apply Hlt.
Qed.

(** The second loop writes every numbered entry at its mirrored position,
    whatever order the map is ranged over, and never panics. *)
Lemma uniq_place_all_keys (index : list batchIndex) (acc : list Index.batchIndex)
    (U2 : gmap Z (nat * Z)) (U1 : gmap Z Z) (Ix1 : gmap Z Index.batchIndex)
    (i : Z) :
  scan_rel index (U2, i) (U1, Ix1, i) ->
  DedupSpec.scan_inv acc (U1, Ix1, i) ->
  map_fold (uniq_place (size U2) index) (Returns (replicate (size U2) zero))
    U2 =
    Returns (reverse ((fun e1 => index !!! Index.kvOffset e1) <$> acc)).
Proof.
  intros (_ & HU1 & HIx1 & Hlt) (Hi & Hsz & Hnd & HU & HI).
  assert (Hsz2 : size U2 = length acc)
    by (rewrite <- Hsz, HU1, map_size_fmap; reflexivity).
  rewrite Hsz2. set (n := length acc).
  set (dec := fun e1 : Index.batchIndex => index !!! Index.kvOffset e1).
  assert (Hentry : forall k p j, U2 !! k = Some (p, j) ->
            0 <= j /\ index !! p = Some (index !!! p) /\
            exists e1, acc !! Z.to_nat j = Some e1 /\ Index.hash e1 = k /\
                       dec e1 = index !!! p).
  { intros k p j Hk.
    assert (HUk : U1 !! k = Some j) by (rewrite HU1, lookup_fmap, Hk; reflexivity).
    apply HU in HUk as (Hj & e1 & He1 & Hh).
    split; [exact Hj |]. split.
    - destruct (lookup_lt_is_Some_2 index p (Hlt _ _ _ Hk)) as [e He].
      rewrite He. f_equal. symmetry.
      apply list_lookup_total_correct, He.
    - exists e1. split; [exact He1 |]. split; [exact Hh |].
      pose proof (HI _ _ He1) as HIe. rewrite Hh, HIx1, lookup_fmap, Hk in HIe.
      simpl in HIe. injection HIe as <-. reflexivity. }
  assert (Hgoal : (forall k v, U2 !! k = Some v -> U2 !! k = Some v) ->
    exists pw, map_fold (uniq_place n index) (Returns (replicate n zero)) U2 =
                 Returns pw /\ length pw = n /\
      forall j e1, acc !! j = Some e1 ->
        (exists p, U2 !! Index.hash e1 = Some (p, Z.of_nat j)) ->
        pw !! (n - 1 - j)%nat = Some (dec e1)).
  { apply (map_fold_weak_ind
      (fun res m => (forall k v, m !! k = Some v -> U2 !! k = Some v) ->
         exists pw, res = Returns pw /\ length pw = n /\
           forall j e1, acc !! j = Some e1 ->
             (exists p, m !! Index.hash e1 = Some (p, Z.of_nat j)) ->
             pw !! (n - 1 - j)%nat = Some (dec e1))).
    - intros _. exists (replicate n zero).
      split; [reflexivity |]. split; [apply length_replicate |].
      intros j e1 _ [p Hm]. rewrite lookup_empty in Hm. discriminate.
    - intros k [p j0] m res Hmk IH Hsub.
      destruct IH as (pw & -> & Hlen & Hpw).
      { intros k' v' Hm'. apply Hsub. rewrite lookup_insert_ne; [exact Hm' |].
        intros ->. congruence. }
      assert (HUk : U2 !! k = Some (p, j0)) by (apply Hsub, lookup_insert_eq).
      destruct (Hentry _ _ _ HUk) as (Hj0 & Hp & e & He & Hhe & Hdec).
      pose proof (lookup_lt_Some _ _ _ He) as Hjlt. fold n in Hjlt.
      unfold uniq_place. simpl. rewrite Hp. simpl. rewrite Hlen.
      destruct (Z.leb_spec 0 (Z.of_nat n - j0 - 1)); [| lia].
      destruct (Z.ltb_spec (Z.of_nat n - j0 - 1) (Z.of_nat n)); [| lia].
      simpl. eexists. split; [reflexivity |].
      split; [rewrite length_insert; exact Hlen |].
      replace (Z.to_nat (Z.of_nat n - j0 - 1))
        with (n - 1 - Z.to_nat j0)%nat by lia.
      intros j e1 Hj [p' Hm'].
      destruct (decide (Index.hash e1 = k)) as [Heq | Hne].
      + rewrite Heq, lookup_insert_eq in Hm'. injection Hm' as -> ->.
        rewrite Nat2Z.id in He. assert (e1 = e) as -> by congruence.
        rewrite Nat2Z.id, Hdec. apply list_lookup_insert_eq. lia.
      + rewrite lookup_insert_ne in Hm' by congruence.
        rewrite list_lookup_insert_ne; [exact (Hpw _ _ Hj (ex_intro _ p' Hm')) |].
        pose proof (lookup_lt_Some _ _ _ Hj) as Hjlt'. fold n in Hjlt'.
        intros Hpos. assert (j = Z.to_nat j0) as -> by lia. congruence. }
  destruct Hgoal as (pw & -> & Hlen & Hpw); [auto |].
  f_equal. apply list_eq. intros q.
  destruct (decide (q < n)%nat) as [Hq | Hq].
  - rewrite reverse_lookup by (rewrite length_fmap; exact Hq).
    rewrite length_fmap. fold n.
    destruct (lookup_lt_is_Some_2 acc (n - S q) ltac:(unfold n in *; lia))
      as [e1 He1].
    rewrite list_lookup_fmap, He1. simpl.
    replace q with (n - 1 - (n - S q))%nat at 1 by lia.
    apply (Hpw _ _ He1).
    assert (HUk : U1 !! Index.hash e1 = Some (Z.of_nat (n - S q))).
    { apply HU. split; [lia |]. exists e1. rewrite Nat2Z.id. auto. }
    rewrite HU1, lookup_fmap in HUk.
    destruct (U2 !! Index.hash e1) as [[p j] |]; simpl in HUk;
      [| discriminate].
    injection HUk as ->. eauto.
  - rewrite !lookup_ge_None_2; [reflexivity | |];
      rewrite ?length_reverse, ?length_fmap; fold n; lia.
Qed.

(** Decoding the entries the first batch's [keep_last] keeps gives the
    entries this one keeps. *)
Lemma keep_last_enc (l : list batchIndex) :
  forall pre,
  (fun e1 => (pre ++ l) !!! Index.kvOffset e1) <$>
    DedupSpec.keep_last (imap (fun j => enc (length pre + j)) l) =
  keep_last l.
Proof.
  induction l as [| e l IH]; intros pre; [reflexivity |].
  rewrite imap_cons. cbn [DedupSpec.keep_last keep_last].
  assert (Hkeys : Index.hash <$> imap ((fun j => enc (length pre + j)) ∘ S) l =
                  key <$> l).
  { rewrite fmap_imap. apply imap_const. }
  rewrite Hkeys. change (Index.hash (enc (length pre + 0) e)) with (key e).
  assert (Htail : (fun e1 => (pre ++ e :: l) !!! Index.kvOffset e1) <$>
                    DedupSpec.keep_last
                      (imap ((fun j => enc (length pre + j)) ∘ S) l) =
                  keep_last l).
  { rewrite <- (IH (pre ++ [e])). rewrite <- app_assoc. cbn [app].
    f_equal. f_equal. apply imap_ext. intros j x _. simpl.
    rewrite length_app. simpl. f_equal. lia. }
  case_bool_decide; [exact Htail |].
  rewrite fmap_cons, Htail. f_equal.
  cbn [Index.kvOffset enc]. rewrite Nat.add_0_r.
  apply list_lookup_total_correct, list_lookup_middle. reflexivity.
Qed.

Lemma keep_last_key_keys (l : list batchIndex) (k : Z) :
  k ∈ key <$> keep_last l <-> k ∈ key <$> l.
Proof.
  induction l as [| e l IH]; [reflexivity |]. simpl.
  case_bool_decide as Hin.
  - rewrite IH, elem_of_cons. split; [auto |]. intros [-> | Hk]; assumption.
  - rewrite fmap_cons, !elem_of_cons, IH. reflexivity.
Qed.

Lemma keep_last_key_NoDup (l : list batchIndex) : NoDup (key <$> keep_last l).
Proof.
  induction l as [| e l IH]; [apply NoDup_nil_2 |]. simpl.
  case_bool_decide as Hin; [exact IH |].
  apply NoDup_cons. split; [| exact IH].
  rewrite keep_last_key_keys. exact Hin.
Qed.

Lemma keep_last_key_sublist (l : list batchIndex) : sublist (keep_last l) l.
Proof.
  induction l as [| e l IH]; [constructor |]. simpl.
  case_bool_decide; [apply sublist_cons | apply sublist_skip]; exact IH.
Qed.

Lemma keep_last_key_latest (l : list batchIndex) (e : batchIndex) :
  e ∈ keep_last l ->
  exists l1 l2, l = l1 ++ e :: l2 /\ key e ∉ key <$> l2.
Proof.
  induction l as [| x l IH]; simpl; [intros Hin; inversion Hin |].
  case_bool_decide as Hin.
  - intros He. destruct (IH He) as (l1 & l2 & -> & Hl2).
    exists (x :: l1), l2. auto.
  - rewrite elem_of_cons. intros [-> | He].
    + exists [], l. auto.
    + destruct (IH He) as (l1 & l2 & -> & Hl2).
      exists (x :: l1), l2. auto.
Qed.

(** X23: the later [uniq] keeps the last entry of each key, in index
    order.  It never panics; it leaves the buffer and the index as they
    were and sets [pendingWrites] to a sublist of the index that has one
    entry for each key of the index, each the last one appended with its
    key.  So [Len()] is then the number of distinct keys, and [Reset]
    after it empties the index but not [pendingWrites]: [Len()] stays. *)
Theorem uniq_keeps_last_per_key `{MsgOps} (b : Batch) :
  exists b',
    uniq b = Returns b' /\
    data b' = data b /\ index b' = index b /\
    pendingWrites b' = keep_last (index b) /\
    sublist (pendingWrites b') (index b) /\
    NoDup (key <$> pendingWrites b') /\
    (forall k, k ∈ key <$> pendingWrites b' <-> k ∈ key <$> index b) /\
    (forall e, e ∈ pendingWrites b' ->
       exists l1 l2, index b = l1 ++ e :: l2 /\ key e ∉ key <$> l2) /\
    Len (Reset b') = Len b' /\ index (Reset b') = [].
Proof.
  unfold uniq.
  assert (Hrel0 : scan_rel (index b) (∅, 0) (∅, ∅, 0)).
  { split; [reflexivity |]. split; [rewrite fmap_empty; reflexivity |].
    split; [rewrite fmap_empty; reflexivity |].
    intros k p j Hk. rewrite lookup_empty in Hk. discriminate. }
  pose proof (scan_sim (index b) (length (index b)) _ _ (le_n _) Hrel0)
    as Hrel.
  pose proof (UniqFacts.scan_inv_foldl (reverse (imap enc (index b))))
    as Hinv.
  rewrite <- (firstn_all (imap enc (index b))) in Hinv at 2.
  rewrite <- UniqFacts.uniq_scan_foldl in Hinv by reflexivity.
  rewrite length_imap in Hinv.
  destruct (uniq_scan (index b) (length (index b)) (∅, 0)) as [U2 i2].
  destruct (Batch.uniq_scan (imap enc (index b)) (length (index b))
              (∅, ∅, 0)) as [[U1 Ix1] i1].
  assert (i1 = i2) as -> by (destruct Hrel as [-> _]; reflexivity).
  rewrite (uniq_place_all_keys _ _ _ _ _ _ Hrel Hinv).
  rewrite UniqFacts.firsts_reverse, fmap_reverse, reverse_involutive.
  assert (Hdec : (fun e1 => index b !!! Index.kvOffset e1) <$>
                   DedupSpec.keep_last (imap enc (index b)) =
                 keep_last (index b))
    by exact (keep_last_enc (index b) []).
  rewrite Hdec. simpl.
  eexists. split; [reflexivity |]. simpl.
  split; [reflexivity |]. split; [reflexivity |]. split; [reflexivity |].
  split; [apply keep_last_key_sublist |].
  split; [apply keep_last_key_NoDup |].
  split; [apply keep_last_key_keys |].
  split; [apply keep_last_key_latest |].
  split; reflexivity.
Qed.


(** X22 on the example instance: the three messages merged behind one. *)
Lemma append_keeps_messages_witness :
  data (append V2Example.batch_779 V2Example.batch_1) =
    data V2Example.batch_1 ++ data V2Example.batch_779 /\
  Len (append V2Example.batch_779 V2Example.batch_1) =
    Len V2Example.batch_1.
Proof.
  destruct (append_keeps_messages V2Example.batch_779 V2Example.batch_1)
    as (Hd & _ & _ & _ & _ & Hl).
  - vm_compute. reflexivity.
  - split; [exact Hd | exact Hl].
Defined.

End V2Facts.
